(** * The Gobstones bytecode compiler: a shallow embedding

    The development follows the compiler class of the interpreter
    (methods [compile], [_compileMain], [_compileStatement],
    [_compileExpression], the pattern lowerings and the helpers
    [_produce], [_freshLabel], [_freshVariable]), the symbol table of
    [symtable.js], and the type trees, the integer and string values and
    the equality of values of [value.js].

    The compiler is an object with mutable fields: it is modelled by
    explicit state passing over the record [Compiler], inside a small
    state-and-exception monad.  A thrown JavaScript exception ends the
    computation and discards the state. *)

From Stdlib Require Import ZArith.
From Stdlib Require DecimalString DecimalZ DecimalPos.
From stdpp Require Import base strings list gmap pretty sorting.

Set Warnings "-register-all".


(** ** Positions

    Modelled from the spec: the position class lives with the parser, outside
    the covered sources.  Every node carries a [startPos] and an [endPos];
    the compiler only copies them onto the instructions it produces. *)
Record Position := mkPosition { posLine : nat; posColumn : nat }.

(** ** Types of values ([value.js])

    [cases] is a dictionary from constructor names to dictionaries from field
    names to types. *)
Inductive ValueType : Type :=
| TypeAny
| TypeInteger
| TypeString
| TypeTuple (componentTypes : list ValueType)
| TypeList (contentType : ValueType)
| TypeStructure (typeName : string) (cases : gmap string (gmap string ValueType)).

(** ** Instructions

    Modelled from the spec: the instruction classes and the class [Code] are
    imported by the compiler from a module outside the covered sources; the
    variants and their operands are those of the instruction table.  An
    instruction object is created without positions, and [_produce] sets
    them: [Opcode] is the object as created, [Instruction] the object once
    produced. *)
Inductive Opcode : Type :=
| IPushInteger (number : Z)
| IPushString (str : string)
| IPushVariable (variableName : string)
| ISetVariable (variableName : string)
| IUnsetVariable (variableName : string)
| ILabel (label : string)
| IJump (targetLabel : string)
| IJumpIfFalse (targetLabel : string)
| IJumpIfStructure (constructorName : string) (targetLabel : string)
| IJumpIfTuple (size : nat) (targetLabel : string)
| ICall (targetLabel : string) (nargs : nat)
| IReturn
| IMakeTuple (size : nat)
| IMakeList (size : nat)
| IMakeStructure (typeName constructorName : string) (fieldNames : list string)
| IUpdateStructure (typeName constructorName : string) (fieldNames : list string)
| IReadTupleComponent (index : nat)
| IReadStructureField (fieldName : string)
| IAdd
| IDup
| IPop
| IPrimitiveCall (primitiveName : string) (nargs : nat)
| ISaveState
| IRestoreState
| ITypeCheck (type : ValueType).

Record Instruction := mkInstruction {
  opcode : Opcode;
  startPos : Position;
  endPos : Position
}.

(** [Code]: an ordered sequence of instructions; [produce] appends. *)
Definition Code := list Instruction.

Definition Code_produce (code : Code) (instruction : Instruction) : Code :=
  code ++ [instruction].

(** ** Abstract syntax

    Modelled from the spec: the node classes are declared with the parser,
    outside the covered sources.  The constructors are the node tags the
    compiler imports, with the fields the compiler reads.  A field that holds
    a token ([variable.value], [number.value], ...) is represented by the
    value of the token.  The tags are a closed type here, so the [default]
    branches of the three dispatchers, reached only with a foreign tag, have
    no counterpart. *)
Inductive Pattern : Type :=
| PatternWildcard (startPos endPos : Position)
| PatternStructure (startPos endPos : Position)
    (constructorName : string) (parameters : list string)
| PatternTuple (startPos endPos : Position) (parameters : list string)
| PatternTimeout (startPos endPos : Position).

Inductive Expression : Type :=
| ExprVariable (startPos endPos : Position) (variableName : string)
| ExprConstantNumber (startPos endPos : Position) (number : Z)
| ExprConstantString (startPos endPos : Position) (str : string)
| ExprList (startPos endPos : Position) (elements : list Expression)
| ExprRange (startPos endPos : Position)
    (first : Expression) (second : option Expression) (last : Expression)
| ExprTuple (startPos endPos : Position) (elements : list Expression)
| ExprStructure (startPos endPos : Position)
    (constructorName : string) (fieldBindings : list FieldValue)
| ExprStructureUpdate (startPos endPos : Position)
    (constructorName : string) (original : Expression)
    (fieldBindings : list FieldValue)
| ExprFunctionCall (startPos endPos : Position)
    (functionName : string) (args : list Expression)
with FieldValue : Type :=
| FieldValueNode (startPos endPos : Position)
    (fieldName : string) (value : Expression).

Inductive Statement : Type :=
| StmtBlock (startPos endPos : Position) (statements : list Statement)
| StmtReturn (startPos endPos : Position) (result : Expression)
| StmtIf (startPos endPos : Position) (condition : Expression)
    (thenBlock : Statement) (elseBlock : option Statement)
| StmtRepeat (startPos endPos : Position) (times : Expression)
    (body : Statement)
| StmtForeach (startPos endPos : Position) (index : string)
    (range : Expression) (body : Statement)
| StmtWhile (startPos endPos : Position) (condition : Expression)
    (body : Statement)
| StmtSwitch (startPos endPos : Position) (subject : Expression)
    (branches : list SwitchBranch)
| StmtAssignVariable (startPos endPos : Position) (variable : string)
    (value : Expression)
| StmtAssignTuple (startPos endPos : Position) (variables : list string)
    (value : Expression)
| StmtProcedureCall (startPos endPos : Position) (procedureName : string)
    (args : list Expression)
with SwitchBranch : Type :=
| SwitchBranchNode (startPos endPos : Position)
    (pattern : Pattern) (body : Statement).

Record ConstructorDeclaration := mkConstructorDeclaration {
  cd_startPos : Position;
  cd_endPos : Position;
  cd_constructorName : string;
  cd_fieldNames : list string
}.

Inductive Def : Type :=
| DefProgram (startPos endPos : Position) (body : Statement)
| DefInteractiveProgram (startPos endPos : Position)
    (branches : list SwitchBranch)
| DefProcedure (startPos endPos : Position) (name : string)
    (parameters : list string) (body : Statement)
| DefFunction (startPos endPos : Position) (name : string)
    (parameters : list string) (body : Statement)
| DefType (startPos endPos : Position) (typeName : string)
    (constructorDeclarations : list ConstructorDeclaration).

Inductive Main : Type :=
| MainNode (startPos endPos : Position) (definitions : list Def).

Definition Expression_startPos (e : Expression) : Position :=
  match e with
  | ExprVariable sp _ _ | ExprConstantNumber sp _ _
  | ExprConstantString sp _ _ | ExprList sp _ _ | ExprRange sp _ _ _ _
  | ExprTuple sp _ _ | ExprStructure sp _ _ _
  | ExprStructureUpdate sp _ _ _ _ | ExprFunctionCall sp _ _ _ => sp
  end.

Definition Expression_endPos (e : Expression) : Position :=
  match e with
  | ExprVariable _ ep _ | ExprConstantNumber _ ep _
  | ExprConstantString _ ep _ | ExprList _ ep _ | ExprRange _ ep _ _ _
  | ExprTuple _ ep _ | ExprStructure _ ep _ _
  | ExprStructureUpdate _ ep _ _ _ | ExprFunctionCall _ ep _ _ => ep
  end.

Definition Pattern_startPos (p : Pattern) : Position :=
  match p with
  | PatternWildcard sp _ | PatternStructure sp _ _ _
  | PatternTuple sp _ _ | PatternTimeout sp _ => sp
  end.

Definition Pattern_endPos (p : Pattern) : Position :=
  match p with
  | PatternWildcard _ ep | PatternStructure _ ep _ _
  | PatternTuple _ ep _ | PatternTimeout _ ep => ep
  end.

Definition SwitchBranch_pattern (b : SwitchBranch) : Pattern :=
  match b with SwitchBranchNode _ _ p _ => p end.

Definition SwitchBranch_body (b : SwitchBranch) : Statement :=
  match b with SwitchBranchNode _ _ _ s => s end.

Definition SwitchBranch_startPos (b : SwitchBranch) : Position :=
  match b with SwitchBranchNode sp _ _ _ => sp end.

Definition SwitchBranch_endPos (b : SwitchBranch) : Position :=
  match b with SwitchBranchNode _ ep _ _ => ep end.

(** ** Exceptions

    [Error], [ReferenceError] and [TypeError] are the exceptions of the
    language.  [InheritedProperty name] is no exception of the code: it
    marks the point where a lookup of the symbol table finds, under a name
    the table does not hold, the property [name] that every object inherits
    from [Object.prototype], and the code goes on with that function in
    place of a type name or of a list of field names.  The model has no
    such values and stops there: an outcome [inl (InheritedProperty name)]
    says nothing of what the code does next. *)
Inductive Exception : Type :=
| Error (message : string)
| ReferenceError (message : string)
| TypeError (message : string)
| InheritedProperty (name : string).

(** ** The symbol table ([symtable.js]) *)
Record FieldDescriptor := mkFieldDescriptor {
  fd_typeName : string;
  fd_constructorName : string;
  fd_index : nat
}.

Record SymbolTable := mkSymbolTable {
  _program : option Def;
  _procedures : gmap string Def;
  _functions : gmap string Def;
  _types : gmap string Def;
  _typeConstructors : gmap string (list string);
  _constructors : gmap string ConstructorDeclaration;
  _constructorType : gmap string string;
  _constructorFields : gmap string (list string);
  _fields : gmap string (list FieldDescriptor)
}.

Definition SymbolTable_new : SymbolTable :=
  {| _program := None; _procedures := ∅; _functions := ∅; _types := ∅;
     _typeConstructors := ∅; _constructors := ∅; _constructorType := ∅;
     _constructorFields := ∅; _fields := ∅ |}.

(** The dictionaries of the table are plain objects, and
    [name in dictionary] also finds the properties every object inherits
    from [Object.prototype].

    Modelled from the language: the properties of [Object.prototype]. *)
Definition objectPrototypeKeys : list string :=
  ["constructor"; "hasOwnProperty"; "isPrototypeOf"; "propertyIsEnumerable";
   "toLocaleString"; "toString"; "valueOf"; "__proto__";
   "__defineGetter__"; "__defineSetter__"; "__lookupGetter__";
   "__lookupSetter__"].

Definition inherited (name : string) : bool :=
  bool_decide (name ∈ objectPrototypeKeys).

(** [constructorType] and [constructorFields] return [dictionary[name]] when
    [name in dictionary], and throw otherwise.  A name the table holds gives
    its value; a name it does not hold is still [in] the dictionary when it
    is a property of [Object.prototype], and the inherited function is
    returned: the outcome [InheritedProperty]. *)
Definition constructorType (symtable : SymbolTable) (name : string)
  : Exception + string :=
  match _constructorType symtable !! name with
  | Some typeName => inr typeName
  | None =>
      if inherited name then inl (InheritedProperty name)
      else inl (Error "Undefined constructor.")
  end.

Definition constructorFields (symtable : SymbolTable) (name : string)
  : Exception + list string :=
  match _constructorFields symtable !! name with
  | Some fieldNames => inr fieldNames
  | None =>
      if inherited name then inl (InheritedProperty name)
      else inl (Error "Undefined constructor.")
  end.

(** The compiler calls [isFunction] and [isField] on the symbol table, and
    the class [SymbolTable] defines neither: the call of a method that does
    not exist throws a [TypeError], once its arguments are evaluated. *)
Definition notAFunction (callee : string) : Exception :=
  TypeError (callee +:+ " is not a function").

(** ** The catalog of runtime primitives

    Modelled from the spec: the class [RuntimePrimitives] is outside the
    covered sources; the compiler asks it whether a name is a primitive
    procedure and whether it is a primitive function. *)
Record RuntimePrimitives := mkRuntimePrimitives {
  isProcedure : string → bool;
  isFunction : string → bool
}.

(** ** The compiler object and its monad *)
Record Compiler := mkCompiler {
  _symtable : SymbolTable;
  _code : Code;
  _nextLabel : nat;
  _nextVariable : nat;
  _primitives : RuntimePrimitives
}.

(** A method run on a compiler either throws, or returns a value and leaves
    the compiler in a new state. *)
Definition M (A : Type) : Type := Compiler → Exception + (A * Compiler).

Definition ret {A : Type} (a : A) : M A := λ c, inr (a, c).

Definition throw {A : Type} (e : Exception) : M A := λ _, inl e.

Definition bind {A B : Type} (m : M A) (k : A → M B) : M B :=
  λ c, match m c with
       | inl e => inl e
       | inr (a, c') => k a c'
       end.

Notation "'do' x <- m ; k" := (bind m (λ x, k))
  (at level 10, x name, m at level 100, k at level 200, only parsing).

Definition gets {A : Type} (f : Compiler → A) : M A := λ c, inr (f c, c).

Definition lift {A : Type} (r : Exception + A) : M A :=
  λ c, match r with
       | inl e => inl e
       | inr a => inr (a, c)
       end.

(** [for (let x of xs) { f(x) }] *)
Definition forOf {A : Type} (f : A → M unit) : list A → M unit :=
  fix loop (xs : list A) : M unit :=
    match xs with
    | [] => ret tt
    | x :: xs' => do _ <- f x; loop xs'
    end.

(** [for (let i = i0; ...; i++) { f(i, xs[i - i0]) }], one round per element
    of [xs]. *)
Definition forIndexed {A : Type} (f : nat → A → M unit)
  : nat → list A → M unit :=
  fix loop (i : nat) (xs : list A) : M unit :=
    match xs with
    | [] => ret tt
    | x :: xs' => do _ <- f i x; loop (S i) xs'
    end.

(** A [for ... of] loop whose body pushes one result on an array. *)
Definition forOfPush {A B : Type} (f : A → M B) : list A → list B → M (list B) :=
  fix loop (xs : list A) (acc : list B) : M (list B) :=
    match xs with
    | [] => ret acc
    | x :: xs' => do b <- f x; loop xs' (acc ++ [b])
    end.

Section Compiler.

(** The message catalog and the catalog [new RuntimePrimitives()] builds are
    outside the covered sources: the development is parametric in them. *)
Variable i18n : string → string.
Variable RuntimePrimitives_new : RuntimePrimitives.

Definition Compiler_new (symtable : SymbolTable) : Compiler :=
  {| _symtable := symtable;
     _code := [];
     _nextLabel := 0;
     _nextVariable := 0;
     _primitives := RuntimePrimitives_new |}.

(** *** Helpers *)

Definition _produce (startPos endPos : Position) (instruction : Opcode)
  : M unit :=
  λ c, inr (tt,
    {| _symtable := _symtable c;
       _code := Code_produce (_code c)
                  (mkInstruction instruction startPos endPos);
       _nextLabel := _nextLabel c;
       _nextVariable := _nextVariable c;
       _primitives := _primitives c |}).

Definition _produceList (startPos endPos : Position)
  (instructions : list Opcode) : M unit :=
  forOf (_produce startPos endPos) instructions.

(** [toString] of a counter is its decimal numeral.  The counters are natural
    numbers: a compilation does not reach the precision limit of a
    JavaScript number. *)
Definition _freshLabel : M string :=
  λ c, inr ("_l" +:+ pretty (_nextLabel c),
    {| _symtable := _symtable c;
       _code := _code c;
       _nextLabel := S (_nextLabel c);
       _nextVariable := _nextVariable c;
       _primitives := _primitives c |}).

Definition _freshVariable : M string :=
  λ c, inr ("_v" +:+ pretty (_nextVariable c),
    {| _symtable := _symtable c;
       _code := _code c;
       _nextLabel := _nextLabel c;
       _nextVariable := S (_nextVariable c);
       _primitives := _primitives c |}).

(** *** Expressions *)

Definition _compileExprVariable (startPos endPos : Position)
  (variableName : string) : M unit :=
  _produce startPos endPos (IPushVariable variableName).

Definition _compileExprConstantNumber (startPos endPos : Position)
  (number : Z) : M unit :=
  _produce startPos endPos (IPushInteger number).

Definition _compileExprConstantString (startPos endPos : Position)
  (str : string) : M unit :=
  _produce startPos endPos (IPushString str).

(** The methods that compile sub-expressions take the dispatcher
    [_compileExpression] as [rec]; the dispatcher below ties the knot. *)
Definition _compileExprList (rec : Expression → M unit)
  (startPos endPos : Position) (elements : list Expression) : M unit :=
  do _ <- forOf rec elements;
  _produce startPos endPos (IMakeList (length elements)).

Definition _compileExprTuple (rec : Expression → M unit)
  (startPos endPos : Position) (elements : list Expression) : M unit :=
  do _ <- forOf rec elements;
  _produce startPos endPos (IMakeTuple (length elements)).

Definition _compileExprStructure (rec : Expression → M unit)
  (startPos endPos : Position) (constructorName : string)
  (fieldBindings : list FieldValue) : M unit :=
  do fieldNames <-
    forOfPush
      (λ fieldBinding,
         match fieldBinding with
         | FieldValueNode _ _ fieldName value =>
             do _ <- rec value; ret fieldName
         end)
      fieldBindings [];
  do symtable <- gets _symtable;
  do typeName <- lift (constructorType symtable constructorName);
  _produce startPos endPos
    (IMakeStructure typeName constructorName fieldNames).

Definition _compileExprFunctionCallPrimitive (startPos endPos : Position)
  (functionName : string) (args : list Expression) : M unit :=
  _produce startPos endPos (IPrimitiveCall functionName (length args)).

Definition _compileExprFunctionCall (rec : Expression → M unit)
  (startPos endPos : Position) (functionName : string)
  (args : list Expression) : M unit :=
  if bool_decide (functionName = "&&") || bool_decide (functionName = "||")
  then throw (Error "short-circuiting not implemented")
  else
    do _ <- forOf rec args;
    do primitives <- gets _primitives;
    if isFunction primitives functionName then
      _compileExprFunctionCallPrimitive startPos endPos functionName args
    else
      do isUserDefined <-
        throw (A := bool) (notAFunction "this._symtable.isFunction");
      if isUserDefined then
        throw (Error "calling a user-defined function not implemented")
      else
        do isField <-
          throw (A := bool) (notAFunction "this._symtable.isField");
        if isField then throw (Error "accessing a field not implemented")
        else
          throw (Error
            ("Compiler: " +:+ functionName +:+ " is an undefined function.")).

(** The cases [N_ExprRange] and [N_ExprStructureUpdate] leave the [switch]
    by [break]: the method returns and nothing is produced. *)
Fixpoint _compileExpression (expression : Expression) : M unit :=
  match expression with
  | ExprVariable sp ep variableName =>
      _compileExprVariable sp ep variableName
  | ExprConstantNumber sp ep number =>
      _compileExprConstantNumber sp ep number
  | ExprConstantString sp ep str =>
      _compileExprConstantString sp ep str
  | ExprList sp ep elements =>
      _compileExprList _compileExpression sp ep elements
  | ExprRange _ _ _ _ _ =>
      ret tt
  | ExprTuple sp ep elements =>
      _compileExprTuple _compileExpression sp ep elements
  | ExprStructure sp ep constructorName fieldBindings =>
      _compileExprStructure _compileExpression sp ep
        constructorName fieldBindings
  | ExprStructureUpdate _ _ _ _ _ =>
      ret tt
  | ExprFunctionCall sp ep functionName args =>
      _compileExprFunctionCall _compileExpression sp ep functionName args
  end.

(** *** Patterns *)

Definition _compilePatternCheckWildcard (pattern : Pattern)
  (targetLabel : string) : M unit :=
  _produce (Pattern_startPos pattern) (Pattern_endPos pattern)
    (IJump targetLabel).

Definition _compilePatternCheckStructure (pattern : Pattern)
  (constructorName : string) (targetLabel : string) : M unit :=
  do symtable <- gets _symtable;
  do typeName <- lift (constructorType symtable constructorName);
  let expectedType := TypeStructure typeName ∅ in
  do _ <- _produce (Pattern_startPos pattern) (Pattern_endPos pattern)
            (ITypeCheck expectedType);
  _produce (Pattern_startPos pattern) (Pattern_endPos pattern)
    (IJumpIfStructure constructorName targetLabel).

Definition _compilePatternCheckTuple (pattern : Pattern)
  (parameters : list string) (targetLabel : string) : M unit :=
  let anys := replicate (length parameters) TypeAny in
  let expectedType := TypeTuple anys in
  do _ <- _produce (Pattern_startPos pattern) (Pattern_endPos pattern)
            (ITypeCheck expectedType);
  _produce (Pattern_startPos pattern) (Pattern_endPos pattern)
    (IJumpIfTuple (length parameters) targetLabel).

Definition _compilePatternCheckTimeout (pattern : Pattern)
  (targetLabel : string) : M unit :=
  _produce (Pattern_startPos pattern) (Pattern_endPos pattern)
    (IJumpIfStructure (i18n "CONS:TIMEOUT") targetLabel).

Definition _compilePatternCheck (pattern : Pattern) (targetLabel : string)
  : M unit :=
  match pattern with
  | PatternWildcard _ _ =>
      _compilePatternCheckWildcard pattern targetLabel
  | PatternStructure _ _ constructorName _ =>
      _compilePatternCheckStructure pattern constructorName targetLabel
  | PatternTuple _ _ parameters =>
      _compilePatternCheckTuple pattern parameters targetLabel
  | PatternTimeout _ _ =>
      _compilePatternCheckTimeout pattern targetLabel
  end.

(** The loop runs over the field names of the constructor and reads
    [pattern.parameters[i]]: beyond the end of the parameters this is
    [undefined], and reading its [value] throws. *)
Definition _compilePatternBindStructure (pattern : Pattern)
  (constructorName : string) (parameters : list string) : M unit :=
  if bool_decide (length parameters = 0) then ret tt
  else
    do symtable <- gets _symtable;
    do fieldNames <- lift (constructorFields symtable constructorName);
    forIndexed
      (λ i fieldName,
         match parameters !! i with
         | Some parameter =>
             _produceList (Pattern_startPos pattern) (Pattern_endPos pattern)
               [IReadStructureField fieldName; ISetVariable parameter]
         | None =>
             throw (TypeError
               "Cannot read properties of undefined (reading 'value')")
         end)
      0 fieldNames.

Definition _compilePatternBindTuple (pattern : Pattern)
  (parameters : list string) : M unit :=
  forIndexed
    (λ index parameter,
       _produceList (Pattern_startPos pattern) (Pattern_endPos pattern)
         [IReadTupleComponent index; ISetVariable parameter])
    0 parameters.

Definition _compilePatternBind (pattern : Pattern) : M unit :=
  match pattern with
  | PatternWildcard _ _ => ret tt
  | PatternStructure _ _ constructorName parameters =>
      _compilePatternBindStructure pattern constructorName parameters
  | PatternTuple _ _ parameters =>
      _compilePatternBindTuple pattern parameters
  | PatternTimeout _ _ => ret tt
  end.

Definition _compilePatternUnbindStructure (pattern : Pattern)
  (parameters : list string) : M unit :=
  forOf
    (λ parameter,
       _produceList (Pattern_startPos pattern) (Pattern_endPos pattern)
         [IUnsetVariable parameter])
    parameters.

Definition _compilePatternUnbindTuple (pattern : Pattern)
  (parameters : list string) : M unit :=
  forOf
    (λ parameter,
       _produceList (Pattern_startPos pattern) (Pattern_endPos pattern)
         [IUnsetVariable parameter])
    parameters.

Definition _compilePatternUnbind (pattern : Pattern) : M unit :=
  match pattern with
  | PatternWildcard _ _ => ret tt
  | PatternStructure _ _ _ parameters =>
      _compilePatternUnbindStructure pattern parameters
  | PatternTuple _ _ parameters =>
      _compilePatternUnbindTuple pattern parameters
  | PatternTimeout _ _ => ret tt
  end.

(** *** Statements *)

Definition _compileStmtBlock (rec : Statement → M unit)
  (statements : list Statement) : M unit :=
  forOf rec statements.

Definition _compileStmtReturn (result : Expression) : M unit :=
  _compileExpression result.

Definition _compileStmtIf (rec : Statement → M unit)
  (startPos endPos : Position) (condition : Expression)
  (thenBlock : Statement) (elseBlock : option Statement) : M unit :=
  do _ <- _compileExpression condition;
  do _ <- _produce (Expression_startPos condition) (Expression_endPos condition)
            (ITypeCheck (TypeStructure (i18n "TYPE:Bool") ∅));
  do labelElse <- _freshLabel;
  do _ <- _produce startPos endPos (IJumpIfFalse labelElse);
  do _ <- rec thenBlock;
  match elseBlock with
  | None => _produce startPos endPos (ILabel labelElse)
  | Some elseBlock =>
      do labelEnd <- _freshLabel;
      do _ <- _produceList startPos endPos
                [IJump labelEnd; ILabel labelElse];
      do _ <- rec elseBlock;
      _produce startPos endPos (ILabel labelEnd)
  end.

Definition _compileStmtRepeat (rec : Statement → M unit)
  (startPos endPos : Position) (times : Expression) (body : Statement)
  : M unit :=
  do _ <- _compileExpression times;
  do _ <- _produce (Expression_startPos times) (Expression_endPos times)
            (ITypeCheck TypeInteger);
  do labelStart <- _freshLabel;
  do labelEnd <- _freshLabel;
  do _ <- _produceList startPos endPos
            [ILabel labelStart;
             IDup;
             IPushInteger 0;
             IPrimitiveCall ">" 2;
             IJumpIfFalse labelEnd];
  do _ <- rec body;
  _produceList startPos endPos
    [IPushInteger 1;
     IPrimitiveCall "-" 2;
     IJump labelStart;
     ILabel labelEnd;
     IPop].

Definition _compileStmtForeach (rec : Statement → M unit)
  (startPos endPos : Position) (index : string) (range : Expression)
  (body : Statement) : M unit :=
  do labelStart <- _freshLabel;
  do labelEnd <- _freshLabel;
  do list <- _freshVariable;
  do pos <- _freshVariable;
  do n <- _freshVariable;
  do _ <- _compileExpression range;
  do _ <- _produceList (Expression_startPos range) (Expression_endPos range)
            [ITypeCheck (TypeList TypeAny);
             ISetVariable list;
             IPushVariable list;
             IPrimitiveCall "_unsafeListLength" 1;
             ISetVariable n];
  do _ <- _produceList startPos endPos
            [IPushInteger 0;
             ISetVariable pos;
             ILabel labelStart;
             IPushVariable pos;
             IPushVariable n;
             IPrimitiveCall "<" 2;
             IJumpIfFalse labelEnd;
             IPushVariable list;
             IPushVariable pos;
             IPrimitiveCall "_unsafeListNth" 2;
             ISetVariable index];
  do _ <- rec body;
  _produceList startPos endPos
    [IPushVariable pos;
     IPushInteger 1;
     IPrimitiveCall "+" 2;
     ISetVariable pos;
     IJump labelStart;
     ILabel labelEnd;
     IUnsetVariable list;
     IUnsetVariable n;
     IUnsetVariable pos;
     IUnsetVariable index].

Definition _compileStmtWhile (rec : Statement → M unit)
  (startPos endPos : Position) (condition : Expression) (body : Statement)
  : M unit :=
  do labelStart <- _freshLabel;
  do labelEnd <- _freshLabel;
  do _ <- _produce startPos endPos (ILabel labelStart);
  do _ <- _compileExpression condition;
  do _ <- _produceList startPos endPos
            [ITypeCheck (TypeStructure (i18n "TYPE:Bool") ∅);
             IJumpIfFalse labelEnd];
  do _ <- rec body;
  _produceList startPos endPos
    [IJump labelStart;
     ILabel labelEnd].

(** The second loop of the switch runs [i] from [0] to
    [branchLabels.length], which is the number of branches, as the first loop
    pushed one label per branch; it reads [statement.branches[i]] and
    [branchLabels[i]]. *)
Definition _compileStmtSwitch (rec : Statement → M unit)
  (startPos endPos : Position) (subject : Expression)
  (branches : list SwitchBranch) : M unit :=
  do _ <- _compileExpression subject;
  do branchLabels <-
    forOfPush
      (λ branch,
         do label <- _freshLabel;
         do _ <- _compilePatternCheck (SwitchBranch_pattern branch) label;
         ret label)
      branches [];
  do _ <- _produceList startPos endPos
            [IPushString (i18n "errmsg:switch-does-not-match");
             IPrimitiveCall "_FAIL" 1];
  do labelEnd <- _freshLabel;
  do _ <-
    forIndexed
      (λ i branch,
         match branch with
         | SwitchBranchNode bsp bep pattern body =>
             match branchLabels !! i with
             | Some label =>
                 do _ <- _produce bsp bep (ILabel label);
                 do _ <- _compilePatternBind pattern;
                 do _ <- _produce bsp bep IPop;
                 do _ <- rec body;
                 do _ <- _compilePatternUnbind pattern;
                 _produce bsp bep (IJump labelEnd)
             | None =>
                 throw (TypeError "branchLabels[i] is undefined")
             end
         end)
      0 branches;
  _produce startPos endPos (ILabel labelEnd).

Definition _compileStmtAssignVariable (startPos endPos : Position)
  (variable : string) (value : Expression) : M unit :=
  do _ <- _compileExpression value;
  _produce startPos endPos (ISetVariable variable).

Definition _compileStmtAssignTuple (startPos endPos : Position)
  (variables : list string) (value : Expression) : M unit :=
  do _ <- _compileExpression value;
  let anys := replicate (length variables) TypeAny in
  let expectedType := TypeTuple anys in
  do _ <- _produce startPos endPos (ITypeCheck expectedType);
  do _ <-
    forIndexed
      (λ index variable,
         _produceList startPos endPos
           [IReadTupleComponent index; ISetVariable variable])
      0 variables;
  _produce startPos endPos IPop.

Definition _compileStmtProcedureCallPrimitive (startPos endPos : Position)
  (procedureName : string) (args : list Expression) : M unit :=
  _produce startPos endPos (IPrimitiveCall procedureName (length args)).

(** When the procedure is not a primitive, the method evaluates
    [this._symtable.isFunction(functionName)].  No [functionName] is bound in
    this method (the local is [procedureName]), so evaluating the argument
    throws a [ReferenceError]; the two branches behind the test are kept as
    the source has them. *)
Definition _compileStmtProcedureCall (startPos endPos : Position)
  (procedureName : string) (args : list Expression) : M unit :=
  do _ <- forOf _compileExpression args;
  do primitives <- gets _primitives;
  if isProcedure primitives procedureName then
    _compileStmtProcedureCallPrimitive startPos endPos procedureName args
  else
    do isUserDefined <-
      throw (A := bool) (ReferenceError "functionName is not defined");
    if isUserDefined then
      throw (Error "calling a user-defined procedure not implemented")
    else
      throw (Error
        ("Compiler: " +:+ procedureName +:+ " is an undefined procedure.")).

Fixpoint _compileStatement (statement : Statement) : M unit :=
  match statement with
  | StmtBlock _ _ statements =>
      _compileStmtBlock _compileStatement statements
  | StmtReturn _ _ result =>
      _compileStmtReturn result
  | StmtIf sp ep condition thenBlock elseBlock =>
      _compileStmtIf _compileStatement sp ep condition thenBlock elseBlock
  | StmtRepeat sp ep times body =>
      _compileStmtRepeat _compileStatement sp ep times body
  | StmtForeach sp ep index range body =>
      _compileStmtForeach _compileStatement sp ep index range body
  | StmtWhile sp ep condition body =>
      _compileStmtWhile _compileStatement sp ep condition body
  | StmtSwitch sp ep subject branches =>
      _compileStmtSwitch _compileStatement sp ep subject branches
  | StmtAssignVariable sp ep variable value =>
      _compileStmtAssignVariable sp ep variable value
  | StmtAssignTuple sp ep variables value =>
      _compileStmtAssignTuple sp ep variables value
  | StmtProcedureCall sp ep procedureName args =>
      _compileStmtProcedureCall sp ep procedureName args
  end.

(** *** The top level *)

Definition _compileProgram (startPos endPos : Position) (body : Statement)
  : M unit :=
  do _ <- _compileStatement body;
  _produce startPos endPos IReturn.

Definition _compileInteractiveProgram (definition : Def) : M unit := ret tt.

Definition _compileProcedure (definition : Def) : M unit := ret tt.

Definition _compileFunction (definition : Def) : M unit := ret tt.

Definition _compileMain (ast : Main) : M unit :=
  match ast with
  | MainNode startPos endPos definitions =>
      if bool_decide (length definitions = 0) then
        _produce startPos endPos IReturn
      else
        do _ <-
          forOf
            (λ definition,
               match definition with
               | DefProgram sp ep body => _compileProgram sp ep body
               | DefInteractiveProgram _ _ _ =>
                   _compileInteractiveProgram definition
               | _ => ret tt
               end)
            definitions;
        forOf
          (λ definition,
             match definition with
             | DefProcedure _ _ _ _ _ => _compileProcedure definition
             | DefFunction _ _ _ _ _ => _compileFunction definition
             | _ => ret tt
             end)
          definitions
  end.

Definition compile (ast : Main) : M Code :=
  do _ <- _compileMain ast;
  gets _code.

(** [new Compiler(symtable).compile(ast)]: the code returned, or the
    exception thrown. *)
Definition compileFresh (symtable : SymbolTable) (ast : Main)
  : Exception + Code :=
  match compile ast (Compiler_new symtable) with
  | inl e => inl e
  | inr (code, _) => inr code
  end.

End Compiler.

(** * The emitted sequence as a function of the node

    The lowerings below give, for each node, the sequence the compiler
    appends, as a function of the node, of the symbol table and of the two
    counters at the moment the node is reached.  They follow the lowering
    templates of the compiler, one per construct; the refinement lemmas
    ([compileExpression_lower], [compileStatement_lower]) prove that a method
    that returns has appended exactly this sequence and advanced the counters
    by [labelCount] and [variableCount]. *)

Definition positioned (startPos endPos : Position) (instructions : list Opcode)
  : Code :=
  map (λ instruction, mkInstruction instruction startPos endPos) instructions.

Definition freshLabelName (n : nat) : string := "_l" +:+ pretty n.

Definition freshVariableName (n : nat) : string := "_v" +:+ pretty n.

(** The state a method leaves: [out] appended, the counters advanced. *)
Definition advance (c : Compiler) (out : Code) (labels variables : nat)
  : Compiler :=
  {| _symtable := _symtable c;
     _code := _code c ++ out;
     _nextLabel := _nextLabel c + labels;
     _nextVariable := _nextVariable c + variables;
     _primitives := _primitives c |}.

Definition typeOfConstructor (symtable : SymbolTable) (name : string)
  : string :=
  default "" (_constructorType symtable !! name).

Definition fieldsOfConstructor (symtable : SymbolTable) (name : string)
  : list string :=
  default [] (_constructorFields symtable !! name).

Definition FieldValue_fieldName (fb : FieldValue) : string :=
  match fb with FieldValueNode _ _ fieldName _ => fieldName end.

(** Sequences lowered one after the other, the counters running through. *)
Definition lowerEach {A : Type} (lower : nat → A → nat → nat → Code)
  (labels variables : A → nat) : nat → list A → nat → nat → Code :=
  fix go (i : nat) (xs : list A) (nl nv : nat) : Code :=
    match xs with
    | [] => []
    | x :: xs' =>
        lower i x nl nv ++ go (S i) xs' (nl + labels x) (nv + variables x)
    end.

Section Lowering.

Variable i18n : string → string.
Variable symtable : SymbolTable.

Fixpoint lowerExpression (e : Expression) : Code :=
  match e with
  | ExprVariable sp ep variableName =>
      positioned sp ep [IPushVariable variableName]
  | ExprConstantNumber sp ep number =>
      positioned sp ep [IPushInteger number]
  | ExprConstantString sp ep str =>
      positioned sp ep [IPushString str]
  | ExprList sp ep elements =>
      concat (map lowerExpression elements)
      ++ positioned sp ep [IMakeList (length elements)]
  | ExprRange _ _ _ _ _ => []
  | ExprTuple sp ep elements =>
      concat (map lowerExpression elements)
      ++ positioned sp ep [IMakeTuple (length elements)]
  | ExprStructure sp ep constructorName fieldBindings =>
      concat (map (λ fb, match fb with
                         | FieldValueNode _ _ _ value => lowerExpression value
                         end) fieldBindings)
      ++ positioned sp ep
           [IMakeStructure (typeOfConstructor symtable constructorName)
              constructorName (map FieldValue_fieldName fieldBindings)]
  | ExprStructureUpdate _ _ _ _ _ => []
  | ExprFunctionCall sp ep functionName args =>
      concat (map lowerExpression args)
      ++ positioned sp ep [IPrimitiveCall functionName (length args)]
  end.

Definition lowerPatternCheck (pattern : Pattern) (targetLabel : string)
  : Code :=
  let here := positioned (Pattern_startPos pattern) (Pattern_endPos pattern) in
  match pattern with
  | PatternWildcard _ _ => here [IJump targetLabel]
  | PatternStructure _ _ constructorName _ =>
      here [ITypeCheck
              (TypeStructure (typeOfConstructor symtable constructorName) ∅);
            IJumpIfStructure constructorName targetLabel]
  | PatternTuple _ _ parameters =>
      here [ITypeCheck (TypeTuple (replicate (length parameters) TypeAny));
            IJumpIfTuple (length parameters) targetLabel]
  | PatternTimeout _ _ =>
      here [IJumpIfStructure (i18n "CONS:TIMEOUT") targetLabel]
  end.

Definition lowerPatternBind (pattern : Pattern) : Code :=
  let here := positioned (Pattern_startPos pattern) (Pattern_endPos pattern) in
  match pattern with
  | PatternWildcard _ _ => []
  | PatternStructure _ _ constructorName parameters =>
      concat (zip_with
                (λ fieldName parameter,
                   here [IReadStructureField fieldName; ISetVariable parameter])
                (fieldsOfConstructor symtable constructorName) parameters)
  | PatternTuple _ _ parameters =>
      concat (imap
                (λ index parameter,
                   here [IReadTupleComponent index; ISetVariable parameter])
                parameters)
  | PatternTimeout _ _ => []
  end.

Definition lowerPatternUnbind (pattern : Pattern) : Code :=
  let here := positioned (Pattern_startPos pattern) (Pattern_endPos pattern) in
  match pattern with
  | PatternWildcard _ _ => []
  | PatternStructure _ _ _ parameters
  | PatternTuple _ _ parameters =>
      concat (map (λ parameter, here [IUnsetVariable parameter]) parameters)
  | PatternTimeout _ _ => []
  end.

Fixpoint labelCount (s : Statement) : nat :=
  match s with
  | StmtBlock _ _ statements => sum_list (map labelCount statements)
  | StmtIf _ _ _ thenBlock None => 1 + labelCount thenBlock
  | StmtIf _ _ _ thenBlock (Some elseBlock) =>
      2 + labelCount thenBlock + labelCount elseBlock
  | StmtRepeat _ _ _ body
  | StmtForeach _ _ _ _ body
  | StmtWhile _ _ _ body => 2 + labelCount body
  | StmtSwitch _ _ _ branches =>
      length branches + 1
      + sum_list (map (λ b, labelCount (SwitchBranch_body b)) branches)
  | _ => 0
  end.

Fixpoint variableCount (s : Statement) : nat :=
  match s with
  | StmtBlock _ _ statements => sum_list (map variableCount statements)
  | StmtIf _ _ _ thenBlock None => variableCount thenBlock
  | StmtIf _ _ _ thenBlock (Some elseBlock) =>
      variableCount thenBlock + variableCount elseBlock
  | StmtRepeat _ _ _ body
  | StmtWhile _ _ _ body => variableCount body
  | StmtForeach _ _ _ _ body => 3 + variableCount body
  | StmtSwitch _ _ _ branches =>
      sum_list (map (λ b, variableCount (SwitchBranch_body b)) branches)
  | _ => 0
  end.

(** The code of one branch of a switch, after the checks: [label] is the
    label of the branch, [labelEnd] the end of the switch, [bodyCode] the
    lowered body. *)
Definition switchBranchCode (label labelEnd : string) (b : SwitchBranch)
  (bodyCode : Code) : Code :=
  let here := positioned (SwitchBranch_startPos b) (SwitchBranch_endPos b) in
  here [ILabel label]
  ++ lowerPatternBind (SwitchBranch_pattern b)
  ++ here [IPop]
  ++ bodyCode
  ++ lowerPatternUnbind (SwitchBranch_pattern b)
  ++ here [IJump labelEnd].

Definition switchFailure (startPos endPos : Position) : Code :=
  positioned startPos endPos
    [IPushString (i18n "errmsg:switch-does-not-match");
     IPrimitiveCall "_FAIL" 1].

Definition repeatHeader (startPos endPos : Position)
  (labelStart labelEnd : string) : Code :=
  positioned startPos endPos
    [ILabel labelStart; IDup; IPushInteger 0; IPrimitiveCall ">" 2;
     IJumpIfFalse labelEnd].

Definition repeatFooter (startPos endPos : Position)
  (labelStart labelEnd : string) : Code :=
  positioned startPos endPos
    [IPushInteger 1; IPrimitiveCall "-" 2; IJump labelStart;
     ILabel labelEnd; IPop].

(** The foreach template, in the names of its three synthetic variables. *)
Definition foreachTemplate (startPos endPos : Position) (index : string)
  (range : Expression) (rangeCode bodyCode : Code)
  (labelStart labelEnd list n pos : string) : Code :=
  rangeCode
  ++ positioned (Expression_startPos range) (Expression_endPos range)
       [ITypeCheck (TypeList TypeAny);
        ISetVariable list;
        IPushVariable list;
        IPrimitiveCall "_unsafeListLength" 1;
        ISetVariable n]
  ++ positioned startPos endPos
       [IPushInteger 0;
        ISetVariable pos;
        ILabel labelStart;
        IPushVariable pos;
        IPushVariable n;
        IPrimitiveCall "<" 2;
        IJumpIfFalse labelEnd;
        IPushVariable list;
        IPushVariable pos;
        IPrimitiveCall "_unsafeListNth" 2;
        ISetVariable index]
  ++ bodyCode
  ++ positioned startPos endPos
       [IPushVariable pos;
        IPushInteger 1;
        IPrimitiveCall "+" 2;
        ISetVariable pos;
        IJump labelStart;
        ILabel labelEnd;
        IUnsetVariable list;
        IUnsetVariable n;
        IUnsetVariable pos;
        IUnsetVariable index].

Definition typeBool : ValueType := TypeStructure (i18n "TYPE:Bool") ∅.

Fixpoint lowerStatement (s : Statement) (nl nv : nat) {struct s} : Code :=
  match s with
  | StmtBlock _ _ statements =>
      lowerEach (λ _ s', lowerStatement s') labelCount variableCount
        0 statements nl nv
  | StmtReturn _ _ result => lowerExpression result
  | StmtIf sp ep condition thenBlock None =>
      lowerExpression condition
      ++ positioned (Expression_startPos condition)
           (Expression_endPos condition) [ITypeCheck typeBool]
      ++ positioned sp ep [IJumpIfFalse (freshLabelName nl)]
      ++ lowerStatement thenBlock (nl + 1) nv
      ++ positioned sp ep [ILabel (freshLabelName nl)]
  | StmtIf sp ep condition thenBlock (Some elseBlock) =>
      let labelElse := freshLabelName nl in
      let labelEnd := freshLabelName (nl + 1 + labelCount thenBlock) in
      lowerExpression condition
      ++ positioned (Expression_startPos condition)
           (Expression_endPos condition) [ITypeCheck typeBool]
      ++ positioned sp ep [IJumpIfFalse labelElse]
      ++ lowerStatement thenBlock (nl + 1) nv
      ++ positioned sp ep [IJump labelEnd; ILabel labelElse]
      ++ lowerStatement elseBlock (nl + 1 + labelCount thenBlock + 1)
           (nv + variableCount thenBlock)
      ++ positioned sp ep [ILabel labelEnd]
  | StmtRepeat sp ep times body =>
      lowerExpression times
      ++ positioned (Expression_startPos times) (Expression_endPos times)
           [ITypeCheck TypeInteger]
      ++ repeatHeader sp ep (freshLabelName nl) (freshLabelName (nl + 1))
      ++ lowerStatement body (nl + 2) nv
      ++ repeatFooter sp ep (freshLabelName nl) (freshLabelName (nl + 1))
  | StmtForeach sp ep index range body =>
      foreachTemplate sp ep index range
        (lowerExpression range) (lowerStatement body (nl + 2) (nv + 3))
        (freshLabelName nl) (freshLabelName (nl + 1))
        (freshVariableName nv) (freshVariableName (nv + 2))
        (freshVariableName (nv + 1))
  | StmtWhile sp ep condition body =>
      positioned sp ep [ILabel (freshLabelName nl)]
      ++ lowerExpression condition
      ++ positioned sp ep
           [ITypeCheck typeBool; IJumpIfFalse (freshLabelName (nl + 1))]
      ++ lowerStatement body (nl + 2) nv
      ++ positioned sp ep
           [IJump (freshLabelName nl); ILabel (freshLabelName (nl + 1))]
  | StmtSwitch sp ep subject branches =>
      let labelEnd := freshLabelName (nl + length branches) in
      lowerExpression subject
      ++ concat (imap (λ i b, lowerPatternCheck (SwitchBranch_pattern b)
                                (freshLabelName (nl + i))) branches)
      ++ switchFailure sp ep
      ++ lowerEach
           (λ i b nl' nv',
              switchBranchCode (freshLabelName (nl + i)) labelEnd b
                (lowerStatement (SwitchBranch_body b) nl' nv'))
           (λ b, labelCount (SwitchBranch_body b))
           (λ b, variableCount (SwitchBranch_body b))
           0 branches (nl + length branches + 1) nv
      ++ positioned sp ep [ILabel labelEnd]
  | StmtAssignVariable sp ep variable value =>
      lowerExpression value ++ positioned sp ep [ISetVariable variable]
  | StmtAssignTuple sp ep variables value =>
      lowerExpression value
      ++ positioned sp ep
           [ITypeCheck (TypeTuple (replicate (length variables) TypeAny))]
      ++ concat (imap (λ index variable,
                         positioned sp ep
                           [IReadTupleComponent index; ISetVariable variable])
                   variables)
      ++ positioned sp ep [IPop]
  | StmtProcedureCall sp ep procedureName args =>
      concat (map lowerExpression args)
      ++ positioned sp ep [IPrimitiveCall procedureName (length args)]
  end.

End Lowering.

(** ** The top level *)

Definition Def_labelCount (d : Def) : nat :=
  match d with
  | DefProgram _ _ body => labelCount body
  | _ => 0
  end.

Definition Def_variableCount (d : Def) : nat :=
  match d with
  | DefProgram _ _ body => variableCount body
  | _ => 0
  end.

Definition lowerDefinition (i18n : string → string) (symtable : SymbolTable)
  (d : Def) (nl nv : nat) : Code :=
  match d with
  | DefProgram sp ep body =>
      lowerStatement i18n symtable body nl nv ++ positioned sp ep [IReturn]
  | _ => []
  end.

Definition lowerMain (i18n : string → string) (symtable : SymbolTable)
  (ast : Main) : Code :=
  match ast with
  | MainNode sp ep definitions =>
      if bool_decide (length definitions = 0) then positioned sp ep [IReturn]
      else lowerEach (λ _, lowerDefinition i18n symtable)
             Def_labelCount Def_variableCount 0 definitions 0 0
  end.

(** * Measures on the emitted code *)

Definition labelOf (i : Instruction) : option string :=
  match opcode i with
  | ILabel label => Some label
  | _ => None
  end.

Definition jumpTargetOf (i : Instruction) : option string :=
  match opcode i with
  | IJump target
  | IJumpIfFalse target
  | IJumpIfStructure _ target
  | IJumpIfTuple _ target => Some target
  | _ => None
  end.

(** The names of the [Label] instructions, and the targets of the four
    jumps, in the order of the code. *)
Definition labels (code : Code) : list string := omap labelOf code.

Definition jumpTargets (code : Code) : list string := omap jumpTargetOf code.

Definition freshLabels (nl count : nat) : list string :=
  freshLabelName <$> seq nl count.

(** The names are fresh labels numbered from [lo] and below [hi]. *)
Definition labelsWithin (names : list string) (lo hi : nat) : Prop :=
  ∀ l, l ∈ names → ∃ k, l = freshLabelName k ∧ lo ≤ k < hi.

(** A code with no [Label] and none of the four jumps. *)
Definition noControl (code : Code) : Prop :=
  Forall (λ i, labelOf i = None ∧ jumpTargetOf i = None) code.

(** ** The symbolic stack simulator

    The simulator walks the code once, in order, and tracks the depth of the
    local stack.  Its state is the depth at the current point ([None] when
    the point cannot be reached: after a [Jump], after [Return], after the
    failure primitive) and the depth recorded for every label that an edge
    has reached so far.  An instruction that needs more values than the stack
    holds, or two edges that reach one label with different depths, make the
    simulation fail.

    The effect of each instruction is the one the instruction table gives.
    [PrimitiveCall] pops its arguments and pushes the result when the
    primitive returns one.

    Modelled from the spec: the catalog of primitives is outside the covered
    sources.  A primitive function returns a value and a primitive procedure
    returns none; [_FAIL] is the failure primitive, which raises the runtime
    error and does not return.  [Call] transfers control to a routine: it is
    outside the straight-line fragment and the simulation fails on it. *)
Record SimState := mkSimState {
  depth : option nat;
  recorded : gmap string nat
}.

(** The depth once [pops] values are popped; [None] when the stack holds
    fewer. *)
Fixpoint popped (pops d : nat) : option nat :=
  match pops, d with
  | 0, _ => Some d
  | S pops', S d' => popped pops' d'
  | S _, 0 => None
  end.

Definition popPush (pops pushes : nat) (s : SimState) : option SimState :=
  match depth s with
  | None => Some s
  | Some d =>
      match popped pops d with
      | Some d' => Some (mkSimState (Some (pushes + d')) (recorded s))
      | None => None
      end
  end.

(** An edge from the current point to [label]. *)
Definition flowTo (label : string) (s : SimState) : option SimState :=
  match depth s with
  | None => Some s
  | Some d =>
      match recorded s !! label with
      | None => Some (mkSimState (Some d) (<[label := d]> (recorded s)))
      | Some d' => if decide (d = d') then Some s else None
      end
  end.

Definition unreachable (s : SimState) : SimState :=
  mkSimState None (recorded s).

Definition atLabel (label : string) (s : SimState) : option SimState :=
  match depth s, recorded s !! label with
  | None, Some d' => Some (mkSimState (Some d') (recorded s))
  | _, _ => flowTo label s
  end.

Definition simulateInstruction (primitives : RuntimePrimitives)
  (instruction : Opcode) (s : SimState) : option SimState :=
  match instruction with
  | IPushInteger _ | IPushString _ | IPushVariable _ => popPush 0 1 s
  | ISetVariable _ => popPush 1 0 s
  | IUnsetVariable _ => popPush 0 0 s
  | ILabel label => atLabel label s
  | IJump target => unreachable <$> flowTo target s
  | IJumpIfFalse target => popPush 1 0 s ≫= flowTo target
  | IJumpIfStructure _ target | IJumpIfTuple _ target =>
      popPush 1 1 s ≫= flowTo target
  | ICall _ _ =>
      match depth s with
      | Some _ => None
      | None => Some s
      end
  | IReturn =>
      match depth s with
      | Some d => if decide (d ≤ 1) then Some (unreachable s) else None
      | None => Some s
      end
  | IMakeTuple size | IMakeList size => popPush size 1 s
  | IMakeStructure _ _ fieldNames => popPush (length fieldNames) 1 s
  | IUpdateStructure _ _ fieldNames => popPush (S (length fieldNames)) 1 s
  | IReadTupleComponent _ | IReadStructureField _ => popPush 1 2 s
  | IAdd => popPush 2 1 s
  | IDup => popPush 1 2 s
  | IPop => popPush 1 0 s
  | IPrimitiveCall name nargs =>
      if bool_decide (name = "_FAIL") then unreachable <$> popPush nargs 0 s
      else popPush nargs (if isFunction primitives name then 1 else 0) s
  | ISaveState | IRestoreState => popPush 0 0 s
  | ITypeCheck _ => popPush 1 1 s
  end.

Fixpoint simulate (primitives : RuntimePrimitives) (code : Code)
  (s : SimState) : option SimState :=
  match code with
  | [] => Some s
  | i :: code' =>
      simulateInstruction primitives (opcode i) s ≫= simulate primitives code'
  end.

(** The depth at the end of [code], entered at depth [d] with no label
    recorded; [None] when the simulation fails. *)
Definition depthAfter (primitives : RuntimePrimitives) (code : Code) (d : nat)
  : option (option nat) :=
  depth <$> simulate primitives code (mkSimState (Some d) ∅).

(** No fresh label numbered [nl] or more has a recorded depth. *)
Definition unrecordedFrom (m : gmap string nat) (nl : nat) : Prop :=
  ∀ k, nl ≤ k → m !! freshLabelName k = None.

(** [m'] records what [m] records, but for the fresh labels numbered from
    [lo] and below [hi]. *)
Definition agreeOutside (m m' : gmap string nat) (lo hi : nat) : Prop :=
  ∀ l, (∀ k, lo ≤ k < hi → l ≠ freshLabelName k) → m' !! l = m !! l.

(** The state of the simulator at depth [d] when the point is reachable. *)
Definition simState (alive : bool) (d : nat) (m : gmap string nat)
  : SimState :=
  mkSimState (if alive then Some d else None) m.

(** ** Classes of nodes *)

(** The expression is lowered throughout: no [Range] and no
    [StructureUpdate] node is reached when it is compiled. *)
Fixpoint lowered (e : Expression) : bool :=
  match e with
  | ExprVariable _ _ _ | ExprConstantNumber _ _ _
  | ExprConstantString _ _ _ => true
  | ExprList _ _ elements | ExprTuple _ _ elements => forallb lowered elements
  | ExprRange _ _ _ _ _ => false
  | ExprStructure _ _ _ fieldBindings =>
      forallb (λ fb, match fb with
                     | FieldValueNode _ _ _ value => lowered value
                     end) fieldBindings
  | ExprStructureUpdate _ _ _ _ _ => false
  | ExprFunctionCall _ _ _ args => forallb lowered args
  end.

(** Every expression the statement compiles is lowered throughout, and the
    statement holds no [Return]. *)
Fixpoint plain (s : Statement) : bool :=
  match s with
  | StmtBlock _ _ statements => forallb plain statements
  | StmtReturn _ _ _ => false
  | StmtIf _ _ condition thenBlock elseBlock =>
      lowered condition && plain thenBlock
      && match elseBlock with
         | Some elseBlock => plain elseBlock
         | None => true
         end
  | StmtRepeat _ _ e body
  | StmtForeach _ _ _ e body
  | StmtWhile _ _ e body => lowered e && plain body
  | StmtSwitch _ _ subject branches =>
      lowered subject && forallb (λ b, plain (SwitchBranch_body b)) branches
  | StmtAssignVariable _ _ _ value
  | StmtAssignTuple _ _ _ value => lowered value
  | StmtProcedureCall _ _ _ args => forallb lowered args
  end.

Definition isWildcard (p : Pattern) : bool :=
  match p with
  | PatternWildcard _ _ => true
  | _ => false
  end.

(** Does control reach the end of the lowered statement?  A call of the
    failure primitive does not return; a switch is left through the bodies of
    its branches, and the check of a wildcard pattern is an unconditional
    jump, so the branches behind a wildcard are never entered. *)
Fixpoint completes (s : Statement) : bool :=
  match s with
  | StmtBlock _ _ statements => forallb completes statements
  | StmtIf _ _ _ thenBlock (Some elseBlock) =>
      completes thenBlock || completes elseBlock
  | StmtSwitch _ _ _ branches =>
      (fix reach (bs : list SwitchBranch) : bool :=
         match bs with
         | [] => false
         | b :: bs' =>
             completes (SwitchBranch_body b)
             || (negb (isWildcard (SwitchBranch_pattern b)) && reach bs')
         end) branches
  | StmtProcedureCall _ _ procedureName _ =>
      negb (bool_decide (procedureName = "_FAIL"))
  | _ => true
  end.

(** What the simulation of a lowered statement gives: entered at depth [d]
    it does not fail, it ends at depth [d] when the statement completes and
    at an unreachable point otherwise, and it records depths for labels of
    the statement only. *)
Definition simulatesAt (i18n : string → string) (symtable : SymbolTable)
  (primitives : RuntimePrimitives) (s : Statement) : Prop :=
  ∀ alive nl nv d m,
    unrecordedFrom m nl →
    ∃ m',
      simulate primitives (lowerStatement i18n symtable s nl nv)
        (simState alive d m)
      = Some (simState (alive && completes s) d m')
      ∧ agreeOutside m m' nl (nl + labelCount s).

(** The branches of a switch whose check is reached: the first one, and
    every one up to the first wildcard pattern. *)
Fixpoint enteredFlags (alive : bool) (branches : list SwitchBranch)
  : list bool :=
  match branches with
  | [] => []
  | b :: branches' =>
      alive
      :: enteredFlags (alive && negb (isWildcard (SwitchBranch_pattern b)))
           branches'
  end.

(** Every function the expression calls is a primitive function of the
    catalog, and every procedure the statement calls a primitive procedure:
    the only calls the compiler lowers. *)
Fixpoint callsPrimitiveFunctions (primitives : RuntimePrimitives)
  (e : Expression) : bool :=
  match e with
  | ExprList _ _ elements | ExprTuple _ _ elements =>
      forallb (callsPrimitiveFunctions primitives) elements
  | ExprStructure _ _ _ fieldBindings =>
      forallb (λ fb, match fb with
                     | FieldValueNode _ _ _ value =>
                         callsPrimitiveFunctions primitives value
                     end) fieldBindings
  | ExprFunctionCall _ _ functionName args =>
      isFunction primitives functionName
      && forallb (callsPrimitiveFunctions primitives) args
  | _ => true
  end.

Fixpoint callsPrimitives (primitives : RuntimePrimitives) (s : Statement)
  : bool :=
  match s with
  | StmtBlock _ _ statements =>
      forallb (callsPrimitives primitives) statements
  | StmtReturn _ _ result => callsPrimitiveFunctions primitives result
  | StmtIf _ _ condition thenBlock elseBlock =>
      callsPrimitiveFunctions primitives condition
      && callsPrimitives primitives thenBlock
      && match elseBlock with
         | Some elseBlock => callsPrimitives primitives elseBlock
         | None => true
         end
  | StmtRepeat _ _ e body
  | StmtForeach _ _ _ e body
  | StmtWhile _ _ e body =>
      callsPrimitiveFunctions primitives e && callsPrimitives primitives body
  | StmtSwitch _ _ subject branches =>
      callsPrimitiveFunctions primitives subject
      && forallb (λ b, callsPrimitives primitives (SwitchBranch_body b))
           branches
  | StmtAssignVariable _ _ _ value
  | StmtAssignTuple _ _ _ value => callsPrimitiveFunctions primitives value
  | StmtProcedureCall _ _ procedureName args =>
      isProcedure primitives procedureName
      && forallb (callsPrimitiveFunctions primitives) args
  end.

(** Modelled from the spec: what the simulation assumes of the catalog of
    primitives, which is outside the covered sources.  The primitives the
    lowerings call to compare, to count and to index are functions; the
    failure primitive is not a function; no name is both a procedure and a
    function. *)
Definition catalogAsUsed (primitives : RuntimePrimitives) : Prop :=
  Forall (λ name, isFunction primitives name = true)
    [">"; "<"; "+"; "-"; "_unsafeListLength"; "_unsafeListNth"]
  ∧ isFunction primitives "_FAIL" = false
  ∧ ∀ name, isProcedure primitives name = true →
            isFunction primitives name = false.

Definition isProgramDef (d : Def) : bool :=
  match d with
  | DefProgram _ _ _ | DefInteractiveProgram _ _ _ => true
  | _ => false
  end.

Definition isFresh (c : Compiler) : Prop :=
  _code c = [] ∧ _nextLabel c = 0 ∧ _nextVariable c = 0.

(** The outcome of [compile] on a given compiler object. *)
Definition compileOn (i18n : string → string) (c : Compiler) (ast : Main)
  : Exception + Code :=
  match compile i18n ast c with
  | inl e => inl e
  | inr (code, _) => inr code
  end.

(** ** The shapes the lowerings of foreach and switch are compared with *)

(** The compiler, started in [c] on [foreach index in range body], has
    stopped in [c']: the emitted sequence is the foreach template, in which
    the list, the length and the position are the synthetic variables
    numbered [list], [n] and [pos] from the variable counter of [c], around
    what compiling the range and the body appends. *)
Definition foreachShape (i18n : string → string) (c c' : Compiler)
  (startPos endPos : Position) (index : string) (range : Expression)
  (body : Statement) (list n pos : nat) : Prop :=
  let labelStart := freshLabelName (_nextLabel c) in
  let labelEnd := freshLabelName (_nextLabel c + 1) in
  let listName := freshVariableName (_nextVariable c + list) in
  let nName := freshVariableName (_nextVariable c + n) in
  let posName := freshVariableName (_nextVariable c + pos) in
  ∃ rangeCode bodyCode labels variables cr cb,
    _nextLabel cr = _nextLabel c + 2
    ∧ _nextVariable cr = _nextVariable c + 3
    ∧ _compileExpression range cr = inr (tt, advance cr rangeCode 0 0)
    ∧ _nextLabel cb = _nextLabel c + 2
    ∧ _nextVariable cb = _nextVariable c + 3
    ∧ _compileStatement i18n body cb
      = inr (tt, advance cb bodyCode labels variables)
    ∧ c' = advance c
             (foreachTemplate startPos endPos index range rangeCode bodyCode
                labelStart labelEnd listName nName posName)
             (2 + labels) (3 + variables)
    ∧ NoDup [listName; nName; posName]
    ∧ ∃ before,
        _code c'
        = before
          ++ positioned startPos endPos
               [ILabel labelEnd; IUnsetVariable listName;
                IUnsetVariable nName; IUnsetVariable posName;
                IUnsetVariable index].

(** The lowered bodies of the branches of a switch, the counters running
    through them. *)
Fixpoint bodyCodes (i18n : string → string) (symtable : SymbolTable)
  (branches : list SwitchBranch) (nl nv : nat) : list Code :=
  match branches with
  | [] => []
  | b :: branches' =>
      lowerStatement i18n symtable (SwitchBranch_body b) nl nv
      :: bodyCodes i18n symtable branches'
           (nl + labelCount (SwitchBranch_body b))
           (nv + variableCount (SwitchBranch_body b))
  end.

(** An instruction of a pattern check: it leaves the stack as it is. *)
Definition keepsSubject (i : Instruction) : bool :=
  match opcode i with
  | ITypeCheck _ | IJump _ | IJumpIfStructure _ _ | IJumpIfTuple _ _ => true
  | _ => false
  end.

(** The compiler, started in [c] on [switch (subject) branches], has stopped
    in [c']: it has appended the subject; for each branch in order the check
    of its pattern, which jumps to the label of the branch and pops nothing;
    the failure sequence; for each branch in order its label, the bind
    sequence, [Pop], what compiling its body appends, the unbind sequence and
    the jump to the one end label; the end label. *)
Definition switchShape (i18n : string → string) (c c' : Compiler)
  (startPos endPos : Position) (subject : Expression)
  (branches : list SwitchBranch) : Prop :=
  let symtable := _symtable c in
  let branchLabel := λ i, freshLabelName (_nextLabel c + i) in
  let labelEnd := freshLabelName (_nextLabel c + length branches) in
  ∃ subjectCode bodies,
    _compileExpression subject c = inr (tt, advance c subjectCode 0 0)
    ∧ Forall2
        (λ b bodyCode,
           ∃ cb labels variables,
             _symtable cb = symtable
             ∧ _nextLabel c + length branches + 1 ≤ _nextLabel cb
             ∧ _compileStatement i18n (SwitchBranch_body b) cb
               = inr (tt, advance cb bodyCode labels variables))
        branches bodies
    ∧ _code c'
      = _code c
        ++ subjectCode
        ++ concat (imap (λ i b,
                           lowerPatternCheck i18n symtable
                             (SwitchBranch_pattern b) (branchLabel i))
                     branches)
        ++ positioned startPos endPos
             [IPushString (i18n "errmsg:switch-does-not-match");
              IPrimitiveCall "_FAIL" 1]
        ++ concat (imap (λ i bb,
                           switchBranchCode symtable (branchLabel i) labelEnd
                             bb.1 bb.2)
                     (zip branches bodies))
        ++ positioned startPos endPos [ILabel labelEnd]
    ∧ NoDup (labelEnd :: (branchLabel <$> seq 0 (length branches)))
    ∧ ∀ i b, branches !! i = Some b →
        let check :=
          lowerPatternCheck i18n symtable (SwitchBranch_pattern b)
            (branchLabel i) in
        jumpTargets check = [branchLabel i]
        ∧ labels check = []
        ∧ forallb keepsSubject check = true.

(** ** What the emitted code holds *)

(** The primitives the lowerings call by name, whatever the program:
    the comparisons and the arithmetic of [repeat] and [foreach], the two
    list accessors of [foreach], and the failure primitive of [switch]. *)
Definition internalPrimitives : list string :=
  [">"; "-"; "<"; "+"; "_unsafeListLength"; "_unsafeListNth"; "_FAIL"].

(** The instructions the lowering of a statement is built from: every
    instruction but [Call], [Return], [UpdateStructure], [Add], [SaveState]
    and [RestoreState]. *)
Definition loweredOpcode (op : Opcode) : bool :=
  match op with
  | ICall _ _ | IReturn | IUpdateStructure _ _ _ | IAdd | ISaveState
  | IRestoreState => false
  | _ => true
  end.

(** A [PrimitiveCall] names one of the internal primitives, or a procedure
    or a function of the catalog. *)
Definition knownCall (primitives : RuntimePrimitives) (op : Opcode) : bool :=
  match op with
  | IPrimitiveCall name _ =>
      bool_decide (name ∈ internalPrimitives)
      || isProcedure primitives name || isFunction primitives name
  | _ => true
  end.

Definition holdsOnly (φ : Opcode → bool) (code : Code) : Prop :=
  Forall (λ i, φ (opcode i) = true) code.

Definition isReturn (i : Instruction) : bool :=
  match opcode i with
  | IReturn => true
  | _ => false
  end.

Definition isDefProgram (d : Def) : bool :=
  match d with
  | DefProgram _ _ _ => true
  | _ => false
  end.

Definition countIf {A : Type} (p : A → bool) (xs : list A) : nat :=
  length (List.filter p xs).

Definition Def_callsPrimitives (primitives : RuntimePrimitives) (d : Def)
  : bool :=
  match d with
  | DefProgram _ _ body => callsPrimitives primitives body
  | _ => true
  end.

(** The code of the compiler and its label counter agree: the labels of the
    code are the fresh labels allocated so far, each placed once, and every
    jump of the code goes to one of them. *)
Definition wellLabelled (c : Compiler) : Prop :=
  labels (_code c) ≡ₚ freshLabels 0 (_nextLabel c)
  ∧ ∀ target, target ∈ jumpTargets (_code c) → target ∈ labels (_code c).

Definition FieldValue_value (fb : FieldValue) : Expression :=
  match fb with FieldValueNode _ _ _ value => value end.

(** * Building the symbol table ([symtable.js])

    The definition methods mutate the dictionaries of the table and throw
    when a name is already taken.  A thrown exception leaves the table as
    the method had changed it so far: the outcome of a method keeps the
    table in both cases.

    The dictionaries are plain objects, and [name in dictionary] also finds
    the properties every object inherits from [Object.prototype].  For such
    a name a lookup returns the inherited function in place of a value of
    the table; a definition method takes the name for one that is taken
    already and ends by an exception, without changing the table any
    further: the syntax error of the message catalog, built where it needs
    one from the position of a definition that does not exist, or an
    exception thrown on the way.  The value returned and the exception
    thrown are outside what the model describes: the model stops there with
    the outcome [Outside st], where [st] is the table as the method had
    changed it so far. *)

(** Modelled from the spec: the class [GbsSyntaxError] and the message
    catalog are outside the covered sources.  A syntax error carries a
    position and the message the catalog builds for a key from names and
    positions: the message is kept as the key with its arguments. *)
Inductive MessageArgument : Type :=
| ArgName (name : string)
| ArgPosition (position : Position).

Inductive SymtableException : Type :=
| GbsSyntaxError (startPos : Position) (reason : string)
    (args : list MessageArgument)
| JsException (e : Exception).

Inductive Outcome (A : Type) : Type :=
| Returned (a : A) (symtable : SymbolTable)
| Thrown (e : SymtableException) (symtable : SymbolTable)
| Outside (symtable : SymbolTable).

Arguments Returned {A} a symtable.
Arguments Thrown {A} e symtable.
Arguments Outside {A} symtable.

Definition ST (A : Type) : Type := SymbolTable → Outcome A.

Definition st_ret {A : Type} (a : A) : ST A := λ st, Returned a st.

Definition st_throw {A : Type} (e : SymtableException) : ST A :=
  λ st, Thrown e st.

Definition st_bind {A B : Type} (m : ST A) (k : A → ST B) : ST B :=
  λ st, match m st with
        | Returned a st' => k a st'
        | Thrown e st' => Thrown e st'
        | Outside st' => Outside st'
        end.

Notation "'run' x <- m ; k" := (st_bind m (λ x, k))
  (at level 10, x name, m at level 100, k at level 200, only parsing).

Definition st_gets {A : Type} (f : SymbolTable → A) : ST A :=
  λ st, Returned (f st) st.

Definition st_modify (f : SymbolTable → SymbolTable) : ST unit :=
  λ st, Returned tt (f st).

(** [name in dictionary] and, when it holds, [dictionary[name]]; on a
    property of [Object.prototype] the model stops, with the table as it
    is. *)
Definition ownValue {A : Type} (name : string) (dictionary : gmap string A)
  : ST (option A) :=
  λ st, if inherited name then Outside st
        else Returned (dictionary !! name) st.

(** Assignments to the fields of the table. *)
Definition with_program (program : option Def) (st : SymbolTable)
  : SymbolTable :=
  {| _program := program; _procedures := _procedures st;
     _functions := _functions st; _types := _types st;
     _typeConstructors := _typeConstructors st;
     _constructors := _constructors st;
     _constructorType := _constructorType st;
     _constructorFields := _constructorFields st; _fields := _fields st |}.

Definition with_procedures (procedures : gmap string Def) (st : SymbolTable)
  : SymbolTable :=
  {| _program := _program st; _procedures := procedures;
     _functions := _functions st; _types := _types st;
     _typeConstructors := _typeConstructors st;
     _constructors := _constructors st;
     _constructorType := _constructorType st;
     _constructorFields := _constructorFields st; _fields := _fields st |}.

Definition with_functions (functions : gmap string Def) (st : SymbolTable)
  : SymbolTable :=
  {| _program := _program st; _procedures := _procedures st;
     _functions := functions; _types := _types st;
     _typeConstructors := _typeConstructors st;
     _constructors := _constructors st;
     _constructorType := _constructorType st;
     _constructorFields := _constructorFields st; _fields := _fields st |}.

Definition with_types (types : gmap string Def) (st : SymbolTable)
  : SymbolTable :=
  {| _program := _program st; _procedures := _procedures st;
     _functions := _functions st; _types := types;
     _typeConstructors := _typeConstructors st;
     _constructors := _constructors st;
     _constructorType := _constructorType st;
     _constructorFields := _constructorFields st; _fields := _fields st |}.

Definition with_typeConstructors (typeConstructors : gmap string (list string))
  (st : SymbolTable) : SymbolTable :=
  {| _program := _program st; _procedures := _procedures st;
     _functions := _functions st; _types := _types st;
     _typeConstructors := typeConstructors;
     _constructors := _constructors st;
     _constructorType := _constructorType st;
     _constructorFields := _constructorFields st; _fields := _fields st |}.

Definition with_constructors
  (constructors : gmap string ConstructorDeclaration) (st : SymbolTable)
  : SymbolTable :=
  {| _program := _program st; _procedures := _procedures st;
     _functions := _functions st; _types := _types st;
     _typeConstructors := _typeConstructors st;
     _constructors := constructors;
     _constructorType := _constructorType st;
     _constructorFields := _constructorFields st; _fields := _fields st |}.

Definition with_constructorType (constructorType : gmap string string)
  (st : SymbolTable) : SymbolTable :=
  {| _program := _program st; _procedures := _procedures st;
     _functions := _functions st; _types := _types st;
     _typeConstructors := _typeConstructors st;
     _constructors := _constructors st;
     _constructorType := constructorType;
     _constructorFields := _constructorFields st; _fields := _fields st |}.

Definition with_constructorFields
  (constructorFields : gmap string (list string)) (st : SymbolTable)
  : SymbolTable :=
  {| _program := _program st; _procedures := _procedures st;
     _functions := _functions st; _types := _types st;
     _typeConstructors := _typeConstructors st;
     _constructors := _constructors st;
     _constructorType := _constructorType st;
     _constructorFields := constructorFields; _fields := _fields st |}.

Definition with_fields (fields : gmap string (list FieldDescriptor))
  (st : SymbolTable) : SymbolTable :=
  {| _program := _program st; _procedures := _procedures st;
     _functions := _functions st; _types := _types st;
     _typeConstructors := _typeConstructors st;
     _constructors := _constructors st;
     _constructorType := _constructorType st;
     _constructorFields := _constructorFields st; _fields := fields |}.

(** ** The nodes the table stores

    Modelled from the spec, as the abstract syntax above: every definition
    node has a [startPos]; a procedure and a function have a [name]; a type
    has a [typeName] and [constructorDeclarations].  Reading a property a
    node does not have gives [undefined], and reading [value] on it
    throws. *)
Definition Def_startPos (d : Def) : Position :=
  match d with
  | DefProgram sp _ _ | DefInteractiveProgram sp _ _ | DefProcedure sp _ _ _ _
  | DefFunction sp _ _ _ _ | DefType sp _ _ _ => sp
  end.

Definition Def_name (d : Def) : option string :=
  match d with
  | DefProcedure _ _ name _ _ | DefFunction _ _ name _ _ => Some name
  | _ => None
  end.

Definition readOfUndefined (property : string) : SymtableException :=
  JsException
    (TypeError
       ("Cannot read properties of undefined (reading '" +:+ property
        +:+ "')")).

(** ** Lookups *)

Definition lookupOrThrow {A : Type} (dictionary : SymbolTable → gmap string A)
  (message : string) (name : string) : ST A :=
  run dict <- st_gets dictionary;
  run found <- ownValue name dict;
  match found with
  | Some a => st_ret a
  | None => st_throw (JsException (Error message))
  end.

Definition procedureDefinition : string → ST Def :=
  lookupOrThrow _procedures "Undefined procedure.".

Definition functionDefinition : string → ST Def :=
  lookupOrThrow _functions "Undefined function.".

Definition typeDefinition : string → ST Def :=
  lookupOrThrow _types "Undefined type.".

Definition typeConstructors : string → ST (list string) :=
  lookupOrThrow _typeConstructors "Undefined type.".

Definition constructorDeclaration : string → ST ConstructorDeclaration :=
  lookupOrThrow _constructors "Undefined constructor.".

Definition fieldDescriptor : string → ST (list FieldDescriptor) :=
  lookupOrThrow _fields "Undefined field.".

(** ** Definitions *)

Definition defProgram (definition : Def) : ST unit :=
  run program <- st_gets _program;
  match program with
  | Some previous =>
      st_throw
        (GbsSyntaxError (Def_startPos definition)
           "errmsg:program-already-defined"
           [ArgPosition (Def_startPos previous);
            ArgPosition (Def_startPos definition)])
  | None => st_modify (with_program (Some definition))
  end.

Definition defInteractiveProgram (definition : Def) : ST unit :=
  defProgram definition.

Definition defProcedure (definition : Def) : ST unit :=
  match Def_name definition with
  | None => st_throw (readOfUndefined "value")
  | Some name =>
      run procedures <- st_gets _procedures;
      run previous <- ownValue name procedures;
      match previous with
      | Some previous =>
          st_throw
            (GbsSyntaxError (Def_startPos definition)
               "errmsg:procedure-already-defined"
               [ArgName name; ArgPosition (Def_startPos previous);
                ArgPosition (Def_startPos definition)])
      | None =>
          st_modify (λ st, with_procedures
                             (<[name := definition]> (_procedures st)) st)
      end
  end.

(** [this._constructors[this._fields[name][0].constructorName].startPos] *)
Definition positionOfField (descriptors : list FieldDescriptor)
  : ST Position :=
  match descriptors with
  | [] => st_throw (readOfUndefined "constructorName")
  | descriptor :: _ =>
      run constructors <- st_gets _constructors;
      run declaration <-
        ownValue (fd_constructorName descriptor) constructors;
      match declaration with
      | Some declaration => st_ret (cd_startPos declaration)
      | None => st_throw (readOfUndefined "startPos")
      end
  end.

Definition defFunction (definition : Def) : ST unit :=
  match Def_name definition with
  | None => st_throw (readOfUndefined "value")
  | Some name =>
      run functions <- st_gets _functions;
      run previous <- ownValue name functions;
      match previous with
      | Some previous =>
          st_throw
            (GbsSyntaxError (Def_startPos definition)
               "errmsg:function-already-defined"
               [ArgName name; ArgPosition (Def_startPos previous);
                ArgPosition (Def_startPos definition)])
      | None =>
          run fields <- st_gets _fields;
          run descriptors <- ownValue name fields;
          match descriptors with
          | Some descriptors =>
              run fieldPos <- positionOfField descriptors;
              st_throw
                (GbsSyntaxError (Def_startPos definition)
                   "errmsg:function-and-field-cannot-have-the-same-name"
                   [ArgName name; ArgPosition (Def_startPos definition);
                    ArgPosition fieldPos])
          | None =>
              st_modify (λ st, with_functions
                                 (<[name := definition]> (_functions st)) st)
          end
      end
  end.

Definition _declareField (startPos : Position)
  (typeName constructorName fieldName : string) (index : nat) : ST unit :=
  run functions <- st_gets _functions;
  run clash <- ownValue fieldName functions;
  match clash with
  | Some function =>
      st_throw
        (GbsSyntaxError startPos
           "errmsg:function-and-field-cannot-have-the-same-name"
           [ArgName fieldName; ArgPosition (Def_startPos function);
            ArgPosition startPos])
  | None =>
      run fields <- st_gets _fields;
      run present <- ownValue fieldName fields;
      run _ <-
        match present with
        | Some _ => st_ret tt
        | None => st_modify (λ st, with_fields
                                     (<[fieldName := []]> (_fields st)) st)
        end;
      st_modify
        (λ st, with_fields
                 (alter (λ descriptors,
                           descriptors
                           ++ [mkFieldDescriptor typeName constructorName
                                 index])
                    fieldName (_fields st)) st)
  end.

Section SymbolTable.

(** Modelled from the spec: a field name of a constructor declaration is a
    token, with a position of its own; the declarations above keep the names
    only.  [fieldNamePos declaration index] stands for the [startPos] of the
    field name of that index. *)
Variable fieldNamePos : ConstructorDeclaration → nat → Position.

(** The loop of [_declareConstructor] over the field names:
    [constructorFields] holds the names met so far, [fieldNames] lists
    them, [index] counts them. *)
Fixpoint declareFieldNames (declaration : ConstructorDeclaration)
  (typeName : string) (names : list string)
  (constructorFields : gmap string bool) (fieldNames : list string)
  (index : nat) : ST (list string) :=
  match names with
  | [] => st_ret fieldNames
  | fieldName :: names' =>
      run repeated <- ownValue fieldName constructorFields;
      match repeated with
      | Some _ =>
          st_throw
            (GbsSyntaxError (fieldNamePos declaration index)
               "errmsg:repeated-field-name"
               [ArgName (cd_constructorName declaration); ArgName fieldName])
      | None =>
          run _ <-
            _declareField (fieldNamePos declaration index) typeName
              (cd_constructorName declaration) fieldName index;
          declareFieldNames declaration typeName names'
            (<[fieldName := true]> constructorFields)
            (fieldNames ++ [fieldName]) (S index)
      end
  end.

Definition _declareConstructor (typeName : string)
  (declaration : ConstructorDeclaration) : ST unit :=
  let constructorName := cd_constructorName declaration in
  run constructors <- st_gets _constructors;
  run previous <- ownValue constructorName constructors;
  match previous with
  | Some previous =>
      st_throw
        (GbsSyntaxError (cd_startPos declaration)
           "errmsg:constructor-already-defined"
           [ArgName constructorName; ArgPosition (cd_startPos previous);
            ArgPosition (cd_startPos declaration)])
  | None =>
      run _ <-
        st_modify (λ st, with_constructors
                           (<[constructorName := declaration]>
                              (_constructors st)) st);
      run _ <-
        st_modify (λ st, with_constructorType
                           (<[constructorName := typeName]>
                              (_constructorType st)) st);
      run fieldNames <-
        declareFieldNames declaration typeName (cd_fieldNames declaration)
          ∅ [] 0;
      st_modify (λ st, with_constructorFields
                         (<[constructorName := fieldNames]>
                            (_constructorFields st)) st)
  end.

(** The loop of [defType] over the constructor declarations. *)
Fixpoint declareConstructors (typeName : string)
  (declarations : list ConstructorDeclaration)
  (constructorNames : list string) : ST (list string) :=
  match declarations with
  | [] => st_ret constructorNames
  | declaration :: declarations' =>
      run _ <- _declareConstructor typeName declaration;
      declareConstructors typeName declarations'
        (constructorNames ++ [cd_constructorName declaration])
  end.

Definition defType (definition : Def) : ST unit :=
  match definition with
  | DefType _ _ typeName constructorDeclarations =>
      run types <- st_gets _types;
      run previous <- ownValue typeName types;
      match previous with
      | Some previous =>
          st_throw
            (GbsSyntaxError (Def_startPos definition)
               "errmsg:type-already-defined"
               [ArgName typeName; ArgPosition (Def_startPos previous);
                ArgPosition (Def_startPos definition)])
      | None =>
          run _ <-
            st_modify (λ st, with_types
                               (<[typeName := definition]> (_types st)) st);
          run constructorNames <-
            declareConstructors typeName constructorDeclarations [];
          st_modify (λ st, with_typeConstructors
                             (<[typeName := constructorNames]>
                                (_typeConstructors st)) st)
      end
  | _ => st_throw (readOfUndefined "value")
  end.

End SymbolTable.

(** ** Properties of the table *)

(** The property holds of the table a method leaves, whether it returns,
    throws, or ends on a property of [Object.prototype]. *)
Definition leaves {A : Type} (P : SymbolTable → Prop) (o : Outcome A)
  : Prop :=
  match o with
  | Returned _ st | Thrown _ st | Outside st => P st
  end.

(** No name is both a function and a field. *)
Definition namespacesApart (st : SymbolTable) : Prop :=
  ∀ name, _functions st !! name = None ∨ _fields st !! name = None.

(** What a table holds once a field, the fields of a constructor, a
    constructor and the constructors of a type are declared: the table the
    declaration methods leave when they return. *)
Definition registerField (typeName constructorName : string) (index : nat)
  (fieldName : string) (fields : gmap string (list FieldDescriptor))
  : gmap string (list FieldDescriptor) :=
  <[fieldName := default [] (fields !! fieldName)
                 ++ [mkFieldDescriptor typeName constructorName index]]>
    fields.

Fixpoint registerFields (typeName constructorName : string)
  (names : list string) (index : nat)
  (fields : gmap string (list FieldDescriptor))
  : gmap string (list FieldDescriptor) :=
  match names with
  | [] => fields
  | fieldName :: names' =>
      registerFields typeName constructorName names' (S index)
        (registerField typeName constructorName index fieldName fields)
  end.

Definition registerConstructor (typeName : string)
  (declaration : ConstructorDeclaration) (st : SymbolTable) : SymbolTable :=
  let constructorName := cd_constructorName declaration in
  {| _program := _program st; _procedures := _procedures st;
     _functions := _functions st; _types := _types st;
     _typeConstructors := _typeConstructors st;
     _constructors := <[constructorName := declaration]> (_constructors st);
     _constructorType := <[constructorName := typeName]> (_constructorType st);
     _constructorFields :=
       <[constructorName := cd_fieldNames declaration]>
         (_constructorFields st);
     _fields :=
       registerFields typeName constructorName (cd_fieldNames declaration) 0
         (_fields st) |}.

(** The names are not properties of [Object.prototype]. *)
Definition ownNames (names : list string) : Prop :=
  Forall (λ name, inherited name = false) names.

(** The method keeps the property, whether it returns or throws. *)
Definition preserves {A : Type} (P : SymbolTable → Prop) (m : ST A) : Prop :=
  ∀ st, P st → leaves P (m st).

(** The table holds these type definitions and these lists of
    constructors. *)
Definition sameTypes (types : gmap string Def)
  (typeConstructors : gmap string (list string)) (st : SymbolTable) : Prop :=
  _types st = types ∧ _typeConstructors st = typeConstructors.

(** * Integer values ([value.js])

    An integer value holds its numeral, a string; every operation builds
    big integers from the numerals of its operands with the library
    function [Integer], computes on them, and stores the numeral of the
    result.

    Modelled from the spec: the big integer library is outside the covered
    sources.  [Integer(numeral)] is the integer the numeral denotes, and
    throws on a string that is no numeral; the methods [add], [subtract],
    [multiply], [negate], [leq], [lt], [geq] and [gt] are those of the
    integers; [divide] truncates towards zero and throws on the divisor
    zero; [toString] gives a numeral of the integer.  The development is
    parametric in the reading of the numerals ([parseInteger]), in
    [toString] ([printInteger]) and in the two exceptions. *)
Record ValueInteger := mkValueInteger { _number : string }.

(** [Exception + A]: a method that returns or throws, with no state. *)
Definition bindE {A B : Type} (m : Exception + A) (k : A → Exception + B)
  : Exception + B :=
  match m with
  | inl e => inl e
  | inr a => k a
  end.

Notation "'try' x <- m ; k" := (bindE m (λ x, k))
  (at level 10, x name, m at level 100, k at level 200, only parsing).

Section Integers.

Variable parseInteger : string → option Z.
Variable printInteger : Z → string.
Variable invalidInteger : string → Exception.
Variable divisionByZero : Exception.

Definition Integer (numeral : string) : Exception + Z :=
  match parseInteger numeral with
  | Some z => inr z
  | None => inl (invalidInteger numeral)
  end.

Definition Integer_divide (a b : Z) : Exception + Z :=
  if bool_decide (b = 0%Z) then inl divisionByZero else inr (Z.quot a b).

(** [new ValueInteger(0)] and [new ValueInteger(1)]: the numeral of a
    number is its [toString()]. *)
Definition ValueInteger_zero : ValueInteger := mkValueInteger "0".

Definition ValueInteger_one : ValueInteger := mkValueInteger "1".

(** [other] is an integer value: its tag is [V_Integer]. *)
Definition ValueInteger_equal (this other : ValueInteger) : bool :=
  bool_decide (_number this = _number other).

Definition ValueInteger_add (this other : ValueInteger)
  : Exception + ValueInteger :=
  try a <- Integer (_number this);
  try b <- Integer (_number other);
  inr (mkValueInteger (printInteger (a + b))).

Definition ValueInteger_sub (this other : ValueInteger)
  : Exception + ValueInteger :=
  try a <- Integer (_number this);
  try b <- Integer (_number other);
  inr (mkValueInteger (printInteger (a - b))).

Definition ValueInteger_mul (this other : ValueInteger)
  : Exception + ValueInteger :=
  try a <- Integer (_number this);
  try b <- Integer (_number other);
  inr (mkValueInteger (printInteger (a * b))).

Definition ValueInteger_le (this other : ValueInteger) : Exception + bool :=
  try a <- Integer (_number this);
  try b <- Integer (_number other);
  inr (a <=? b)%Z.

Definition ValueInteger_lt (this other : ValueInteger) : Exception + bool :=
  try a <- Integer (_number this);
  try b <- Integer (_number other);
  inr (a <? b)%Z.

Definition ValueInteger_ge (this other : ValueInteger) : Exception + bool :=
  try a <- Integer (_number this);
  try b <- Integer (_number other);
  inr (a >=? b)%Z.

Definition ValueInteger_gt (this other : ValueInteger) : Exception + bool :=
  try a <- Integer (_number this);
  try b <- Integer (_number other);
  inr (a >? b)%Z.

Definition ValueInteger_eq (this other : ValueInteger) : bool :=
  ValueInteger_equal this other.

Definition ValueInteger_ne (this other : ValueInteger) : bool :=
  negb (ValueInteger_equal this other).

Definition ValueInteger_negate (this : ValueInteger)
  : Exception + ValueInteger :=
  try a <- Integer (_number this);
  inr (mkValueInteger (printInteger (- a))).

Definition ValueInteger_abs (this : ValueInteger)
  : Exception + ValueInteger :=
  try positive <- ValueInteger_gt this ValueInteger_zero;
  if positive then inr this else ValueInteger_negate this.

Definition ValueInteger_div (this other : ValueInteger)
  : Exception + ValueInteger :=
  let z := ValueInteger_zero in
  try thisPositive <- ValueInteger_gt this z;
  try otherPositive <- ValueInteger_gt other z;
  if bool_decide (thisPositive = otherPositive) then
    try thisAbs <- ValueInteger_abs this;
    try a <- Integer (_number thisAbs);
    try otherAbs <- ValueInteger_abs other;
    try b <- Integer (_number otherAbs);
    try quotient <- Integer_divide a b;
    inr (mkValueInteger (printInteger quotient))
  else
    try otherAbs <- ValueInteger_abs other;
    try inc <- ValueInteger_sub otherAbs ValueInteger_one;
    try thisAbs <- ValueInteger_abs this;
    try sum <- ValueInteger_add thisAbs inc;
    try a <- Integer (_number sum);
    try otherAbs' <- ValueInteger_abs other;
    try b <- Integer (_number otherAbs');
    try quotient <- Integer_divide a b;
    inr (mkValueInteger (printInteger (- quotient))).

Definition ValueInteger_mod (this other : ValueInteger)
  : Exception + ValueInteger :=
  try q <- ValueInteger_div this other;
  try product <- ValueInteger_mul q other;
  ValueInteger_sub this product.

(** What the development assumes of the library: a numeral [toString]
    gives is read back as the integer, and so are the numerals [0] and
    [1]. *)
Definition numeralsRoundTrip : Prop :=
  (∀ z, parseInteger (printInteger z) = Some z)
  ∧ parseInteger "0" = Some 0%Z
  ∧ parseInteger "1" = Some 1%Z.

End Integers.

(** * String values ([value.js])

    [toString] prints a string value between two double quotes; the loop
    pushes each character of [_string] in turn, a backslash and a letter for
    the nine characters of the [switch], the character itself otherwise.
    A string is the sequence of its characters, and the characters are
    compared by their codes: 34 is the double quote, 92 the
    backslash, 7 [\u0007], 8 [\b], 12 [\f], 10 [\n], 13 [\r], 9 [\t] and
    11 [\v]. *)
Definition doubleQuote : Ascii.ascii := Ascii.ascii_of_N 34.

Definition backslash : Ascii.ascii := Ascii.ascii_of_N 92.

(** What one turn of the loop of [toString] pushes on [res]. *)
Definition ValueString_pushed (chr : Ascii.ascii) : string :=
  match Ascii.N_of_ascii chr with
  | 34%N => String backslash (String doubleQuote "")
  | 92%N => "\\"
  | 7%N => "\a"
  | 8%N => "\b"
  | 12%N => "\f"
  | 10%N => "\n"
  | 13%N => "\r"
  | 9%N => "\t"
  | 11%N => "\v"
  | _ => String chr ""
  end.

(** The loop and the closing quote. *)
Fixpoint ValueString_toString_from (_string : string) : string :=
  match _string with
  | EmptyString => String doubleQuote ""
  | String chr rest => ValueString_pushed chr +:+ ValueString_toString_from rest
  end.

Definition ValueString_toString (_string : string) : string :=
  String doubleQuote (ValueString_toString_from _string).

(** [equal] of two string values ([other.tag] is [V_String]). *)
Definition ValueString_equal (this other : string) : bool :=
  bool_decide (this = other).

(** * Values and their equality ([value.js])

    A value is an object of one of five classes, told apart by its tag.  The
    fields of a structure are a plain object from field names to values.
    The cached [_type] of tuples and lists is left out: [equal] does not
    read it. *)
Inductive Value : Type :=
| V_Integer (integer : ValueInteger)
| V_String (_string : string)
| V_Tuple (_components : list Value)
| V_List (_elements : list Value)
| V_Structure (_typeName _constructorName : string)
    (_fields : gmap string Value).

(** [sortedKeys]: the keys of a dictionary, sorted as [sort()] sorts strings,
    character by character. *)
Definition sortedKeys {A : Type} (dictionary : gmap string A) : list string :=
  merge_sort (λ a b, Is_true (String.leb a b)) (map_to_list dictionary).*1.

(** Every [equal] begins by reading [other.tag]: it throws when [other] is
    [undefined]; [x.equal] throws when [x] is. *)
Definition propertyOfUndefined (property : string) : Exception :=
  TypeError
    ("Cannot read properties of undefined (reading '" +:+ property +:+ "')").

(** [equalTo] holds, for each component of [this] in turn, the method
    [equal] of that component; [others !! i] is [other.components[i]]. *)
Fixpoint equalComponents (i : nat)
    (equalTo : list (Value → Exception + bool)) (others : list Value)
  : Exception + bool :=
  match equalTo with
  | [] => inr true
  | equal :: rest =>
      try same <-
        match others !! i with
        | Some other => equal other
        | None => inl (propertyOfUndefined "tag")
        end;
      if same then equalComponents (S i) rest others else inr false
  end.

(** The loop of [ValueStructure.equal] over the field names of [this].
    [equalTo !! fieldName] is the method [equal] of [this.fields[fieldName]].
    [other.fields[fieldName]] is the value the other structure holds; when
    it holds none, it is a property of [Object.prototype], which has no tag
    and which every [equal] answers with [false], or else [undefined]. *)
Fixpoint equalFields (fieldNames : list string)
    (equalTo : gmap string (Value → Exception + bool))
    (otherFields : gmap string Value) : Exception + bool :=
  match fieldNames with
  | [] => inr true
  | fieldName :: rest =>
      match equalTo !! fieldName with
      | None => inl (propertyOfUndefined "equal")
      | Some equal =>
          try same <-
            match otherFields !! fieldName with
            | Some other => equal other
            | None =>
                if inherited fieldName then inr false
                else inl (propertyOfUndefined "tag")
            end;
          if same then equalFields rest equalTo otherFields else inr false
      end
  end.

(** [this.equal(other)], by the class of [this]. *)
Fixpoint Value_equal (this other : Value) {struct this} : Exception + bool :=
  match this, other with
  | V_Integer integer, V_Integer otherInteger =>
      inr (ValueInteger_equal integer otherInteger)
  | V_String string, V_String otherString =>
      inr (ValueString_equal string otherString)
  | V_Tuple components, V_Tuple otherComponents =>
      if bool_decide (length components ≠ length otherComponents) then
        inr false
      else equalComponents 0 (Value_equal <$> components) otherComponents
  | V_List elements, V_List otherElements =>
      if bool_decide (length elements ≠ length otherElements) then inr false
      else equalComponents 0 (Value_equal <$> elements) otherElements
  | V_Structure _ constructorName fields,
    V_Structure _ otherConstructorName otherFields =>
      if bool_decide (constructorName ≠ otherConstructorName) then inr false
      else equalFields (sortedKeys fields) (Value_equal <$> fields) otherFields
  | _, _ => inr false
  end.

(** The number of objects in a value, for induction on nested values. *)
Fixpoint Value_size (value : Value) : nat :=
  match value with
  | V_Integer _ | V_String _ => 1
  | V_Tuple values | V_List values =>
      S (foldr (λ component n, Value_size component + n) 0 values)
  | V_Structure _ _ fields =>
      S (map_fold (λ _ field n, Value_size field + n) 0 fields)
  end.

(** A descriptor of a field is registered when the table holds, under the
    constructor name of the descriptor, a declaration of that name with the
    field at the index of the descriptor, and the type of the descriptor as
    the type of the constructor. *)
Definition descriptorRegistered (st : SymbolTable) (fieldName : string)
  (descriptor : FieldDescriptor) : Prop :=
  inherited (fd_constructorName descriptor) = false
  ∧ ∃ declaration,
      _constructors st !! fd_constructorName descriptor = Some declaration
      ∧ cd_constructorName declaration = fd_constructorName descriptor
      ∧ cd_fieldNames declaration !! fd_index descriptor = Some fieldName
      ∧ _constructorType st !! fd_constructorName descriptor
        = Some (fd_typeName descriptor).

(** Every field has a descriptor, and the descriptors are registered. *)
Definition descriptorsRegistered (st : SymbolTable) : Prop :=
  ∀ fieldName descriptors,
    _fields st !! fieldName = Some descriptors →
    descriptors ≠ [] ∧ Forall (descriptorRegistered st fieldName) descriptors.

(** What the loop over the field names of a constructor keeps: the
    descriptors are registered, and the constructors are those of the table
    [st0] the loop began with. *)
Definition registeredWith (st0 st : SymbolTable) : Prop :=
  descriptorsRegistered st
  ∧ _constructors st = _constructors st0
  ∧ _constructorType st = _constructorType st0.

(** The structures inside the value, at any depth of tuples and lists, have
    no fields: integers, strings, the constants of enumerations, and the
    tuples and lists of these. *)
Fixpoint fieldless (value : Value) : bool :=
  match value with
  | V_Integer _ | V_String _ => true
  | V_Tuple values | V_List values => forallb fieldless values
  | V_Structure _ _ fields => bool_decide (fields = ∅)
  end.

(** ** The compiler and the code it holds

    [holding code c] is the compiler [c] with [code] before the code it
    holds.  A method is blind to the held code when it runs on
    [holding code c] as it runs on [c]: it throws the same exception, or
    returns the same value and leaves the same compiler, still holding
    [code] first. *)
Definition holding (code : Code) (c : Compiler) : Compiler :=
  {| _symtable := _symtable c;
     _code := code ++ _code c;
     _nextLabel := _nextLabel c;
     _nextVariable := _nextVariable c;
     _primitives := _primitives c |}.

Definition codeBlind {A : Type} (m : M A) : Prop :=
  ∀ code c,
    m (holding code c)
    = match m c with
      | inl e => inl e
      | inr (a, c') => inr (a, holding code c')
      end.

(** * Sample programs

    The inputs at which the theorems below are instantiated. *)

Definition pos0 : Position := mkPosition 1 1.

Definition samplePrimitives : RuntimePrimitives :=
  {| isProcedure := λ name, bool_decide (name ∈ ["Poner"; "Mover"; "_FAIL"]);
     isFunction := λ name,
       bool_decide (name ∈ [">"; "<"; "+"; "-"; "=="; "_unsafeListLength";
                            "_unsafeListNth"]) |}.

Definition sampleI18n (key : string) : string :=
  if bool_decide (key = "TYPE:Bool") then "Bool"
  else if bool_decide (key = "CONS:TIMEOUT") then "TIMEOUT"
  else key.

(** A symbol table with the type [Coord], of constructor [Coord] and fields
    [x] and [y], and the user-defined procedure [Avanzar]. *)
Definition sampleSymtable : SymbolTable :=
  {| _program := None;
     _procedures :=
       {[ "Avanzar" := DefProcedure pos0 pos0 "Avanzar" []
                         (StmtBlock pos0 pos0 []) ]};
     _functions := ∅;
     _types := ∅;
     _typeConstructors := {[ "Coord" := ["Coord"] ]};
     _constructors :=
       {[ "Coord" := mkConstructorDeclaration pos0 pos0 "Coord" ["x"; "y"] ]};
     _constructorType := {[ "Coord" := "Coord" ]};
     _constructorFields := {[ "Coord" := ["x"; "y"] ]};
     _fields :=
       {[ "x" := [mkFieldDescriptor "Coord" "Coord" 0];
          "y" := [mkFieldDescriptor "Coord" "Coord" 1] ]} |}.

Definition emptyBlock : Statement := StmtBlock pos0 pos0 [].

(** [repeat 3 { }] *)
Definition sampleRepeat : Statement :=
  StmtRepeat pos0 pos0 (ExprConstantNumber pos0 pos0 3) emptyBlock.

(** [foreach i in xs { y := i }] *)
Definition sampleForeach : Statement :=
  StmtForeach pos0 pos0 "i" (ExprVariable pos0 pos0 "xs")
    (StmtBlock pos0 pos0
       [StmtAssignVariable pos0 pos0 "y" (ExprVariable pos0 pos0 "i")]).

(** [switch (p) { Coord(a, b) -> { z := a }  (c, d) -> { }  _ -> { Poner(x) } }] *)
Definition sampleBranches : list SwitchBranch :=
  [SwitchBranchNode pos0 pos0 (PatternStructure pos0 pos0 "Coord" ["a"; "b"])
     (StmtBlock pos0 pos0
        [StmtAssignVariable pos0 pos0 "z" (ExprVariable pos0 pos0 "a")]);
   SwitchBranchNode pos0 pos0 (PatternTuple pos0 pos0 ["c"; "d"]) emptyBlock;
   SwitchBranchNode pos0 pos0 (PatternWildcard pos0 pos0)
     (StmtBlock pos0 pos0
        [StmtProcedureCall pos0 pos0 "Poner" [ExprVariable pos0 pos0 "x"]])].

Definition sampleSwitch : Statement :=
  StmtSwitch pos0 pos0 (ExprVariable pos0 pos0 "p") sampleBranches.

(** [program { while (b) { if (b) { sampleSwitch } else { sampleRepeat } }
    sampleForeach }] *)
Definition sampleProgram : Main :=
  MainNode pos0 pos0
    [DefProgram pos0 pos0
       (StmtBlock pos0 pos0
          [StmtWhile pos0 pos0 (ExprVariable pos0 pos0 "b")
             (StmtIf pos0 pos0 (ExprVariable pos0 pos0 "b")
                sampleSwitch (Some sampleRepeat));
           sampleForeach])].

(** [{ return (1) }] *)
Definition sampleReturnBlock : Statement :=
  StmtBlock pos0 pos0
    [StmtReturn pos0 pos0 (ExprConstantNumber pos0 pos0 1)].

Definition sampleRange : Expression :=
  ExprRange pos0 pos0 (ExprConstantNumber pos0 pos0 1) None
    (ExprConstantNumber pos0 pos0 10).

Definition sampleStructureUpdate : Expression :=
  ExprStructureUpdate pos0 pos0 "Coord" (ExprVariable pos0 pos0 "p")
    [FieldValueNode pos0 pos0 "x" (ExprConstantNumber pos0 pos0 1)].

(** A type definition and a procedure definition, and no program. *)
Definition sampleLibrary : Main :=
  MainNode pos0 pos0
    [DefType pos0 pos0 "Coord"
       [mkConstructorDeclaration pos0 pos0 "Coord" ["x"; "y"]];
     DefProcedure pos0 pos0 "Avanzar" [] emptyBlock].

(** An interactive program and a procedure, and no program. *)
Definition sampleInteractive : Main :=
  MainNode pos0 pos0
    [DefInteractiveProgram pos0 pos0
       [SwitchBranchNode pos0 pos0 (PatternTimeout pos0 pos0) emptyBlock];
     DefProcedure pos0 pos0 "Avanzar" [] emptyBlock].

(** [{ sampleSwitch sampleRepeat sampleForeach }] *)
Definition sampleBody : Statement :=
  StmtBlock pos0 pos0 [sampleSwitch; sampleRepeat; sampleForeach].

(** The position of the field name of an index, in the samples: one
    column further for each field. *)
Definition sampleFieldNamePos (declaration : ConstructorDeclaration)
  (index : nat) : Position :=
  mkPosition (posLine (cd_startPos declaration))
    (posColumn (cd_startPos declaration) + S index).

Definition sampleCoord : ConstructorDeclaration :=
  mkConstructorDeclaration (mkPosition 2 3) (mkPosition 2 20) "Coord"
    ["x"; "y"].

(** [type Coord is record { field x field y }] *)
Definition sampleType : Def := DefType pos0 pos0 "Coord" [sampleCoord].

(** The table once [sampleType] is defined in the empty table. *)
Definition sampleTypeTable : SymbolTable :=
  {| _program := None;
     _procedures := ∅;
     _functions := ∅;
     _types := {[ "Coord" := sampleType ]};
     _typeConstructors := {[ "Coord" := ["Coord"] ]};
     _constructors := {[ "Coord" := sampleCoord ]};
     _constructorType := {[ "Coord" := "Coord" ]};
     _constructorFields := {[ "Coord" := ["x"; "y"] ]};
     _fields :=
       {[ "x" := [mkFieldDescriptor "Coord" "Coord" 0];
          "y" := [mkFieldDescriptor "Coord" "Coord" 1] ]} |}.

Definition samplePunto : ConstructorDeclaration :=
  mkConstructorDeclaration (mkPosition 2 3) (mkPosition 2 20) "Punto"
    ["x"; "y"].

(** A variant type that declares the constructor [Punto] twice. *)
Definition sampleTwice : Def :=
  DefType pos0 pos0 "Forma"
    [samplePunto;
     mkConstructorDeclaration (mkPosition 3 3) (mkPosition 3 20) "Punto"
       ["r"]].

(** The table the failed definition of [sampleTwice] leaves. *)
Definition sampleTwiceTable : SymbolTable :=
  {| _program := None;
     _procedures := ∅;
     _functions := ∅;
     _types := {[ "Forma" := sampleTwice ]};
     _typeConstructors := ∅;
     _constructors := {[ "Punto" := samplePunto ]};
     _constructorType := {[ "Punto" := "Forma" ]};
     _constructorFields := {[ "Punto" := ["x"; "y"] ]};
     _fields :=
       {[ "x" := [mkFieldDescriptor "Forma" "Punto" 0];
          "y" := [mkFieldDescriptor "Forma" "Punto" 1] ]} |}.

Definition sampleProcedure : Def :=
  DefProcedure pos0 pos0 "Avanzar" [] emptyBlock.

Definition sampleProcedureAgain : Def :=
  DefProcedure (mkPosition 7 1) (mkPosition 9 1) "Avanzar" [] emptyBlock.

(** Decimal numerals, as one reading of [Integer] and of [toString]: a
    numeral is an optional minus sign and digits, and an integer is printed
    without leading zeros. *)
Definition sampleParseInteger (numeral : string) : option Z :=
  Z.of_int <$> DecimalString.NilZero.int_of_string numeral.

Definition samplePrintInteger (z : Z) : string :=
  DecimalString.NilZero.string_of_int (Z.to_int z).

Definition sampleInvalidInteger (numeral : string) : Exception :=
  Error ("Invalid integer: " +:+ numeral).

Definition sampleDivisionByZero : Exception := Error "Cannot divide by zero".

(** Structures of one constructor with fewer and more fields. *)
Definition sampleOrigin : Value := V_Structure "Coord" "Coord" ∅.

Definition sampleAbscissa : Value :=
  V_Structure "Coord" "Coord" {["x" := V_Integer (mkValueInteger "1")]}.

Definition samplePoint : Value :=
  V_Structure "Point" "Coord"
    (<["x" := V_Integer (mkValueInteger "1")]>
       {["y" := V_Tuple [V_String "a"; V_List []]]}).

(** A function with the name of the field [x]; a table that holds the type
    [Coord] and the function [norma]; a type whose constructor has the field
    [x] of [Coord] and a field with the name of the function; and a type
    whose constructor has a field with the name of a property of
    [Object.prototype]. *)
Definition sampleFieldFunction : Def :=
  DefFunction (mkPosition 5 1) (mkPosition 7 1) "x" [] emptyBlock.

Definition sampleFunction : Def :=
  DefFunction (mkPosition 9 1) (mkPosition 11 1) "norma" [] emptyBlock.

Definition sampleFunctionTable : SymbolTable :=
  with_functions {[ "norma" := sampleFunction ]} sampleTypeTable.

Definition sampleClashType : Def :=
  DefType (mkPosition 13 1) (mkPosition 15 1) "Vector"
    [mkConstructorDeclaration (mkPosition 14 3) (mkPosition 14 30) "Vector"
       ["x"; "norma"]].

Definition samplePrototypeType : Def :=
  DefType (mkPosition 17 1) (mkPosition 19 1) "Texto"
    [mkConstructorDeclaration (mkPosition 18 3) (mkPosition 18 30) "Texto"
       ["largo"; "toString"]].

(** * Refinement: the methods append the lowered sequence *)

Lemma advance_advance c o1 l1 v1 o2 l2 v2 :
  advance (advance c o1 l1 v1) o2 l2 v2
  = advance c (o1 ++ o2) (l1 + l2) (v1 + v2).
Proof.
  unfold advance; simpl. f_equal; [by rewrite app_assoc | lia | lia].
Qed.

Lemma advance_0 c : advance c [] 0 0 = c.
Proof.
  destruct c; unfold advance; simpl.
  by rewrite app_nil_r, !Nat.add_0_r.
Qed.

Lemma advance_eq c o l v o' l' v' :
  o = o' → l = l' → v = v' → advance c o l v = advance c o' l' v'.
Proof. by intros -> -> ->. Qed.

Lemma nextLabel_advance c o l v : _nextLabel (advance c o l v) = _nextLabel c + l.
Proof. done. Qed.

Lemma nextVariable_advance c o l v :
  _nextVariable (advance c o l v) = _nextVariable c + v.
Proof. done. Qed.

Lemma symtable_advance c o l v : _symtable (advance c o l v) = _symtable c.
Proof. done. Qed.

Lemma primitives_advance c o l v : _primitives (advance c o l v) = _primitives c.
Proof. done. Qed.

Lemma code_advance c o l v : _code (advance c o l v) = _code c ++ o.
Proof. done. Qed.

Lemma bind_inr {A B} (m : M A) (k : A → M B) c r :
  bind m k c = inr r → ∃ a c1, m c = inr (a, c1) ∧ k a c1 = inr r.
Proof.
  unfold bind. destruct (m c) as [e | [a c1]]; [done | eauto].
Qed.

Lemma bind_produce {B} sp ep op (k : unit → M B) c :
  bind (_produce sp ep op) k c = k tt (advance c (positioned sp ep [op]) 0 0).
Proof.
  unfold bind, _produce, advance, Code_produce; simpl.
  by rewrite !Nat.add_0_r.
Qed.

Lemma produce_advance sp ep op c :
  _produce sp ep op c = inr (tt, advance c (positioned sp ep [op]) 0 0).
Proof.
  unfold _produce, advance, Code_produce; simpl. by rewrite !Nat.add_0_r.
Qed.

Lemma produceList_advance sp ep ops c :
  _produceList sp ep ops c = inr (tt, advance c (positioned sp ep ops) 0 0).
Proof.
  unfold _produceList.
  revert c. induction ops as [| op ops IH]; intros c; simpl.
  - unfold ret. by rewrite advance_0.
  - rewrite bind_produce, IH. by rewrite advance_advance.
Qed.

Lemma bind_produceList {B} sp ep ops (k : unit → M B) c :
  bind (_produceList sp ep ops) k c
  = k tt (advance c (positioned sp ep ops) 0 0).
Proof. unfold bind. by rewrite produceList_advance. Qed.

Lemma freshLabel_advance c :
  _freshLabel c = inr (freshLabelName (_nextLabel c), advance c [] 1 0).
Proof.
  unfold _freshLabel, advance, freshLabelName; simpl.
  by rewrite app_nil_r, Nat.add_0_r, Nat.add_1_r.
Qed.

Lemma bind_freshLabel {B} (k : string → M B) c :
  bind _freshLabel k c = k (freshLabelName (_nextLabel c)) (advance c [] 1 0).
Proof. unfold bind. by rewrite freshLabel_advance. Qed.

Lemma freshVariable_advance c :
  _freshVariable c
  = inr (freshVariableName (_nextVariable c), advance c [] 0 1).
Proof.
  unfold _freshVariable, advance, freshVariableName; simpl.
  by rewrite app_nil_r, Nat.add_0_r, Nat.add_1_r.
Qed.

Lemma bind_freshVariable {B} (k : string → M B) c :
  bind _freshVariable k c
  = k (freshVariableName (_nextVariable c)) (advance c [] 0 1).
Proof. unfold bind. by rewrite freshVariable_advance. Qed.

Lemma bind_gets {A B} (f : Compiler → A) (k : A → M B) c :
  bind (gets f) k c = k (f c) c.
Proof. done. Qed.

Lemma bind_ret {A B} (a : A) (k : A → M B) c : bind (ret a) k c = k a c.
Proof. done. Qed.

Lemma bind_throw {A B} e (k : A → M B) c : bind (throw e) k c = inl e.
Proof. done. Qed.

Lemma bind_bind {A B C} (m : M A) (k : A → M B) (h : B → M C) c :
  bind (bind m k) h c = bind m (λ a, bind (k a) h) c.
Proof. unfold bind. by destruct (m c) as [? | [? ?]]. Qed.

Lemma constructorType_inr symtable name typeName :
  constructorType symtable name = inr typeName →
  typeOfConstructor symtable name = typeName.
Proof.
  unfold constructorType, typeOfConstructor.
  destruct (_ !! _); [simpl; congruence |]. by destruct (inherited name).
Qed.

Lemma constructorFields_inr symtable name fieldNames :
  constructorFields symtable name = inr fieldNames →
  fieldsOfConstructor symtable name = fieldNames.
Proof.
  unfold constructorFields, fieldsOfConstructor.
  destruct (_ !! _); [simpl; congruence |]. by destruct (inherited name).
Qed.

(** An induction principle that reaches the elements of the nested lists. *)
Lemma Expression_nested_ind (P : Expression → Prop) :
  (∀ sp ep x, P (ExprVariable sp ep x)) →
  (∀ sp ep n, P (ExprConstantNumber sp ep n)) →
  (∀ sp ep s, P (ExprConstantString sp ep s)) →
  (∀ sp ep es, Forall P es → P (ExprList sp ep es)) →
  (∀ sp ep e1 e2 e3, P (ExprRange sp ep e1 e2 e3)) →
  (∀ sp ep es, Forall P es → P (ExprTuple sp ep es)) →
  (∀ sp ep cn fbs,
     Forall (λ fb, match fb with FieldValueNode _ _ _ v => P v end) fbs →
     P (ExprStructure sp ep cn fbs)) →
  (∀ sp ep cn e fbs, P (ExprStructureUpdate sp ep cn e fbs)) →
  (∀ sp ep f es, Forall P es → P (ExprFunctionCall sp ep f es)) →
  ∀ e, P e.
Proof.
  intros HV HN HS HL HR HT HSt HU HF.
  fix IH 1. intros e.
  assert (HForall : ∀ es, Forall P es).
  { fix IHes 1. intros [| e' es]; constructor; [apply IH | apply IHes]. }
  destruct e as [ | | | | | | sp ep cn fbs | | ].
  - apply HV.
  - apply HN.
  - apply HS.
  - apply HL, HForall.
  - apply HR.
  - apply HT, HForall.
  - apply HSt. revert fbs. fix IHf 1.
    intros [| [? ? ? v] fbs]; constructor; [apply IH | apply IHf].
  - apply HU.
  - apply HF, HForall.
Qed.

Lemma forOf_expressions (f : Expression → M unit) es :
  Forall (λ e, ∀ c c', f e c = inr (tt, c') →
               c' = advance c (lowerExpression (_symtable c) e) 0 0
               ∧ callsPrimitiveFunctions (_primitives c) e = true) es →
  ∀ c c', forOf f es c = inr (tt, c') →
          c' = advance c (concat (map (lowerExpression (_symtable c)) es)) 0 0
          ∧ forallb (callsPrimitiveFunctions (_primitives c)) es = true.
Proof.
  induction 1 as [| e es He _ IH]; intros c c' Hrun; simpl in *.
  - unfold ret in Hrun. injection Hrun as <-. by rewrite advance_0.
  - apply bind_inr in Hrun as ([] & c1 & H1 & H2).
    apply He in H1 as [-> ->]. apply IH in H2 as [-> Hes].
    rewrite advance_advance. split; [by apply advance_eq | done].
Qed.

Lemma forOfPush_fieldBindings (f : Expression → M unit) fbs :
  Forall (λ fb, match fb with
                | FieldValueNode _ _ _ v =>
                    ∀ c c', f v c = inr (tt, c') →
                            c' = advance c (lowerExpression (_symtable c) v) 0 0
                            ∧ callsPrimitiveFunctions (_primitives c) v = true
                end) fbs →
  ∀ acc c names c',
    forOfPush (λ fb, match fb with
                     | FieldValueNode _ _ fieldName value =>
                         do _ <- f value; ret fieldName
                     end) fbs acc c = inr (names, c') →
    names = acc ++ map FieldValue_fieldName fbs
    ∧ c' = advance c
             (concat (map (λ fb, match fb with
                                 | FieldValueNode _ _ _ value =>
                                     lowerExpression (_symtable c) value
                                 end) fbs)) 0 0
    ∧ forallb (λ fb, match fb with
                     | FieldValueNode _ _ _ value =>
                         callsPrimitiveFunctions (_primitives c) value
                     end) fbs = true.
Proof.
  induction 1 as [| [sp ep name v] fbs He _ IH]; intros acc c names c' Hrun;
    simpl in *.
  - unfold ret in Hrun. injection Hrun as <- <-.
    by rewrite app_nil_r, advance_0.
  - apply bind_inr in Hrun as (name' & c1 & H1 & H2).
    apply bind_inr in H1 as ([] & c2 & H1 & H3).
    unfold ret in H3. injection H3 as <- <-.
    apply He in H1 as [-> ->]. apply IH in H2 as (-> & -> & Hfbs).
    rewrite advance_advance, <- app_assoc. split; [done |].
    split; [by apply advance_eq | done].
Qed.

(** A call of [_compileExpression] that returns has appended the lowered
    sequence and changed nothing else; every function the expression calls is
    a primitive function. *)
Lemma compileExpression_lower e :
  ∀ c c', _compileExpression e c = inr (tt, c') →
          c' = advance c (lowerExpression (_symtable c) e) 0 0
          ∧ callsPrimitiveFunctions (_primitives c) e = true.
Proof.
  induction e as [sp ep x | sp ep n | sp ep s | sp ep es IH | sp ep e1 e2 e3
                 | sp ep es IH | sp ep cn fbs IH | sp ep cn e0 fbs
                 | sp ep fn es IH] using Expression_nested_ind;
    intros c c' Hrun; simpl in Hrun.
  - unfold _compileExprVariable in Hrun.
    rewrite produce_advance in Hrun. by injection Hrun as <-.
  - unfold _compileExprConstantNumber in Hrun.
    rewrite produce_advance in Hrun. by injection Hrun as <-.
  - unfold _compileExprConstantString in Hrun.
    rewrite produce_advance in Hrun. by injection Hrun as <-.
  - unfold _compileExprList in Hrun.
    apply bind_inr in Hrun as ([] & c1 & H1 & H2).
    apply (forOf_expressions _ _ IH) in H1 as [-> Hes].
    rewrite produce_advance in H2. injection H2 as <-.
    by rewrite advance_advance.
  - unfold ret in Hrun. injection Hrun as <-. by rewrite advance_0.
  - unfold _compileExprTuple in Hrun.
    apply bind_inr in Hrun as ([] & c1 & H1 & H2).
    apply (forOf_expressions _ _ IH) in H1 as [-> Hes].
    rewrite produce_advance in H2. injection H2 as <-.
    by rewrite advance_advance.
  - unfold _compileExprStructure in Hrun.
    apply bind_inr in Hrun as (names & c1 & H1 & H2).
    apply (forOfPush_fieldBindings _ _ IH) in H1 as (-> & -> & Hfbs).
    rewrite bind_gets in H2.
    apply bind_inr in H2 as (typeName & c2 & H2 & H3).
    unfold lift in H2.
    destruct (constructorType _ cn) as [? | tn] eqn:Htn; [done |].
    injection H2 as <- <-. apply constructorType_inr in Htn as <-.
    rewrite produce_advance in H3. injection H3 as <-.
    by rewrite advance_advance.
  - unfold ret in Hrun. injection Hrun as <-. by rewrite advance_0.
  - unfold _compileExprFunctionCall in Hrun.
    destruct (_ || _); [done |].
    apply bind_inr in Hrun as ([] & c1 & H1 & H2).
    apply (forOf_expressions _ _ IH) in H1 as [-> Hes].
    rewrite !bind_gets in H2. rewrite primitives_advance in H2.
    destruct (isFunction _ fn) eqn:Hfn.
    + unfold _compileExprFunctionCallPrimitive in H2.
      rewrite produce_advance in H2. injection H2 as <-.
      simpl. rewrite Hfn, Hes. by rewrite advance_advance.
    + discriminate.
Qed.

Arguments freshLabelName : simpl never.
Arguments freshVariableName : simpl never.
Arguments _produce : simpl never.
Arguments _produceList : simpl never.
Arguments _freshLabel : simpl never.
Arguments _freshVariable : simpl never.
Arguments _compilePatternCheck : simpl never.
Arguments _compilePatternBind : simpl never.
Arguments _compilePatternUnbind : simpl never.

Lemma forOf_forIndexed {A} (f : A → M unit) i xs :
  forOf f xs = forIndexed (λ _, f) i xs.
Proof.
  revert i. induction xs as [| x xs IH]; intros i; simpl; [done |].
  by rewrite (IH (S i)).
Qed.

Lemma forIndexed_positioned {A} (f : nat → A → M unit) (g : nat → A → Code) :
  (∀ i x c, f i x c = inr (tt, advance c (g i x) 0 0)) →
  ∀ xs i c,
    forIndexed f i xs c
    = inr (tt, advance c (concat (imap (λ k, g (i + k)) xs)) 0 0).
Proof.
  intros Hf. induction xs as [| x xs IH]; intros i c; simpl.
  - unfold ret. by rewrite advance_0.
  - unfold bind. rewrite Hf, IH, advance_advance.
    do 2 f_equal. apply advance_eq; [| done | done].
    rewrite Nat.add_0_r. do 2 f_equal.
    apply imap_ext. intros k y _. simpl. f_equal. lia.
Qed.

Lemma forOf_positioned {A} (f : A → M unit) (g : A → Code) :
  (∀ x c, f x c = inr (tt, advance c (g x) 0 0)) →
  ∀ xs c, forOf f xs c = inr (tt, advance c (concat (map g xs)) 0 0).
Proof.
  intros Hf. induction xs as [| x xs IH]; intros c; simpl.
  - unfold ret. by rewrite advance_0.
  - unfold bind. by rewrite Hf, IH, advance_advance.
Qed.

Lemma forIndexed_lowerEach {A} (f : nat → A → M unit)
  (lower : SymbolTable → nat → A → nat → nat → Code) (lc vc : A → nat)
  (q : RuntimePrimitives → A → bool) xs :
  ∀ i c c',
    (∀ k x, xs !! k = Some x →
       ∀ c1 c2, f (i + k) x c1 = inr (tt, c2) →
         c2 = advance c1
                (lower (_symtable c1) (i + k) x
                   (_nextLabel c1) (_nextVariable c1))
                (lc x) (vc x)
         ∧ q (_primitives c1) x = true) →
    forIndexed f i xs c = inr (tt, c') →
    c' = advance c
           (lowerEach (lower (_symtable c)) lc vc i xs
              (_nextLabel c) (_nextVariable c))
           (sum_list (map lc xs)) (sum_list (map vc xs))
    ∧ forallb (q (_primitives c)) xs = true.
Proof.
  induction xs as [| x xs IH]; intros i c c' Hf Hrun; simpl in *.
  - unfold ret in Hrun. injection Hrun as <-. by rewrite advance_0.
  - apply bind_inr in Hrun as ([] & c1 & H1 & H2).
    pose proof (Hf 0 x eq_refl c c1) as Hx.
    rewrite Nat.add_0_r in Hx. apply Hx in H1 as [-> ->].
    apply IH in H2 as [-> Hxs].
    + by rewrite advance_advance.
    + intros k y Hk c2 c3. specialize (Hf (S k) y Hk c2 c3).
      by replace (i + S k) with (S i + k) in Hf by lia.
Qed.

(** *** Patterns *)

Lemma compilePatternCheck_lower i18n p target c c' :
  _compilePatternCheck i18n p target c = inr (tt, c') →
  c' = advance c (lowerPatternCheck i18n (_symtable c) p target) 0 0.
Proof.
  unfold _compilePatternCheck.
  destruct p as [sp ep | sp ep cn ps | sp ep ps | sp ep]; simpl; intros Hrun.
  - unfold _compilePatternCheckWildcard in Hrun.
    rewrite produce_advance in Hrun. by injection Hrun as <-.
  - unfold _compilePatternCheckStructure in Hrun.
    rewrite bind_gets in Hrun.
    apply bind_inr in Hrun as (tn & c1 & H1 & H2). unfold lift in H1.
    destruct (constructorType _ cn) as [? | tn'] eqn:Htn; [done |].
    injection H1 as <- <-. apply constructorType_inr in Htn as <-.
    rewrite bind_produce, produce_advance in H2. injection H2 as <-.
    by rewrite advance_advance.
  - unfold _compilePatternCheckTuple in Hrun.
    rewrite bind_produce, produce_advance in Hrun. injection Hrun as <-.
    by rewrite advance_advance.
  - unfold _compilePatternCheckTimeout in Hrun.
    rewrite produce_advance in Hrun. by injection Hrun as <-.
Qed.

Lemma bindStructure_loop sp ep parameters fieldNames :
  ∀ i c c',
    forIndexed
      (λ i fieldName,
         match parameters !! i with
         | Some parameter =>
             _produceList sp ep
               [IReadStructureField fieldName; ISetVariable parameter]
         | None =>
             throw (TypeError
               "Cannot read properties of undefined (reading 'value')")
         end) i fieldNames c = inr (tt, c') →
    c' = advance c
           (concat (zip_with
                      (λ fieldName parameter,
                         positioned sp ep
                           [IReadStructureField fieldName;
                            ISetVariable parameter])
                      fieldNames (drop i parameters))) 0 0.
Proof.
  induction fieldNames as [| fieldName fieldNames IH]; intros i c c' Hrun;
    simpl in Hrun.
  - unfold ret in Hrun. injection Hrun as <-. by rewrite advance_0.
  - apply bind_inr in Hrun as ([] & c1 & H1 & H2).
    destruct (parameters !! i) as [parameter |] eqn:Hi; [| done].
    rewrite produceList_advance in H1. injection H1 as <-.
    apply IH in H2 as ->.
    rewrite (drop_S _ _ _ Hi). simpl.
    by rewrite advance_advance.
Qed.

Lemma compilePatternBind_lower p c c' :
  _compilePatternBind p c = inr (tt, c') →
  c' = advance c (lowerPatternBind (_symtable c) p) 0 0.
Proof.
  unfold _compilePatternBind.
  destruct p as [sp ep | sp ep cn ps | sp ep ps | sp ep]; simpl; intros Hrun.
  - unfold ret in Hrun. injection Hrun as <-. by rewrite advance_0.
  - unfold _compilePatternBindStructure in Hrun.
    case_bool_decide as Hlen.
    + unfold ret in Hrun. injection Hrun as <-.
      destruct ps; [| done]. by rewrite zip_with_nil_r, advance_0.
    + rewrite bind_gets in Hrun.
      apply bind_inr in Hrun as (fns & c1 & H1 & H2). unfold lift in H1.
      destruct (constructorFields _ cn) as [? | fns'] eqn:Hfns; [done |].
      injection H1 as <- <-. apply constructorFields_inr in Hfns as <-.
      by apply bindStructure_loop in H2.
  - unfold _compilePatternBindTuple in Hrun.
    rewrite (forIndexed_positioned _
               (λ index parameter,
                  positioned sp ep
                    [IReadTupleComponent index; ISetVariable parameter]))
      in Hrun by (intros; apply produceList_advance).
    by injection Hrun as <-.
  - unfold ret in Hrun. injection Hrun as <-. by rewrite advance_0.
Qed.

Lemma compilePatternUnbind_lower p c :
  _compilePatternUnbind p c = inr (tt, advance c (lowerPatternUnbind p) 0 0).
Proof.
  unfold _compilePatternUnbind.
  destruct p as [sp ep | sp ep cn ps | sp ep ps | sp ep]; simpl.
  - unfold ret. by rewrite advance_0.
  - unfold _compilePatternUnbindStructure.
    by rewrite (forOf_positioned _
                  (λ parameter, positioned sp ep [IUnsetVariable parameter]))
      by (intros; apply produceList_advance).
  - unfold _compilePatternUnbindTuple.
    by rewrite (forOf_positioned _
                  (λ parameter, positioned sp ep [IUnsetVariable parameter]))
      by (intros; apply produceList_advance).
  - unfold ret. by rewrite advance_0.
Qed.

(** *** Statements *)

Lemma Statement_nested_ind (P : Statement → Prop) :
  (∀ sp ep ss, Forall P ss → P (StmtBlock sp ep ss)) →
  (∀ sp ep e, P (StmtReturn sp ep e)) →
  (∀ sp ep cond thn els,
     P thn → (∀ e, els = Some e → P e) → P (StmtIf sp ep cond thn els)) →
  (∀ sp ep t b, P b → P (StmtRepeat sp ep t b)) →
  (∀ sp ep i r b, P b → P (StmtForeach sp ep i r b)) →
  (∀ sp ep cond b, P b → P (StmtWhile sp ep cond b)) →
  (∀ sp ep subj bs,
     Forall (λ b, P (SwitchBranch_body b)) bs → P (StmtSwitch sp ep subj bs)) →
  (∀ sp ep x e, P (StmtAssignVariable sp ep x e)) →
  (∀ sp ep xs e, P (StmtAssignTuple sp ep xs e)) →
  (∀ sp ep p es, P (StmtProcedureCall sp ep p es)) →
  ∀ s, P s.
Proof.
  intros HB HR HI HRp HFe HW HSw HAv HAt HPc.
  fix IH 1. intros s.
  destruct s as [sp ep ss | | sp ep cond thn els | | | | sp ep subj bs | | | ].
  - apply HB. revert ss. fix IHss 1.
    intros [| s' ss]; constructor; [apply IH | apply IHss].
  - apply HR.
  - apply HI; [apply IH |].
    destruct els as [e' |]; intros e Heq; [| discriminate].
    injection Heq as <-. apply IH.
  - apply HRp, IH.
  - apply HFe, IH.
  - apply HW, IH.
  - apply HSw. revert bs. fix IHbs 1.
    intros [| [? ? ? body] bs]; constructor; [apply IH | apply IHbs].
  - apply HAv.
  - apply HAt.
  - apply HPc.
Qed.

Ltac eq_mod_arith := repeat first [ reflexivity | lia | progress f_equal ].

Ltac norm_state H :=
  rewrite ?advance_advance in H;
  rewrite ?nextLabel_advance, ?nextVariable_advance, ?symtable_advance,
    ?primitives_advance in H.

(** One step of a method whose next action is one of the helpers. *)
Ltac run_helper H :=
  first [ rewrite bind_produce in H
        | rewrite bind_produceList in H
        | rewrite bind_freshLabel in H
        | rewrite bind_freshVariable in H
        | rewrite bind_gets in H
        | rewrite produce_advance in H
        | rewrite produceList_advance in H ];
  norm_state H.

(** One step whose next action compiles an expression. *)
Ltac run_expression H :=
  let He := fresh "He" in
  let Hc := fresh "Hcalls" in
  first [ apply bind_inr in H as ([] & ? & He & H);
          apply compileExpression_lower in He as [-> Hc]
        | apply compileExpression_lower in H as [-> Hc] ];
  norm_state H.

Ltac solve_calls :=
  simpl; rewrite ?primitives_advance in *;
  repeat match goal with
         | H : _ = true |- _ => rewrite H; clear H
         end;
  done.

Ltac finish H :=
  injection H as <-;
  split;
  [ apply advance_eq;
    [ simpl;
      unfold repeatHeader, repeatFooter, foreachTemplate, switchFailure,
        typeBool;
      rewrite <- ?app_assoc; simpl; rewrite ?Nat.add_0_r; eq_mod_arith
    | simpl; lia
    | simpl; lia ]
  | solve_calls ].

Lemma switchChecks_lower i18n branches :
  ∀ acc c labels c',
    forOfPush
      (λ branch,
         do label <- _freshLabel;
         do _ <- _compilePatternCheck i18n (SwitchBranch_pattern branch) label;
         ret label)
      branches acc c = inr (labels, c') →
    labels
    = acc ++ imap (λ k _, freshLabelName (_nextLabel c + k)) branches
    ∧ c' = advance c
             (concat (imap (λ k b,
                              lowerPatternCheck i18n (_symtable c)
                                (SwitchBranch_pattern b)
                                (freshLabelName (_nextLabel c + k)))
                        branches))
             (length branches) 0.
Proof.
  induction branches as [| b bs IH]; intros acc c labels c' Hrun; simpl in Hrun.
  - unfold ret in Hrun. injection Hrun as <- <-.
    by rewrite app_nil_r, advance_0.
  - apply bind_inr in Hrun as (label & c1 & H1 & H2).
    rewrite bind_freshLabel in H1.
    apply bind_inr in H1 as ([] & c2 & H1 & H3).
    apply compilePatternCheck_lower in H1 as ->.
    unfold ret in H3. injection H3 as <- <-.
    apply IH in H2 as [-> ->].
    rewrite ?advance_advance, ?nextLabel_advance, ?symtable_advance.
    rewrite <- app_assoc. simpl. rewrite Nat.add_0_r. split.
    + do 2 f_equal. apply imap_ext. intros k y _. simpl. f_equal. lia.
    + apply advance_eq; [| lia | lia]. do 2 f_equal.
      apply imap_ext. intros k y _. simpl. do 2 f_equal. lia.
Qed.

(** A call of [_compileStatement] that returns has appended the lowered
    sequence and advanced the two counters by the numbers of labels and of
    synthetic variables the statement uses; every procedure and function it
    calls is a primitive. *)
Lemma compileStatement_lower i18n s :
  ∀ c c', _compileStatement i18n s c = inr (tt, c') →
          c' = advance c
                 (lowerStatement i18n (_symtable c) s
                    (_nextLabel c) (_nextVariable c))
                 (labelCount s) (variableCount s)
          ∧ callsPrimitives (_primitives c) s = true.
Proof.
  induction s as [sp ep ss IH | sp ep e | sp ep cond thn els IHt IHe
                 | sp ep t b IH | sp ep i r b IH | sp ep cond b IH
                 | sp ep subj bs IH | sp ep x e | sp ep xs e | sp ep p es]
    using Statement_nested_ind; intros c c' Hrun; simpl in Hrun.
  - (* block *)
    unfold _compileStmtBlock in Hrun.
    rewrite (forOf_forIndexed _ 0) in Hrun.
    apply (forIndexed_lowerEach _
             (λ symtable _ s', lowerStatement i18n symtable s')
             labelCount variableCount callsPrimitives) in Hrun;
      [done |].
    intros k s' Hk c1 c2. rewrite Forall_lookup in IH. by apply (IH k).
  - (* return *)
    unfold _compileStmtReturn in Hrun. run_expression Hrun. done.
  - (* if *)
    unfold _compileStmtIf in Hrun.
    run_expression Hrun. do 3 run_helper Hrun.
    apply bind_inr in Hrun as ([] & c1 & H1 & Hrun).
    apply IHt in H1 as [-> Ht]. norm_state Hrun.
    destruct els as [els |].
    + do 2 run_helper Hrun.
      apply bind_inr in Hrun as ([] & c1 & H1 & Hrun).
      apply (IHe els eq_refl) in H1 as [-> He']. norm_state Hrun.
      run_helper Hrun. finish Hrun.
    + run_helper Hrun. finish Hrun.
  - (* repeat *)
    unfold _compileStmtRepeat in Hrun.
    run_expression Hrun. do 4 run_helper Hrun.
    apply bind_inr in Hrun as ([] & c1 & H1 & Hrun).
    apply IH in H1 as [-> Hb]. norm_state Hrun.
    run_helper Hrun. finish Hrun.
  - (* foreach *)
    unfold _compileStmtForeach in Hrun.
    do 5 run_helper Hrun. run_expression Hrun. do 2 run_helper Hrun.
    apply bind_inr in Hrun as ([] & c1 & H1 & Hrun).
    apply IH in H1 as [-> Hb]. norm_state Hrun.
    run_helper Hrun. finish Hrun.
  - (* while *)
    unfold _compileStmtWhile in Hrun.
    do 3 run_helper Hrun. run_expression Hrun. run_helper Hrun.
    apply bind_inr in Hrun as ([] & c1 & H1 & Hrun).
    apply IH in H1 as [-> Hb]. norm_state Hrun.
    run_helper Hrun. finish Hrun.
  - (* switch *)
    unfold _compileStmtSwitch in Hrun.
    run_expression Hrun.
    apply bind_inr in Hrun as (labels & c1 & H1 & Hrun).
    apply switchChecks_lower in H1 as [-> ->]. norm_state Hrun.
    do 2 run_helper Hrun.
    apply bind_inr in Hrun as ([] & c1 & H1 & Hrun).
    apply (forIndexed_lowerEach _
             (λ symtable i b nl' nv',
                switchBranchCode symtable
                  (freshLabelName (_nextLabel c + i))
                  (freshLabelName (_nextLabel c + length bs)) b
                  (lowerStatement i18n symtable (SwitchBranch_body b) nl' nv'))
             (λ b, labelCount (SwitchBranch_body b))
             (λ b, variableCount (SwitchBranch_body b))
             (λ primitives b, callsPrimitives primitives (SwitchBranch_body b)))
      in H1.
    + destruct H1 as [-> Hbs]. norm_state Hrun. run_helper Hrun.
      finish Hrun.
    + intros k [bsp bep pat body] Hk c0 c2 Hb. simpl in Hb.
      rewrite list_lookup_imap, Hk in Hb. simpl in Hb.
      run_helper Hb.
      apply bind_inr in Hb as ([] & c3 & H3 & Hb).
      apply compilePatternBind_lower in H3 as ->. norm_state Hb.
      run_helper Hb.
      apply bind_inr in Hb as ([] & c3 & H3 & Hb).
      rewrite Forall_lookup in IH. apply (IH k _ Hk) in H3 as [-> Hbody].
      norm_state Hb.
      apply bind_inr in Hb as ([] & c3 & H3 & Hb).
      rewrite compilePatternUnbind_lower in H3. injection H3 as <-.
      norm_state Hb. run_helper Hb.
      unfold switchBranchCode. finish Hb.
  - (* assignment *)
    unfold _compileStmtAssignVariable in Hrun.
    run_expression Hrun. run_helper Hrun. finish Hrun.
  - (* tuple assignment *)
    unfold _compileStmtAssignTuple in Hrun.
    run_expression Hrun. run_helper Hrun.
    apply bind_inr in Hrun as ([] & c1 & H1 & Hrun).
    rewrite (forIndexed_positioned _
               (λ index variable,
                  positioned sp ep
                    [IReadTupleComponent index; ISetVariable variable]))
      in H1 by (intros; apply produceList_advance).
    injection H1 as <-. norm_state Hrun. run_helper Hrun. finish Hrun.
  - (* procedure call *)
    unfold _compileStmtProcedureCall in Hrun.
    apply bind_inr in Hrun as ([] & c1 & H1 & Hrun).
    apply (forOf_expressions _ es) in H1 as [-> Hes];
      [| apply Forall_forall; intros; by apply compileExpression_lower].
    run_helper Hrun.
    destruct (isProcedure _ p) eqn:Hp; [| done].
    unfold _compileStmtProcedureCallPrimitive in Hrun.
    run_helper Hrun. finish Hrun.
Qed.

(** *** The top level *)

Lemma forOf_nothing {A} (f : A → M unit) xs c :
  (∀ x c, f x c = inr (tt, c)) → forOf f xs c = inr (tt, c).
Proof.
  intros Hf. induction xs as [| x xs IH]; simpl; [done |].
  unfold bind. by rewrite Hf.
Qed.

Lemma compileMain_lower i18n ast c c' :
  _compileMain i18n ast c = inr (tt, c') →
  ∃ labels variables,
    c' = advance c
           (match ast with
            | MainNode sp ep definitions =>
                if bool_decide (length definitions = 0)
                then positioned sp ep [IReturn]
                else lowerEach (λ _, lowerDefinition i18n (_symtable c))
                       Def_labelCount Def_variableCount 0 definitions
                       (_nextLabel c) (_nextVariable c)
            end) labels variables.
Proof.
  destruct ast as [sp ep defs]. simpl. case_bool_decide as Hlen; intros Hrun.
  - run_helper Hrun. injection Hrun as <-. by exists 0, 0.
  - apply bind_inr in Hrun as ([] & c1 & H1 & Hrun).
    rewrite (forOf_forIndexed _ 0) in H1.
    apply (forIndexed_lowerEach _
             (λ symtable _, lowerDefinition i18n symtable)
             Def_labelCount Def_variableCount (λ _ _, true)) in H1.
    + destruct H1 as [-> _].
      rewrite forOf_nothing in Hrun by (by intros [] ?).
      injection Hrun as <-. eauto.
    + intros k d Hk c1' c2 Hd. split; [| done].
      destruct d as [dsp dep body | | | | ]; simpl in *;
        try (unfold _compileInteractiveProgram, ret in Hd;
             injection Hd as <-; by rewrite advance_0).
      unfold _compileProgram in Hd.
      apply bind_inr in Hd as ([] & c3 & H3 & Hd).
      apply compileStatement_lower in H3 as [-> _].
      run_helper Hd. injection Hd as <-. by apply advance_eq; [| lia | lia].
Qed.

Lemma compileFresh_lower i18n primitives symtable ast code :
  compileFresh i18n primitives symtable ast = inr code →
  code = lowerMain i18n symtable ast.
Proof.
  unfold compileFresh, compile. intros Hrun.
  destruct (bind _ _ _) as [? | [code' c']] eqn:Hc; [done |].
  injection Hrun as ->.
  apply bind_inr in Hc as ([] & c1 & H1 & Hc).
  apply compileMain_lower in H1 as (l & v & ->).
  unfold gets in Hc. injection Hc as <- _.
  by destruct ast.
Qed.

(** * The claims *)

Ltac same_state :=
  apply advance_eq;
  [ rewrite <- ?app_assoc; simpl; rewrite ?Nat.add_0_r, ?app_nil_r;
    eq_mod_arith
  | simpl; lia
  | simpl; lia ].

(** ** The top-level driver *)

(** C8 — Empty program: for every AST whose list of definitions is empty,
    whatever its positions, the symbol table and the catalogs, a fresh
    compiler returns a code of exactly one instruction, [Return], whose
    [startPos] and [endPos] are those of the root of the AST. *)
Theorem empty_program_lone_return
  (i18n : string → string) (primitives : RuntimePrimitives)
  (symtable : SymbolTable) (startPos endPos : Position) :
  compileFresh i18n primitives symtable (MainNode startPos endPos [])
  = inr [mkInstruction IReturn startPos endPos].
Proof. reflexivity. Qed.

Lemma forOf_nothing_Forall {A} (f : A → M unit) xs c :
  Forall (λ x, ∀ c, f x c = inr (tt, c)) xs → forOf f xs c = inr (tt, c).
Proof.
  induction 1 as [| x xs Hx _ IH]; simpl; [done |].
  unfold bind. by rewrite Hx.
Qed.

(** C10 — For every AST whose list of definitions is not empty and holds no
    [Program] and no [InteractiveProgram] definition, a fresh compiler does
    not throw and returns the empty code: no instruction at all, so no
    [Return] either. *)
Theorem no_program_no_code
  (i18n : string → string) (primitives : RuntimePrimitives)
  (symtable : SymbolTable) (startPos endPos : Position)
  (definitions : list Def) :
  definitions ≠ [] →
  Forall (λ d, isProgramDef d = false) definitions →
  compileFresh i18n primitives symtable (MainNode startPos endPos definitions)
  = inr [].
Proof.
  intros Hne Hdefs. unfold compileFresh, compile, _compileMain.
  case_bool_decide as Hlen; [by destruct definitions |].
  unfold bind.
  rewrite forOf_nothing_Forall.
  - rewrite forOf_nothing_Forall; [done |].
    apply Forall_forall. by intros [] _ c.
  - eapply Forall_impl; [exact Hdefs |].
    by intros [] Hd c.
Qed.

Lemma no_program_no_code_witness :
  compileFresh sampleI18n samplePrimitives sampleSymtable sampleLibrary
  = inr [].
Proof.
  apply (no_program_no_code sampleI18n samplePrimitives sampleSymtable
           pos0 pos0).
  - discriminate.
  - repeat constructor.
Defined.

(** ** Determinism *)

(** *** The methods do not read the code the compiler holds *)

Lemma codeBlind_ret {A} (a : A) : codeBlind (ret a).
Proof. done. Qed.

Lemma codeBlind_throw {A} e : codeBlind (throw (A := A) e).
Proof. done. Qed.

Lemma codeBlind_bind {A B} (m : M A) (k : A → M B) :
  codeBlind m → (∀ a, codeBlind (k a)) → codeBlind (bind m k).
Proof.
  intros Hm Hk code c. unfold bind. rewrite Hm.
  destruct (m c) as [e | [a c']]; [done |]. apply Hk.
Qed.

Lemma codeBlind_lift {A} (r : Exception + A) : codeBlind (lift r).
Proof. intros code c. unfold lift. by destruct r. Qed.

Lemma codeBlind_gets_symtable : codeBlind (gets _symtable).
Proof. done. Qed.

Lemma codeBlind_gets_primitives : codeBlind (gets _primitives).
Proof. done. Qed.

Lemma codeBlind_forOf {A} (f : A → M unit) xs :
  Forall (λ x, codeBlind (f x)) xs → codeBlind (forOf f xs).
Proof.
  induction 1 as [| x xs Hx _ IH]; simpl; [apply codeBlind_ret |].
  apply codeBlind_bind; [done | by intros []].
Qed.

Lemma codeBlind_forIndexed {A} (f : nat → A → M unit) xs :
  Forall (λ x, ∀ i, codeBlind (f i x)) xs →
  ∀ i, codeBlind (forIndexed f i xs).
Proof.
  induction 1 as [| x xs Hx _ IH]; intros i; simpl; [apply codeBlind_ret |].
  apply codeBlind_bind; [done | by intros []].
Qed.

Lemma codeBlind_forOfPush {A B} (f : A → M B) xs :
  Forall (λ x, codeBlind (f x)) xs →
  ∀ acc, codeBlind (forOfPush f xs acc).
Proof.
  induction 1 as [| x xs Hx _ IH]; intros acc; simpl; [apply codeBlind_ret |].
  apply codeBlind_bind; [done | intros b; apply IH].
Qed.

Lemma codeBlind_produce sp ep op : codeBlind (_produce sp ep op).
Proof.
  intros code c. unfold _produce, holding, Code_produce. simpl.
  by rewrite app_assoc.
Qed.

Lemma codeBlind_produceList sp ep ops : codeBlind (_produceList sp ep ops).
Proof.
  apply codeBlind_forOf, Forall_forall. intros op _. apply codeBlind_produce.
Qed.

Lemma codeBlind_freshLabel : codeBlind _freshLabel.
Proof. done. Qed.

Lemma codeBlind_freshVariable : codeBlind _freshVariable.
Proof. done. Qed.

Ltac blind_step :=
  lazymatch goal with
  | H : codeBlind ?m |- codeBlind ?m => exact H
  | |- codeBlind (ret _) => apply codeBlind_ret
  | |- codeBlind (throw _) => apply codeBlind_throw
  | |- codeBlind (lift _) => apply codeBlind_lift
  | |- codeBlind (gets _symtable) => apply codeBlind_gets_symtable
  | |- codeBlind (gets _primitives) => apply codeBlind_gets_primitives
  | |- codeBlind (_produce _ _ _) => apply codeBlind_produce
  | |- codeBlind (_produceList _ _ _) => apply codeBlind_produceList
  | |- codeBlind _freshLabel => apply codeBlind_freshLabel
  | |- codeBlind _freshVariable => apply codeBlind_freshVariable
  | |- codeBlind (bind _ _) => apply codeBlind_bind; [| intros ?]
  | |- codeBlind (if ?b then _ else _) => destruct b
  | |- codeBlind (match ?x with _ => _ end) => destruct x
  end.

Ltac blind := repeat blind_step.

Lemma codeBlind_expression e : codeBlind (_compileExpression e).
Proof.
  induction e as [| | | sp ep es IH | | sp ep es IH | sp ep cn fbs IH |
                  | sp ep f es IH] using Expression_nested_ind;
    simpl;
    unfold _compileExprVariable, _compileExprConstantNumber,
      _compileExprConstantString, _compileExprList, _compileExprTuple,
      _compileExprStructure, _compileExprFunctionCall,
      _compileExprFunctionCallPrimitive;
    blind.
  - by apply codeBlind_forOf.
  - by apply codeBlind_forOf.
  - apply codeBlind_forOfPush. eapply Forall_impl; [exact IH |].
    intros [fsp fep f v] Hv. blind.
  - by apply codeBlind_forOf.
Qed.

Lemma codeBlind_patternCheck i18n pattern targetLabel :
  codeBlind (_compilePatternCheck i18n pattern targetLabel).
Proof.
  unfold _compilePatternCheck, _compilePatternCheckWildcard,
    _compilePatternCheckStructure, _compilePatternCheckTuple,
    _compilePatternCheckTimeout.
  blind.
Qed.

Lemma codeBlind_patternBind pattern : codeBlind (_compilePatternBind pattern).
Proof.
  unfold _compilePatternBind, _compilePatternBindStructure,
    _compilePatternBindTuple.
  blind; apply codeBlind_forIndexed, Forall_forall; intros x _ i; blind.
Qed.

Lemma codeBlind_patternUnbind pattern :
  codeBlind (_compilePatternUnbind pattern).
Proof.
  unfold _compilePatternUnbind, _compilePatternUnbindStructure,
    _compilePatternUnbindTuple.
  blind; apply codeBlind_forOf, Forall_forall; intros x _; blind.
Qed.

Lemma codeBlind_statement i18n s : codeBlind (_compileStatement i18n s).
Proof.
  pose proof codeBlind_expression as Hexpression.
  pose proof (codeBlind_patternCheck i18n) as Hcheck.
  pose proof codeBlind_patternBind as Hbind.
  pose proof codeBlind_patternUnbind as Hunbind.
  induction s as [sp ep ss IH | sp ep e | sp ep cond thn els IHthn IHels
                 | sp ep t b IH | sp ep i r b IH | sp ep cond b IH
                 | sp ep subj bs IH | sp ep x e | sp ep xs e | sp ep p es]
    using Statement_nested_ind; simpl.
  - unfold _compileStmtBlock. by apply codeBlind_forOf.
  - unfold _compileStmtReturn. apply Hexpression.
  - unfold _compileStmtIf. blind; try apply Hexpression.
    by apply IHels.
  - unfold _compileStmtRepeat. blind; apply Hexpression.
  - unfold _compileStmtForeach. blind; apply Hexpression.
  - unfold _compileStmtWhile. blind; apply Hexpression.
  - unfold _compileStmtSwitch. blind; try apply Hexpression.
    + apply codeBlind_forOfPush, Forall_forall. intros b _. blind.
      apply Hcheck.
    + apply codeBlind_forIndexed. eapply Forall_impl; [exact IH |].
      intros [bsp bep pattern body] Hbody i. simpl in Hbody.
      blind; first [apply Hbind | apply Hunbind].
  - unfold _compileStmtAssignVariable. blind; apply Hexpression.
  - unfold _compileStmtAssignTuple. blind; try apply Hexpression.
    all: try (apply codeBlind_forIndexed, Forall_forall; intros y _ j; blind).
    all: try (apply codeBlind_forOf, Forall_forall; intros y _; blind).
  - unfold _compileStmtProcedureCall, _compileStmtProcedureCallPrimitive.
    blind. apply codeBlind_forOf, Forall_forall. intros y _. apply Hexpression.
Qed.

Lemma codeBlind_main i18n ast : codeBlind (_compileMain i18n ast).
Proof.
  destruct ast as [sp ep definitions]. unfold _compileMain.
  blind; apply codeBlind_forOf, Forall_forall; intros d _.
  - destruct d; try apply codeBlind_ret.
    + unfold _compileProgram. blind. apply codeBlind_statement.
  - destruct d; apply codeBlind_ret.
Qed.

Lemma compile_holding i18n ast code c :
  compile i18n ast (holding code c)
  = match compile i18n ast c with
    | inl e => inl e
    | inr (code', c') => inr (code ++ code', holding code c')
    end.
Proof.
  unfold compile, bind. rewrite codeBlind_main.
  by destruct (_compileMain i18n ast c) as [e | [[] c']].
Qed.

Lemma holding_held c :
  holding (_code c)
    {| _symtable := _symtable c; _code := []; _nextLabel := _nextLabel c;
       _nextVariable := _nextVariable c; _primitives := _primitives c |}
  = c.
Proof. destruct c. unfold holding. simpl. by rewrite app_nil_r. Qed.

(** C9 — Determinism.  The outcome of [compile] depends on the compiler
    object through its symbol table, its catalog of primitives and its two
    counters only, and not on the code the object holds: two compiler
    objects that agree on these four throw the same exception, or return the
    code they held followed by the same emitted sequence, and leave the same
    counters.  So two compiler objects as the constructor leaves them (no
    code, both counters at 0), over the same symbol table and catalog, each
    compiling the same AST once, have the same outcome: the same exception,
    or the same code, which is the lowering of the AST with the labels and
    the synthetic variables numbered from 0 and the positions of the
    nodes. *)
Theorem fresh_compilers_agree
  (i18n : string → string) (ast : Main) (c1 c2 : Compiler) :
  _symtable c1 = _symtable c2 → _primitives c1 = _primitives c2 →
  _nextLabel c1 = _nextLabel c2 → _nextVariable c1 = _nextVariable c2 →
  (∀ e, compile i18n ast c1 = inl e → compile i18n ast c2 = inl e)
  ∧ (∀ code1 c1',
       compile i18n ast c1 = inr (code1, c1') →
       ∃ out c2',
         code1 = _code c1 ++ out
         ∧ compile i18n ast c2 = inr (_code c2 ++ out, c2')
         ∧ _nextLabel c2' = _nextLabel c1'
         ∧ _nextVariable c2' = _nextVariable c1')
  ∧ (isFresh c1 → isFresh c2 →
     compileOn i18n c1 ast = compileOn i18n c2 ast
     ∧ ∀ code, compileOn i18n c1 ast = inr code →
               code = lowerMain i18n (_symtable c1) ast).
Proof.
  intros Hs Hp Hl Hv.
  set (c0 := {| _symtable := _symtable c1; _code := [];
                _nextLabel := _nextLabel c1;
                _nextVariable := _nextVariable c1;
                _primitives := _primitives c1 |}).
  assert (compile i18n ast c1
          = match compile i18n ast c0 with
            | inl e => inl e
            | inr (code', c') => inr (_code c1 ++ code', holding (_code c1) c')
            end) as H1.
  { rewrite <- compile_holding. by rewrite holding_held. }
  assert (compile i18n ast c2
          = match compile i18n ast c0 with
            | inl e => inl e
            | inr (code', c') => inr (_code c2 ++ code', holding (_code c2) c')
            end) as H2.
  { rewrite <- compile_holding. f_equal. unfold c0.
    rewrite Hs, Hp, Hl, Hv. by rewrite holding_held. }
  split_and!.
  - intros e. rewrite H1, H2.
    by destruct (compile i18n ast c0) as [e0 | [code' c']].
  - intros code1 c1'. rewrite H1, H2.
    destruct (compile i18n ast c0) as [e0 | [code' c']]; [done |].
    intros [= <- <-]. by exists code', (holding (_code c2) c').
  - intros (Hcode1 & Hl1 & Hv1) (Hcode2 & Hl2 & Hv2). split.
    + unfold compileOn. rewrite H1, H2, Hcode1, Hcode2.
      by destruct (compile i18n ast c0) as [e0 | [code' c']].
    + intros code Hrun. clear H1 H2 Hs Hp Hl Hv. clear c0.
      destruct c1 as [s k l v p]. simpl in Hcode1, Hl1, Hv1 |- *.
      subst k l v. exact (compileFresh_lower i18n p s ast code Hrun).
Qed.

Lemma fresh_compilers_agree_witness :
  let c1 := Compiler_new samplePrimitives sampleSymtable in
  let c2 := holding (positioned pos0 pos0 [IPop]) c1 in
  let emitted := lowerMain sampleI18n sampleSymtable sampleProgram in
  compileOn sampleI18n c1 sampleProgram = inr emitted
  ∧ compileOn sampleI18n c2 sampleProgram
    = inr (positioned pos0 pos0 [IPop] ++ emitted).
Proof.
  intros c1 c2 emitted.
  destruct (compile sampleI18n sampleProgram c1) as [e | [code1 c1']] eqn:Hrun;
    [vm_compute in Hrun; discriminate Hrun |].
  destruct (fresh_compilers_agree sampleI18n sampleProgram c1 c2)
    as (_ & Hheld & Hfresh); try reflexivity.
  destruct (fresh_compilers_agree sampleI18n sampleProgram c1 c1)
    as (_ & _ & Hnew); try reflexivity.
  destruct Hnew as [_ Hlowered]; [by repeat split | by repeat split |].
  destruct (Hheld code1 c1' Hrun) as (out & c2' & Hcode1 & Hrun2 & _).
  simpl in Hcode1. subst code1.
  assert (compileOn sampleI18n c1 sampleProgram = inr out) as Hon.
  { unfold compileOn. by rewrite Hrun. }
  pose proof (Hlowered out Hon) as Hout. fold emitted in Hout. subst out.
  split; [exact Hon |]. unfold compileOn. by rewrite Hrun2.
Defined.

(** The counters belong to the compiler object and [compile] does not reset
    them: a second compilation on the same object goes on from the code and
    the counters the first one left. *)
Lemma compile_twice_accumulates :
  ∃ c1 code1 c2 code2,
    compile sampleI18n
      (MainNode pos0 pos0 [DefProgram pos0 pos0 sampleRepeat])
      (Compiler_new samplePrimitives sampleSymtable) = inr (code1, c1)
    ∧ compile sampleI18n
        (MainNode pos0 pos0 [DefProgram pos0 pos0 sampleRepeat]) c1
      = inr (code2, c2)
    ∧ labels code1 = ["_l0"; "_l1"]
    ∧ labels code2 = ["_l0"; "_l1"; "_l2"; "_l3"].
Proof. do 4 eexists. by vm_compute. Qed.

(** ** Unimplemented constructs *)

(** C7 — What the compiler does on the constructs it does not lower.  A
    [FunctionCall] of [&&] or [||] throws the error "short-circuiting not
    implemented".  An expression tagged [Range] or [StructureUpdate] does not
    throw: the call returns and the compiler is left as it was, nothing
    emitted. *)
Theorem range_and_structureUpdate_emit_nothing :
  (∀ sp ep first second last c,
     _compileExpression (ExprRange sp ep first second last) c = inr (tt, c))
  ∧ (∀ sp ep constructorName original fieldBindings c,
       _compileExpression
         (ExprStructureUpdate sp ep constructorName original fieldBindings) c
       = inr (tt, c))
  ∧ (∀ sp ep args c,
       _compileExpression (ExprFunctionCall sp ep "&&" args) c
       = inl (Error "short-circuiting not implemented")
       ∧ _compileExpression (ExprFunctionCall sp ep "||" args) c
         = inl (Error "short-circuiting not implemented")).
Proof. by repeat split. Qed.

(** ** Procedure calls *)

(** C4 — The dispatch of a call of a procedure that is not a primitive.
    Called without arguments on a compiler with the sample catalog and symbol
    table, the user-defined procedure [Avanzar] and the undefined procedure
    [Foo] both end in the [ReferenceError] of the unbound identifier
    [functionName]: neither the "not implemented" error nor the "undefined
    procedure" error is thrown.  A primitive procedure is lowered to a
    [PrimitiveCall] with the number of arguments, after the arguments. *)
Theorem procedureCall_not_primitive_throws_ReferenceError :
  let c := Compiler_new samplePrimitives sampleSymtable in
  _procedures sampleSymtable !! "Avanzar" ≠ None
  ∧ _compileStatement sampleI18n (StmtProcedureCall pos0 pos0 "Avanzar" []) c
    = inl (ReferenceError "functionName is not defined")
  ∧ _procedures sampleSymtable !! "Foo" = None
  ∧ _compileStatement sampleI18n (StmtProcedureCall pos0 pos0 "Foo" []) c
    = inl (ReferenceError "functionName is not defined")
  ∧ _compileStatement sampleI18n
      (StmtProcedureCall pos0 pos0 "Poner" [ExprVariable pos0 pos0 "x"]) c
    = inr (tt, advance c
                 (positioned pos0 pos0
                    [IPushVariable "x"; IPrimitiveCall "Poner" 1]) 0 0).
Proof. by vm_compute. Qed.

(** X10 — Whatever the symbol table says of the name, a call of a procedure
    that is not a primitive procedure of the catalog, whose arguments
    compile, ends in the [ReferenceError] of the unbound identifier
    [functionName]. *)
Lemma procedureCall_not_primitive i18n sp ep procedureName args c c1 :
  forOf _compileExpression args c = inr (tt, c1) →
  isProcedure (_primitives c) procedureName = false →
  _compileStatement i18n (StmtProcedureCall sp ep procedureName args) c
  = inl (ReferenceError "functionName is not defined").
Proof.
  intros Hargs Hp. simpl. unfold _compileStmtProcedureCall, bind.
  rewrite Hargs. unfold gets.
  assert (_primitives c1 = _primitives c) as ->.
  { apply (forOf_expressions _ args) in Hargs as [-> _]; [done |].
    apply Forall_forall. intros; by apply compileExpression_lower. }
  by rewrite Hp.
Qed.

(** ** Repeat *)

(** C6 — Repeat lowering.  A [Repeat] statement of times expression [T] and
    body [B] that compiles has appended exactly: what compiling [T] appends;
    [TypeCheck(Integer)]; [Label L_start], [Dup], [PushInteger(0)],
    [PrimitiveCall(">", 2)], [JumpIfFalse L_end]; what compiling [B] appends
    (from the state reached there, two labels allocated); [PushInteger(1)],
    [PrimitiveCall("-", 2)], [Jump L_start], [Label L_end], [Pop].  And the
    program [program { repeat 3 { } }] compiles to the thirteen instructions
    of the scenario, with the labels [_l0] and [_l1]. *)
Theorem repeat_lowering (i18n : string → string) :
  (∀ c c' sp ep times body,
     _compileStatement i18n (StmtRepeat sp ep times body) c = inr (tt, c') →
     ∃ timesCode bodyCode labels variables,
       let labelStart := freshLabelName (_nextLabel c) in
       let labelEnd := freshLabelName (_nextLabel c + 1) in
       let prologue :=
         timesCode
         ++ positioned (Expression_startPos times) (Expression_endPos times)
              [ITypeCheck TypeInteger]
         ++ positioned sp ep
              [ILabel labelStart; IDup; IPushInteger 0;
               IPrimitiveCall ">" 2; IJumpIfFalse labelEnd] in
       _compileExpression times c = inr (tt, advance c timesCode 0 0)
       ∧ _compileStatement i18n body (advance c prologue 2 0)
         = inr (tt, advance (advance c prologue 2 0)
                      bodyCode labels variables)
       ∧ c' = advance c
                (prologue ++ bodyCode
                 ++ positioned sp ep
                      [IPushInteger 1; IPrimitiveCall "-" 2;
                       IJump labelStart; ILabel labelEnd; IPop])
                (2 + labels) variables)
  ∧ (∀ primitives symtable,
       ∃ code,
         compileFresh i18n primitives symtable
           (MainNode pos0 pos0
              [DefProgram pos0 pos0 (StmtBlock pos0 pos0 [sampleRepeat])])
         = inr code
         ∧ opcode <$> code
           = [IPushInteger 3; ITypeCheck TypeInteger; ILabel "_l0"; IDup;
              IPushInteger 0; IPrimitiveCall ">" 2; IJumpIfFalse "_l1";
              IPushInteger 1; IPrimitiveCall "-" 2; IJump "_l0";
              ILabel "_l1"; IPop; IReturn]).
Proof.
  split.
  2: { intros primitives symtable.
       exists (positioned pos0 pos0
                 [IPushInteger 3; ITypeCheck TypeInteger; ILabel "_l0"; IDup;
                  IPushInteger 0; IPrimitiveCall ">" 2; IJumpIfFalse "_l1";
                  IPushInteger 1; IPrimitiveCall "-" 2; IJump "_l0";
                  ILabel "_l1"; IPop; IReturn]).
       split; by vm_compute. }
  intros c c' sp ep times body Hrun. simpl in Hrun.
  unfold _compileStmtRepeat in Hrun.
  apply bind_inr in Hrun as ([] & c1 & Htimes & Hrun).
  pose proof Htimes as Hc1. apply compileExpression_lower in Hc1 as [-> _].
  do 4 run_helper Hrun.
  apply bind_inr in Hrun as ([] & c2 & Hbody & Hrun).
  pose proof Hbody as Hc2. apply compileStatement_lower in Hc2 as [-> _].
  norm_state Hrun. run_helper Hrun. injection Hrun as <-.
  exists (lowerExpression (_symtable c) times),
    (lowerStatement i18n (_symtable c) body (_nextLabel c + 2)
       (_nextVariable c)),
    (labelCount body), (variableCount body).
  cbv zeta. split; [exact Htimes |].
  match type of Hbody with
  | _ _ _ ?st = _ =>
      match goal with
      | |- _ _ _ ?st' = _ ∧ _ =>
          assert (st = st') as Hst by same_state
      end
  end.
  rewrite Hst in Hbody. split.
  - rewrite Hbody.
    by rewrite symtable_advance, nextLabel_advance, nextVariable_advance,
         Nat.add_0_r.
  - same_state.
Qed.

Lemma repeat_lowering_witness :
  let c := Compiler_new samplePrimitives sampleSymtable in
  ∃ timesCode bodyCode labels variables,
    let labelStart := freshLabelName (_nextLabel c) in
    let labelEnd := freshLabelName (_nextLabel c + 1) in
    let prologue :=
      timesCode
      ++ positioned pos0 pos0 [ITypeCheck TypeInteger]
      ++ positioned pos0 pos0
           [ILabel labelStart; IDup; IPushInteger 0;
            IPrimitiveCall ">" 2; IJumpIfFalse labelEnd] in
    _compileExpression (ExprConstantNumber pos0 pos0 3) c
    = inr (tt, advance c timesCode 0 0)
    ∧ _compileStatement sampleI18n emptyBlock (advance c prologue 2 0)
      = inr (tt, advance (advance c prologue 2 0) bodyCode labels variables)
    ∧ advance c
        (positioned pos0 pos0
           [IPushInteger 3; ITypeCheck TypeInteger; ILabel "_l0"; IDup;
            IPushInteger 0; IPrimitiveCall ">" 2; IJumpIfFalse "_l1";
            IPushInteger 1; IPrimitiveCall "-" 2; IJump "_l0";
            ILabel "_l1"; IPop]) 2 0
      = advance c
          (prologue ++ bodyCode
           ++ positioned pos0 pos0
                [IPushInteger 1; IPrimitiveCall "-" 2;
                 IJump labelStart; ILabel labelEnd; IPop])
          (2 + labels) variables.
Proof.
  intros c.
  apply (proj1 (repeat_lowering sampleI18n) c
           (advance c
              (positioned pos0 pos0
                 [IPushInteger 3; ITypeCheck TypeInteger; ILabel "_l0"; IDup;
                  IPushInteger 0; IPrimitiveCall ">" 2; IJumpIfFalse "_l1";
                  IPushInteger 1; IPrimitiveCall "-" 2; IJump "_l0";
                  ILabel "_l1"; IPop]) 2 0)
           pos0 pos0 (ExprConstantNumber pos0 pos0 3) emptyBlock).
  vm_compute. reflexivity.
Defined.

(** ** Fresh names *)

Lemma freshLabelName_inj : Inj (=) (=) freshLabelName.
Proof.
  intros n m Heq. unfold freshLabelName in Heq.
  cbn [String.append] in Heq. injection Heq as Heq. by apply (inj pretty).
Qed.

Lemma freshVariableName_inj : Inj (=) (=) freshVariableName.
Proof.
  intros n m Heq. unfold freshVariableName in Heq.
  cbn [String.append] in Heq. injection Heq as Heq. by apply (inj pretty).
Qed.

(** ** Foreach *)

Lemma foreachTemplate_end sp ep index range rangeCode bodyCode
  labelStart labelEnd list n pos :
  ∃ before,
    foreachTemplate sp ep index range rangeCode bodyCode
      labelStart labelEnd list n pos
    = before
      ++ positioned sp ep
           [ILabel labelEnd; IUnsetVariable list; IUnsetVariable n;
            IUnsetVariable pos; IUnsetVariable index].
Proof.
  unfold foreachTemplate.
  exists (rangeCode
          ++ positioned (Expression_startPos range) (Expression_endPos range)
               [ITypeCheck (TypeList TypeAny); ISetVariable list;
                IPushVariable list; IPrimitiveCall "_unsafeListLength" 1;
                ISetVariable n]
          ++ positioned sp ep
               [IPushInteger 0; ISetVariable pos; ILabel labelStart;
                IPushVariable pos; IPushVariable n; IPrimitiveCall "<" 2;
                IJumpIfFalse labelEnd; IPushVariable list; IPushVariable pos;
                IPrimitiveCall "_unsafeListNth" 2; ISetVariable index]
          ++ bodyCode
          ++ positioned sp ep
               [IPushVariable pos; IPushInteger 1; IPrimitiveCall "+" 2;
                ISetVariable pos; IJump labelStart]).
  by rewrite <- !app_assoc.
Qed.

(** C5 (as amended) — Foreach synthetic-name allocation.  A [Foreach]
    statement that compiles has allocated its three synthetic variables in
    the order list, position, length: with the variable counter at [v] when
    the statement is reached, [_v(v)] is the list, [_v(v+1)] the position and
    [_v(v+2)] the length.  The emitted sequence is the foreach template in
    these names (so the [SetVariable]s read [_v(v)], [_v(v+2)], [_v(v+1)] in
    this order), the three names are pairwise distinct, and the sequence ends
    with the end label followed by the [UnsetVariable] of the list, of the
    length, of the position and of the user index. *)
Theorem foreach_allocation (i18n : string → string)
  (c c' : Compiler) (sp ep : Position) (index : string)
  (range : Expression) (body : Statement) :
  _compileStatement i18n (StmtForeach sp ep index range body) c
  = inr (tt, c') →
  foreachShape i18n c c' sp ep index range body 0 2 1.
Proof.
  intros Hrun.
  pose proof (compileStatement_lower _ _ _ _ Hrun) as [Hc' _].
  simpl in Hrun. unfold _compileStmtForeach in Hrun.
  rewrite !bind_freshLabel, !bind_freshVariable in Hrun.
  apply bind_inr in Hrun as ([] & c1 & Hrange & Hrun).
  match type of Hrange with _ ?st = _ => remember st as cr eqn:Hcr end.
  pose proof (compileExpression_lower _ _ _ Hrange) as [Hc1 _].
  rewrite !bind_produceList in Hrun.
  apply bind_inr in Hrun as ([] & c2 & Hbody & _).
  match type of Hbody with _ _ _ ?st = _ => remember st as cb eqn:Hcb end.
  pose proof (compileStatement_lower _ _ _ _ Hbody) as [Hc2 _].
  assert (_symtable cr = _symtable c ∧ _nextLabel cr = _nextLabel c + 2
          ∧ _nextVariable cr = _nextVariable c + 3) as (Hsr & Hlr & Hvr).
  { subst cr. simpl. split_and!; [done | lia | lia]. }
  assert (_symtable cb = _symtable c ∧ _nextLabel cb = _nextLabel c + 2
          ∧ _nextVariable cb = _nextVariable c + 3) as (Hsb & Hlb & Hvb).
  { subst cb c1. simpl. rewrite Hsr, Hlr, Hvr. split_and!; [done | lia | lia]. }
  exists (lowerExpression (_symtable c) range),
    (lowerStatement i18n (_symtable c) body
       (_nextLabel c + 2) (_nextVariable c + 3)),
    (labelCount body), (variableCount body), cr, cb.
  rewrite Hc'. simpl lowerStatement. rewrite Nat.add_0_r.
  split_and!; try done.
  - by rewrite Hrange, Hc1, Hsr.
  - by rewrite Hbody, Hc2, Hsb, Hlb, Hvb.
  - rewrite !NoDup_cons. split_and!; [| | | apply NoDup_nil_2].
    + rewrite !elem_of_cons, elem_of_nil.
      intros [H | [H | []]]; apply (inj freshVariableName) in H; lia.
    + rewrite !elem_of_cons, elem_of_nil.
      intros [H | []]; apply (inj freshVariableName) in H; lia.
    + apply not_elem_of_nil.
  - rewrite code_advance.
    match goal with
    | |- context [foreachTemplate ?a ?b ?d ?e ?f ?g ?h ?i ?j ?k ?l] =>
        destruct (foreachTemplate_end a b d e f g h i j k l) as [before ->]
    end.
    exists (_code c ++ before). by rewrite app_assoc.
Qed.

Lemma foreach_allocation_witness :
  let c := Compiler_new samplePrimitives sampleSymtable in
  let c' := advance c (lowerStatement sampleI18n sampleSymtable sampleForeach 0 0)
              2 3 in
  foreachShape sampleI18n c c' pos0 pos0 "i" (ExprVariable pos0 pos0 "xs")
    (StmtBlock pos0 pos0
       [StmtAssignVariable pos0 pos0 "y" (ExprVariable pos0 pos0 "i")])
    0 2 1.
Proof.
  intros c c'. apply foreach_allocation. vm_compute. reflexivity.
Defined.

(** C5 (as stated) fails: on [foreach i in xs { y := i }], compiled by a
    fresh compiler, the emitted sequence is not the foreach template with
    [_v0] as the list, [_v1] as the length and [_v2] as the position. *)
Lemma foreach_names_counterexample :
  let c := Compiler_new samplePrimitives sampleSymtable in
  ∃ c',
    _compileStatement sampleI18n sampleForeach c = inr (tt, c')
    ∧ ¬ foreachShape sampleI18n c c' pos0 pos0 "i"
          (ExprVariable pos0 pos0 "xs")
          (StmtBlock pos0 pos0
             [StmtAssignVariable pos0 pos0 "y" (ExprVariable pos0 pos0 "i")])
          0 1 2.
Proof.
  intros c.
  exists (advance c (lowerStatement sampleI18n sampleSymtable sampleForeach 0 0)
            2 3).
  split; [by vm_compute |].
  intros (rangeCode & bodyCode & lb & vb & cr & cb
          & _ & _ & Hrange & _ & _ & _ & Hc' & _).
  simpl in Hrange. unfold _compileExprVariable in Hrange.
  rewrite produce_advance in Hrange. injection Hrange as Hrange.
  apply app_inv_head in Hrange. subst rangeCode.
  apply (f_equal _code) in Hc'. rewrite !code_advance in Hc'.
  apply app_inv_head in Hc'.
  apply (f_equal (λ code, opcode <$> code !! 5)) in Hc'.
  vm_compute in Hc'. discriminate.
Qed.

(** ** Switch *)

Lemma switchBranches_runs i18n (branchLabels : list string)
  (labelEnd : string) bs :
  ∀ i c c',
    forIndexed
      (λ i branch,
         match branch with
         | SwitchBranchNode bsp bep pattern body =>
             match branchLabels !! i with
             | Some label =>
                 do _ <- _produce bsp bep (ILabel label);
                 do _ <- _compilePatternBind pattern;
                 do _ <- _produce bsp bep IPop;
                 do _ <- _compileStatement i18n body;
                 do _ <- _compilePatternUnbind pattern;
                 _produce bsp bep (IJump labelEnd)
             | None => throw (TypeError "branchLabels[i] is undefined")
             end
         end) i bs c = inr (tt, c') →
    Forall2
      (λ b bodyCode,
         ∃ cb labels variables,
           _symtable cb = _symtable c
           ∧ _nextLabel c ≤ _nextLabel cb
           ∧ _compileStatement i18n (SwitchBranch_body b) cb
             = inr (tt, advance cb bodyCode labels variables))
      bs (bodyCodes i18n (_symtable c) bs (_nextLabel c) (_nextVariable c)).
Proof.
  induction bs as [| [bsp bep pattern body] bs IH]; intros i c c' Hrun;
    simpl in Hrun; [constructor |].
  apply bind_inr in Hrun as ([] & c1 & Hb & Hrest).
  destruct (branchLabels !! i) as [label |]; [| done].
  rewrite bind_produce in Hb.
  apply bind_inr in Hb as ([] & c2 & Hbind & Hb).
  apply compilePatternBind_lower in Hbind as ->.
  rewrite bind_produce in Hb.
  apply bind_inr in Hb as ([] & c3 & Hbody & Hb).
  match type of Hbody with _ _ _ ?st = _ => remember st as cb eqn:Hcb end.
  pose proof (compileStatement_lower _ _ _ _ Hbody) as [Hc3 _].
  apply bind_inr in Hb as ([] & c4 & Hunbind & Hb).
  rewrite compilePatternUnbind_lower in Hunbind. injection Hunbind as <-.
  rewrite produce_advance in Hb. injection Hb as <-.
  assert (_symtable cb = _symtable c ∧ _nextLabel cb = _nextLabel c
          ∧ _nextVariable cb = _nextVariable c) as (Hs & Hl & Hv).
  { subst cb. simpl. by rewrite !Nat.add_0_r. }
  rewrite Hs, Hl, Hv in Hc3. simpl.
  constructor.
  - exists cb, (labelCount body), (variableCount body).
    split_and!; [done | lia |]. simpl. by rewrite Hbody, Hc3.
  - apply IH in Hrest. subst c3. simpl in Hrest.
    rewrite !Nat.add_0_r, Hs, Hl, Hv in Hrest.
    eapply Forall2_impl; [exact Hrest |].
    intros b code (cb' & lb & vb & Hs' & Hl' & Hrun').
    exists cb', lb, vb. split_and!; [done | lia | done].
Qed.

Lemma lowerEach_bodyCodes i18n symtable (n0 : nat) (labelEnd : string) bs :
  ∀ i nl nv,
    lowerEach
      (λ i b nl' nv',
         switchBranchCode symtable (freshLabelName (n0 + i)) labelEnd b
           (lowerStatement i18n symtable (SwitchBranch_body b) nl' nv'))
      (λ b, labelCount (SwitchBranch_body b))
      (λ b, variableCount (SwitchBranch_body b)) i bs nl nv
    = concat (imap (λ k bb,
                      switchBranchCode symtable (freshLabelName (n0 + (i + k)))
                        labelEnd bb.1 bb.2)
                (zip bs (bodyCodes i18n symtable bs nl nv))).
Proof.
  induction bs as [| b bs IH]; intros i nl nv; simpl; [done |].
  rewrite IH, Nat.add_0_r. do 3 f_equal.
  apply imap_ext. intros k bb _. simpl. do 2 f_equal. lia.
Qed.

(** C3 — Switch lowering.  A [Switch] statement that compiles has appended:
    what compiling the subject appends, once; for each branch in source order
    the check of its pattern, whose only jump goes to the fresh label of the
    branch and which pops nothing; then, after all the checks and whatever
    the patterns are, the failure sequence, [PushString] of the
    switch-does-not-match message and [PrimitiveCall("_FAIL", 1)]; then for
    each branch in order its label, the bind sequence of the pattern, [Pop],
    what compiling the body appends, the unbind sequence and [Jump] to the
    end label; finally the end label.  The labels of the branches and the
    end label are pairwise distinct. *)
Theorem switch_lowering (i18n : string → string)
  (c c' : Compiler) (sp ep : Position) (subject : Expression)
  (branches : list SwitchBranch) :
  _compileStatement i18n (StmtSwitch sp ep subject branches) c
  = inr (tt, c') →
  switchShape i18n c c' sp ep subject branches.
Proof.
  intros Hrun.
  pose proof (compileStatement_lower _ _ _ _ Hrun) as [Hc' _].
  simpl in Hrun. unfold _compileStmtSwitch in Hrun.
  apply bind_inr in Hrun as ([] & c1 & Hsubject & Hrun).
  pose proof (compileExpression_lower _ _ _ Hsubject) as [Hc1 _].
  apply bind_inr in Hrun as (branchLabels & c2 & Hchecks & Hrun).
  pose proof (switchChecks_lower _ _ _ _ _ _ Hchecks) as [_ Hc2].
  rewrite bind_produceList, bind_freshLabel in Hrun.
  apply bind_inr in Hrun as ([] & c3 & Hbodies & _).
  apply switchBranches_runs in Hbodies.
  assert (_symtable (advance (advance c2 (positioned sp ep
             [IPushString (i18n "errmsg:switch-does-not-match");
              IPrimitiveCall "_FAIL" 1]) 0 0) [] 1 0) = _symtable c
          ∧ _nextLabel (advance (advance c2 (positioned sp ep
             [IPushString (i18n "errmsg:switch-does-not-match");
              IPrimitiveCall "_FAIL" 1]) 0 0) [] 1 0)
            = _nextLabel c + length branches + 1
          ∧ _nextVariable (advance (advance c2 (positioned sp ep
             [IPushString (i18n "errmsg:switch-does-not-match");
              IPrimitiveCall "_FAIL" 1]) 0 0) [] 1 0)
            = _nextVariable c) as (Hs & Hl & Hv).
  { subst c2 c1. simpl. split_and!; [done | lia | lia]. }
  rewrite Hs, Hl, Hv in Hbodies.
  unfold switchShape.
  exists (lowerExpression (_symtable c) subject),
    (bodyCodes i18n (_symtable c) branches
       (_nextLabel c + length branches + 1) (_nextVariable c)).
  split_and!.
  - by rewrite Hsubject, Hc1.
  - eapply Forall2_impl; [exact Hbodies |].
    intros b code (cb & lb & vb & Hs' & Hl' & Hrun').
    exists cb, lb, vb. by rewrite Hs'.
  - rewrite Hc', code_advance. simpl lowerStatement.
    rewrite lowerEach_bodyCodes. unfold switchFailure. by simpl.
  - apply NoDup_cons. split.
    + rewrite list_elem_of_fmap. intros (i & Heq & Hin).
      apply (inj freshLabelName) in Heq. apply elem_of_seq in Hin. lia.
    + apply NoDup_fmap_2; [| apply NoDup_seq].
      intros i j Heq. apply (inj freshLabelName) in Heq. lia.
  - intros i b _. by destruct (SwitchBranch_pattern b).
Qed.

Lemma switch_lowering_witness :
  let c := Compiler_new samplePrimitives sampleSymtable in
  let c' := advance c (lowerStatement sampleI18n sampleSymtable sampleSwitch 0 0)
              4 0 in
  switchShape sampleI18n c c' pos0 pos0 (ExprVariable pos0 pos0 "p")
    sampleBranches.
Proof.
  intros c c'. apply switch_lowering. vm_compute. reflexivity.
Defined.

(** ** Labels *)

Lemma labels_app a b : labels (a ++ b) = labels a ++ labels b.
Proof. apply omap_app. Qed.

Lemma jumpTargets_app a b : jumpTargets (a ++ b) = jumpTargets a ++ jumpTargets b.
Proof. apply omap_app. Qed.

Lemma noControl_labels code : noControl code → labels code = [].
Proof.
  induction 1 as [| i code [Hl _] _ IH]; [done |].
  unfold labels in *. simpl. by rewrite Hl.
Qed.

Lemma noControl_jumpTargets code : noControl code → jumpTargets code = [].
Proof.
  induction 1 as [| i code [_ Hj] _ IH]; [done |].
  unfold jumpTargets in *. simpl. by rewrite Hj.
Qed.

Lemma noControl_app a b : noControl a → noControl b → noControl (a ++ b).
Proof. unfold noControl. rewrite Forall_app. tauto. Qed.

Lemma noControl_concat codes : Forall noControl codes → noControl (concat codes).
Proof.
  induction 1 as [| code codes Hc _ IH]; simpl; [constructor |].
  by apply noControl_app.
Qed.

Lemma noControl_lowerExpression symtable e :
  noControl (lowerExpression symtable e).
Proof.
  induction e as [sp ep x | sp ep n | sp ep s | sp ep es IH | sp ep e1 e2 e3
                 | sp ep es IH | sp ep cn fbs IH | sp ep cn e0 fbs
                 | sp ep fn es IH] using Expression_nested_ind; simpl;
    try (by repeat constructor);
    apply noControl_app; try (by repeat constructor);
    apply noControl_concat, Forall_fmap;
    (eapply Forall_impl; [exact IH |]); by intros [].
Qed.

Lemma noControl_lowerPatternBind symtable p :
  noControl (lowerPatternBind symtable p).
Proof.
  destruct p as [sp ep | sp ep cn ps | sp ep ps | sp ep]; simpl;
    try constructor.
  - apply noControl_concat, Forall_forall. intros code Hin.
    apply elem_of_lookup_zip_with in Hin as (i & x & y & -> & _).
    by repeat constructor.
  - apply noControl_concat, Forall_forall. intros code Hin.
    apply elem_of_lookup_imap in Hin as (i & x & -> & _).
    by repeat constructor.
Qed.

Lemma noControl_lowerPatternUnbind p : noControl (lowerPatternUnbind p).
Proof.
  destruct p as [sp ep | sp ep cn ps | sp ep ps | sp ep]; simpl;
    try constructor;
    apply noControl_concat, Forall_fmap, Forall_forall;
    intros; by repeat constructor.
Qed.

Lemma freshLabels_app nl a b :
  freshLabels nl (a + b) = freshLabels nl a ++ freshLabels (nl + a) b.
Proof. unfold freshLabels. by rewrite seq_app, fmap_app. Qed.

Lemma freshLabels_S nl a :
  freshLabels nl (S a) = freshLabelName nl :: freshLabels (S nl) a.
Proof. done. Qed.

Lemma NoDup_freshLabels nl a : NoDup (freshLabels nl a).
Proof. apply (NoDup_fmap_2 _), NoDup_seq. Qed.

Lemma elem_of_freshLabels l nl a :
  l ∈ freshLabels nl a ↔ ∃ k, l = freshLabelName k ∧ nl ≤ k < nl + a.
Proof.
  unfold freshLabels. rewrite list_elem_of_fmap.
  by setoid_rewrite elem_of_seq.
Qed.

Arguments freshLabels : simpl never.

Lemma freshLabels_1 nl : freshLabels nl 1 = [freshLabelName nl].
Proof. done. Qed.

Lemma freshLabels_2 nl :
  freshLabels nl 2 = [freshLabelName nl; freshLabelName (nl + 1)].
Proof. unfold freshLabels. simpl. by rewrite Nat.add_1_r. Qed.

Lemma labels_lowerExpression symtable e : labels (lowerExpression symtable e) = [].
Proof. apply noControl_labels, noControl_lowerExpression. Qed.

Lemma jumpTargets_lowerExpression symtable e :
  jumpTargets (lowerExpression symtable e) = [].
Proof. apply noControl_jumpTargets, noControl_lowerExpression. Qed.

Lemma labels_concat_nil codes :
  Forall (λ code, labels code = []) codes → labels (concat codes) = [].
Proof.
  induction 1 as [| code codes Hc _ IH]; simpl; [done |].
  by rewrite labels_app, Hc, IH.
Qed.

Lemma jumpTargets_concat_nil codes :
  Forall (λ code, jumpTargets code = []) codes → jumpTargets (concat codes) = [].
Proof.
  induction 1 as [| code codes Hc _ IH]; simpl; [done |].
  by rewrite jumpTargets_app, Hc, IH.
Qed.

Lemma labels_expressions symtable (es : list Expression) :
  labels (concat (map (lowerExpression symtable) es)) = [].
Proof.
  apply labels_concat_nil, Forall_fmap, Forall_forall.
  intros e _. apply labels_lowerExpression.
Qed.

Lemma jumpTargets_expressions symtable (es : list Expression) :
  jumpTargets (concat (map (lowerExpression symtable) es)) = [].
Proof.
  apply jumpTargets_concat_nil, Forall_fmap, Forall_forall.
  intros e _. apply jumpTargets_lowerExpression.
Qed.

Lemma labels_lowerPatternCheck i18n symtable p target :
  labels (lowerPatternCheck i18n symtable p target) = [].
Proof. by destruct p. Qed.

Lemma jumpTargets_lowerPatternCheck i18n symtable p target :
  jumpTargets (lowerPatternCheck i18n symtable p target) = [target].
Proof. by destruct p. Qed.

Lemma labelsWithin_nil lo hi : labelsWithin [] lo hi.
Proof. intros l Hl. by apply elem_of_nil in Hl. Qed.

Lemma labelsWithin_app a b lo hi :
  labelsWithin a lo hi → labelsWithin b lo hi → labelsWithin (a ++ b) lo hi.
Proof. intros Ha Hb l [Hl | Hl]%elem_of_app; auto. Qed.

Lemma labelsWithin_cons k a lo hi :
  lo ≤ k < hi → labelsWithin a lo hi →
  labelsWithin (freshLabelName k :: a) lo hi.
Proof. intros Hk Ha l [-> | Hl]%elem_of_cons; [eauto | auto]. Qed.

Lemma labelsWithin_mono a lo hi lo' hi' :
  labelsWithin a lo hi → lo' ≤ lo → hi ≤ hi' → labelsWithin a lo' hi'.
Proof.
  intros Ha Hlo Hhi l Hl. destruct (Ha l Hl) as (k & -> & Hk).
  exists k. split; [done | lia].
Qed.

Lemma labels_switchChecks i18n symtable n0 bs :
  labels (concat (imap (λ i b,
                          lowerPatternCheck i18n symtable
                            (SwitchBranch_pattern b) (freshLabelName (n0 + i)))
                    bs)) = [].
Proof.
  apply labels_concat_nil, Forall_forall. intros code Hin.
  apply elem_of_lookup_imap in Hin as (i & b & -> & _).
  apply labels_lowerPatternCheck.
Qed.

Lemma jumpTargets_switchChecks i18n symtable n0 bs :
  labelsWithin
    (jumpTargets (concat (imap (λ i b,
                                  lowerPatternCheck i18n symtable
                                    (SwitchBranch_pattern b)
                                    (freshLabelName (n0 + i)))
                            bs)))
    n0 (n0 + length bs).
Proof.
  revert n0. induction bs as [| b bs IH]; intros n0; simpl;
    [apply labelsWithin_nil |].
  rewrite jumpTargets_app, jumpTargets_lowerPatternCheck. simpl.
  rewrite Nat.add_0_r. apply labelsWithin_cons; [lia |].
  apply (labelsWithin_mono _ (S n0) (S n0 + length bs)); [| lia | lia].
  erewrite imap_ext; [apply (IH (S n0)) |].
  intros i y _. simpl. do 2 f_equal. lia.
Qed.

Lemma labels_lowerEach {A} (lower : nat → A → nat → nat → Code)
  (lc vc : A → nat) (own : nat → list string) xs :
  Forall (λ x, ∀ i nl nv,
            labels (lower i x nl nv) ≡ₚ own i ++ freshLabels nl (lc x)) xs →
  ∀ i nl nv,
    labels (lowerEach lower lc vc i xs nl nv)
    ≡ₚ concat (own <$> seq i (length xs))
       ++ freshLabels nl (sum_list (map lc xs)).
Proof.
  induction 1 as [| x xs Hx _ IH]; intros i nl nv; simpl; [done |].
  rewrite labels_app, Hx, IH, freshLabels_app. solve_Permutation.
Qed.

Lemma jumpTargets_lowerEach {A} (lower : nat → A → nat → nat → Code)
  (lc vc : A → nat) (lo start : nat) xs :
  Forall (λ x, ∀ i nl nv, start ≤ nl →
            labelsWithin (jumpTargets (lower i x nl nv)) lo (nl + lc x)) xs →
  ∀ i nl nv, start ≤ nl →
    labelsWithin (jumpTargets (lowerEach lower lc vc i xs nl nv))
      lo (nl + sum_list (map lc xs)).
Proof.
  induction 1 as [| x xs Hx _ IH]; intros i nl nv Hlo; simpl;
    [apply labelsWithin_nil |].
  rewrite jumpTargets_app. apply labelsWithin_app.
  - apply (labelsWithin_mono _ lo (nl + lc x)); [by apply Hx | lia | lia].
  - apply (labelsWithin_mono _ lo (nl + lc x + sum_list (map lc xs)));
      [apply IH; lia | lia | lia].
Qed.

Lemma concat_own_labels n0 i len :
  concat ((λ i, [freshLabelName (n0 + i)]) <$> seq i len)
  = freshLabels (n0 + i) len.
Proof.
  revert i. induction len as [| len IH]; intros i; simpl; [done |].
  rewrite IH, freshLabels_S. do 2 f_equal. lia.
Qed.

Lemma concat_fmap_nil {A B} (l : list A) :
  concat ((λ _, @nil B) <$> l) = [].
Proof. by induction l. Qed.

Ltac labels_step :=
  rewrite ?labels_app, ?jumpTargets_app, ?labels_lowerExpression,
    ?jumpTargets_lowerExpression, ?labels_expressions,
    ?jumpTargets_expressions.

Lemma labels_lowerStatement i18n symtable s :
  ∀ nl nv,
    labels (lowerStatement i18n symtable s nl nv)
    ≡ₚ freshLabels nl (labelCount s).
Proof.
  induction s as [sp ep ss IH | sp ep e | sp ep cond thn els IHt IHe
                 | sp ep t b IH | sp ep i r b IH | sp ep cond b IH
                 | sp ep subj bs IH | sp ep x e | sp ep xs e | sp ep p es]
    using Statement_nested_ind; intros nl nv.
  - cbn [lowerStatement labelCount].
    rewrite (labels_lowerEach _ _ _ (λ _, [])).
    + by rewrite concat_fmap_nil.
    + eapply Forall_impl; [exact IH |]. intros s' Hs' _ nl' nv'.
      simpl in *. apply Hs'.
  - cbn [lowerStatement]. by labels_step.
  - destruct els as [els |]; cbn [lowerStatement]; labels_step; simpl.
    + rewrite IHt, (IHe els eq_refl).
      replace (S (S (labelCount thn + labelCount els)))
        with (1 + (labelCount thn + (1 + labelCount els))) by lia.
      rewrite !freshLabels_app, !freshLabels_1. solve_Permutation.
    + rewrite IHt.
      change (S (labelCount thn)) with (1 + labelCount thn).
      rewrite freshLabels_app, freshLabels_1. solve_Permutation.
  - cbn [lowerStatement]. unfold repeatHeader, repeatFooter.
    labels_step. simpl. rewrite IH.
    change (S (S (labelCount b))) with (2 + labelCount b).
    rewrite freshLabels_app, freshLabels_2. solve_Permutation.
  - cbn [lowerStatement]. unfold foreachTemplate. labels_step. simpl.
    rewrite IH.
    change (S (S (labelCount b))) with (2 + labelCount b).
    rewrite freshLabels_app, freshLabels_2. solve_Permutation.
  - cbn [lowerStatement]. unfold repeatHeader, repeatFooter.
    labels_step. simpl. rewrite IH.
    change (S (S (labelCount b))) with (2 + labelCount b).
    rewrite freshLabels_app, freshLabels_2. solve_Permutation.
  - cbn [lowerStatement]. unfold switchFailure.
    labels_step. rewrite labels_switchChecks. simpl.
    rewrite (labels_lowerEach _ _ _ (λ i, [freshLabelName (nl + i)])).
    + rewrite concat_own_labels, Nat.add_0_r.
      rewrite !freshLabels_app, freshLabels_1.
      replace (nl + (length bs + 1)) with (nl + length bs + 1) by lia.
      solve_Permutation.
    + eapply Forall_impl; [exact IH |]. intros b Hb k nl' nv'.
      unfold switchBranchCode. labels_step.
      rewrite (noControl_labels _ (noControl_lowerPatternBind _ _)).
      rewrite (noControl_labels _ (noControl_lowerPatternUnbind _)).
      simpl in *. by rewrite Hb, app_nil_r.
  - cbn [lowerStatement]. by labels_step.
  - cbn [lowerStatement]. labels_step. simpl.
    rewrite labels_concat_nil; [done |].
    apply Forall_forall. intros code Hin.
    by apply elem_of_lookup_imap in Hin as (k & y & -> & _).
  - cbn [lowerStatement]. by labels_step.
Qed.

Ltac within_step IH :=
  first [ apply labelsWithin_nil
        | apply labelsWithin_app
        | apply labelsWithin_cons; [simpl; lia |]
        | eapply labelsWithin_mono; [apply IH | simpl; lia | simpl; lia] ].

Lemma jumpTargets_lowerStatement i18n symtable s :
  ∀ nl nv,
    labelsWithin (jumpTargets (lowerStatement i18n symtable s nl nv))
      nl (nl + labelCount s).
Proof.
  induction s as [sp ep ss IH | sp ep e | sp ep cond thn els IHt IHe
                 | sp ep t b IH | sp ep i r b IH | sp ep cond b IH
                 | sp ep subj bs IH | sp ep x e | sp ep xs e | sp ep p es]
    using Statement_nested_ind; intros nl nv.
  - cbn [lowerStatement labelCount].
    apply (jumpTargets_lowerEach _ _ _ nl nl); [| lia].
    eapply Forall_impl; [exact IH |]. intros s' Hs' _ nl' nv' Hnl'.
    simpl in *. eapply labelsWithin_mono; [apply Hs' | lia | lia].
  - cbn [lowerStatement]. labels_step. apply labelsWithin_nil.
  - destruct els as [els |]; cbn [lowerStatement]; labels_step; simpl.
    + repeat within_step IHt.
      eapply labelsWithin_mono; [apply (IHe els eq_refl) | lia | lia].
    + repeat within_step IHt.
  - cbn [lowerStatement]. unfold repeatHeader, repeatFooter.
    labels_step. simpl. repeat within_step IH.
  - cbn [lowerStatement]. unfold foreachTemplate. labels_step. simpl.
    repeat within_step IH.
  - cbn [lowerStatement]. labels_step. simpl. repeat within_step IH.
  - cbn [lowerStatement]. unfold switchFailure. labels_step. simpl.
    rewrite app_nil_r. apply labelsWithin_app.
    + eapply labelsWithin_mono; [apply jumpTargets_switchChecks | lia | lia].
    + eapply labelsWithin_mono;
        [apply (jumpTargets_lowerEach _ _ _ nl (nl + length bs + 1))
        | lia | simpl; lia ]; [| lia].
      eapply Forall_impl; [exact IH |]. intros b Hb k nl' nv' Hnl'.
      cbv beta in *. unfold switchBranchCode. labels_step.
      rewrite (noControl_jumpTargets _ (noControl_lowerPatternBind _ _)).
      rewrite (noControl_jumpTargets _ (noControl_lowerPatternUnbind _)).
      simpl. apply labelsWithin_app.
      * eapply labelsWithin_mono; [apply Hb | lia | lia].
      * apply labelsWithin_cons; [lia | apply labelsWithin_nil].
  - cbn [lowerStatement]. labels_step. apply labelsWithin_nil.
  - cbn [lowerStatement]. labels_step. simpl.
    rewrite jumpTargets_concat_nil; [apply labelsWithin_nil |].
    apply Forall_forall. intros code Hin.
    by apply elem_of_lookup_imap in Hin as (k & y & -> & _).
  - cbn [lowerStatement]. labels_step. apply labelsWithin_nil.
Qed.

Lemma labels_lowerMain i18n symtable ast :
  ∃ count,
    labels (lowerMain i18n symtable ast) ≡ₚ freshLabels 0 count
    ∧ labelsWithin (jumpTargets (lowerMain i18n symtable ast)) 0 count.
Proof.
  destruct ast as [sp ep defs]. simpl. case_bool_decide as Hlen.
  - exists 0. split; [done | apply labelsWithin_nil].
  - exists (sum_list (map Def_labelCount defs)). split.
    + rewrite (labels_lowerEach _ _ _ (λ _, [])).
      * by rewrite concat_fmap_nil.
      * apply Forall_forall. intros d _ _ nl nv.
        destruct d as [dsp dep body | | | | ]; simpl; try done.
        by rewrite labels_app, labels_lowerStatement, app_nil_r.
    + change (sum_list (map Def_labelCount defs))
        with (0 + sum_list (map Def_labelCount defs)).
      apply (jumpTargets_lowerEach _ _ _ 0 0 defs); [| lia].
      apply Forall_forall. intros d _ _ nl nv _.
      destruct d as [dsp dep body | | | | ]; simpl;
        try apply labelsWithin_nil.
      rewrite jumpTargets_app. simpl. rewrite app_nil_r.
      eapply labelsWithin_mono;
        [apply jumpTargets_lowerStatement | lia | lia].
Qed.

(** C2 — Label well-formedness of the emitted code.  Whenever a fresh
    compiler returns a code for an AST, no [Label] name occurs twice in the
    code, and the target of every [Jump], [JumpIfFalse], [JumpIfStructure]
    and [JumpIfTuple] of the code is the name of a [Label] of the code. *)
Theorem labels_well_formed
  (i18n : string → string) (primitives : RuntimePrimitives)
  (symtable : SymbolTable) (ast : Main) (code : Code) :
  compileFresh i18n primitives symtable ast = inr code →
  NoDup (labels code)
  ∧ ∀ target, target ∈ jumpTargets code → target ∈ labels code.
Proof.
  intros Hrun. apply compileFresh_lower in Hrun as ->.
  destruct (labels_lowerMain i18n symtable ast) as (count & Hperm & Hwithin).
  split.
  - rewrite Hperm. apply NoDup_freshLabels.
  - intros target Htarget. rewrite Hperm.
    destruct (Hwithin target Htarget) as (k & -> & Hk).
    apply elem_of_freshLabels. exists k. split; [done | lia].
Qed.

Lemma labels_well_formed_witness :
  NoDup (labels (lowerMain sampleI18n sampleSymtable sampleProgram))
  ∧ ∀ target,
      target ∈ jumpTargets (lowerMain sampleI18n sampleSymtable sampleProgram) →
      target ∈ labels (lowerMain sampleI18n sampleSymtable sampleProgram).
Proof.
  apply (labels_well_formed sampleI18n samplePrimitives sampleSymtable
           sampleProgram).
  vm_compute. reflexivity.
Defined.

(** * The stack discipline *)

Arguments flowTo : simpl never.
Arguments atLabel : simpl never.

Lemma freshLabelName_ne a b : a ≠ b → freshLabelName a ≠ freshLabelName b.
Proof. intros Hne Heq. by apply (inj freshLabelName) in Heq. Qed.

Lemma agreeOutside_refl m lo hi : agreeOutside m m lo hi.
Proof. by intros l _. Qed.

Lemma agreeOutside_mono m m' lo hi lo' hi' :
  agreeOutside m m' lo hi → lo' ≤ lo → hi ≤ hi' → agreeOutside m m' lo' hi'.
Proof. intros H Hlo Hhi l Hl. apply H. intros k Hk. apply Hl. lia. Qed.

Lemma agreeOutside_trans m m1 m2 lo hi :
  agreeOutside m m1 lo hi → agreeOutside m1 m2 lo hi → agreeOutside m m2 lo hi.
Proof. intros H1 H2 l Hl. by rewrite H2, H1. Qed.

Lemma agreeOutside_insert m k v lo hi :
  lo ≤ k < hi → agreeOutside m (<[freshLabelName k := v]> m) lo hi.
Proof.
  intros Hk l Hl. apply lookup_insert_ne. intros <-. by apply (Hl k).
Qed.

Lemma agree_lookup m m' lo hi k :
  agreeOutside m m' lo hi → k < lo ∨ hi ≤ k →
  m' !! freshLabelName k = m !! freshLabelName k.
Proof.
  intros H Hk. apply H. intros j Hj. apply freshLabelName_ne. lia.
Qed.

Lemma unrecordedFrom_insert m nl k v nl' :
  unrecordedFrom m nl → k < nl' → nl ≤ nl' →
  unrecordedFrom (<[freshLabelName k := v]> m) nl'.
Proof.
  intros Hm Hk Hnl j Hj. rewrite lookup_insert_ne.
  - apply Hm. lia.
  - apply freshLabelName_ne. lia.
Qed.

Lemma unrecordedFrom_agree m m' nl lo hi nl' :
  unrecordedFrom m nl → agreeOutside m m' lo hi → hi ≤ nl' → nl ≤ nl' →
  unrecordedFrom m' nl'.
Proof.
  intros Hm Hagree Hhi Hnl j Hj.
  rewrite (agree_lookup _ _ _ _ _ Hagree) by lia. apply Hm. lia.
Qed.

Lemma unrecordedFrom_mono m nl nl' :
  unrecordedFrom m nl → nl ≤ nl' → unrecordedFrom m nl'.
Proof. intros Hm Hnl j Hj. apply Hm. lia. Qed.

Section Simulation.

Variable i18n : string → string.
Variable symtable : SymbolTable.
Variable primitives : RuntimePrimitives.
Hypothesis catalog : catalogAsUsed primitives.

Local Abbreviation sim := (simulate primitives).

Lemma simulate_app a b s : sim (a ++ b) s = sim a s ≫= sim b.
Proof.
  revert s. induction a as [| i a IH]; intros s; simpl; [done |].
  destruct (simulateInstruction primitives (opcode i) s) as [s' |]; simpl;
    [apply IH | done].
Qed.

(** Unreachable code whose labels no edge has reached stays unreachable and
    records nothing. *)
Lemma simulate_dead code m :
  (∀ l, l ∈ labels code → m !! l = None) →
  sim code (mkSimState None m) = Some (mkSimState None m).
Proof.
  induction code as [| i code IH]; intros Hlabels; [done |].
  assert (simulateInstruction primitives (opcode i) (mkSimState None m)
          = Some (mkSimState None m)) as Hi.
  { destruct i as [op sp ep]. destruct op; simpl; try done.
    - unfold atLabel. simpl. rewrite Hlabels; [done |].
      unfold labels. simpl. apply elem_of_cons. by left.
    - by destruct (bool_decide _). }
  simpl. rewrite Hi. simpl. apply IH. intros l Hl. apply Hlabels.
  unfold labels in *. simpl. destruct (labelOf i); [| done].
  apply elem_of_cons. by right.
Qed.

Lemma simulate_dead_noControl code m :
  noControl code → sim code (mkSimState None m) = Some (mkSimState None m).
Proof.
  intros Hc. apply simulate_dead. intros l Hl.
  rewrite (noControl_labels _ Hc) in Hl. by apply elem_of_nil in Hl.
Qed.

Lemma simulate_dead_statement s nl nv m :
  unrecordedFrom m nl →
  sim (lowerStatement i18n symtable s nl nv) (mkSimState None m)
  = Some (mkSimState None m).
Proof.
  intros Hm. apply simulate_dead. intros l Hl.
  rewrite labels_lowerStatement in Hl.
  apply elem_of_freshLabels in Hl as (k & -> & Hk). apply Hm. lia.
Qed.

(** ** Single instructions, at a reachable point *)

Lemma popped_add pops d : popped pops (pops + d) = Some d.
Proof. induction pops as [| pops IH]; [done | apply IH]. Qed.

Lemma popPush_alive pops pushes d m :
  popPush pops pushes (mkSimState (Some (pops + d)) m)
  = Some (mkSimState (Some (pushes + d)) m).
Proof. unfold popPush. simpl. by rewrite popped_add. Qed.

Lemma flowTo_fresh l d m :
  m !! l = None →
  flowTo l (mkSimState (Some d) m) = Some (mkSimState (Some d) (<[l := d]> m)).
Proof. intros Hl. unfold flowTo. simpl. by rewrite Hl. Qed.

Lemma flowTo_recorded l d m :
  m !! l = Some d →
  flowTo l (mkSimState (Some d) m) = Some (mkSimState (Some d) m).
Proof. intros Hl. unfold flowTo. simpl. rewrite Hl. by case_decide. Qed.

Lemma atLabel_revive l d m :
  m !! l = Some d →
  atLabel l (mkSimState None m) = Some (mkSimState (Some d) m).
Proof. intros Hl. unfold atLabel. simpl. by rewrite Hl. Qed.

Lemma atLabel_dead l m :
  m !! l = None → atLabel l (mkSimState None m) = Some (mkSimState None m).
Proof. intros Hl. unfold atLabel. simpl. by rewrite Hl. Qed.

Lemma atLabel_fresh l d m :
  m !! l = None →
  atLabel l (mkSimState (Some d) m)
  = Some (mkSimState (Some d) (<[l := d]> m)).
Proof. intros Hl. unfold atLabel. simpl. by apply flowTo_fresh. Qed.

Lemma atLabel_recorded l d m :
  m !! l = Some d →
  atLabel l (mkSimState (Some d) m) = Some (mkSimState (Some d) m).
Proof. intros Hl. unfold atLabel. simpl. by apply flowTo_recorded. Qed.

(** ** The catalog *)

Lemma catalog_operators :
  isFunction primitives ">" = true ∧ isFunction primitives "<" = true
  ∧ isFunction primitives "+" = true ∧ isFunction primitives "-" = true
  ∧ isFunction primitives "_unsafeListLength" = true
  ∧ isFunction primitives "_unsafeListNth" = true.
Proof.
  destruct catalog as (Hops & _ & _).
  rewrite !Forall_cons in Hops. tauto.
Qed.

(** ** Expressions *)

Lemma catalog_not_FAIL name :
  isFunction primitives name = true → bool_decide (name = "_FAIL") = false.
Proof.
  intros Hname. apply bool_decide_eq_false. intros ->.
  destruct catalog as (_ & Hfail & _). congruence.
Qed.

Lemma catalog_procedure name :
  isProcedure primitives name = true → isFunction primitives name = false.
Proof. destruct catalog as (_ & _ & Hdisjoint). apply Hdisjoint. Qed.

Lemma simulate_sequence {A} (lower : A → Code) (P : A → bool) xs :
  Forall (λ x, P x = true →
               ∀ d m, sim (lower x) (mkSimState (Some d) m)
                      = Some (mkSimState (Some (S d)) m)) xs →
  forallb P xs = true →
  ∀ d m, sim (concat (map lower xs)) (mkSimState (Some d) m)
         = Some (mkSimState (Some (length xs + d)) m).
Proof.
  induction 1 as [| x xs Hx _ IH]; intros HP d m; simpl; [done |].
  simpl in HP. apply andb_true_iff in HP as [HPx HPxs].
  rewrite simulate_app, (Hx HPx). simpl. rewrite (IH HPxs).
  by rewrite Nat.add_succ_r.
Qed.

Lemma simulate_expression e :
  lowered e = true → callsPrimitiveFunctions primitives e = true →
  ∀ d m, sim (lowerExpression symtable e) (mkSimState (Some d) m)
         = Some (mkSimState (Some (S d)) m).
Proof.
  induction e as [sp ep x | sp ep n | sp ep s | sp ep es IH | sp ep e1 e2 e3
                 | sp ep es IH | sp ep cn fbs IH | sp ep cn e0 fbs
                 | sp ep fn es IH] using Expression_nested_ind;
    intros Hlow Hcalls d m; simpl in *; try done.
  - rewrite simulate_app.
    rewrite (simulate_sequence _
               (λ e, lowered e && callsPrimitiveFunctions primitives e)).
    + simpl. by rewrite popPush_alive.
    + eapply Forall_impl; [exact IH |]. intros e He [? ?]%andb_true_iff.
      by apply He.
    + apply forallb_forall. intros e He.
      rewrite forallb_forall in Hlow, Hcalls.
      by rewrite Hlow, Hcalls.
  - rewrite simulate_app.
    rewrite (simulate_sequence _
               (λ e, lowered e && callsPrimitiveFunctions primitives e)).
    + simpl. by rewrite popPush_alive.
    + eapply Forall_impl; [exact IH |]. intros e He [? ?]%andb_true_iff.
      by apply He.
    + apply forallb_forall. intros e He.
      rewrite forallb_forall in Hlow, Hcalls.
      by rewrite Hlow, Hcalls.
  - rewrite simulate_app.
    rewrite (simulate_sequence _
               (λ fb, match fb with
                      | FieldValueNode _ _ _ v =>
                          lowered v && callsPrimitiveFunctions primitives v
                      end)).
    + simpl. rewrite length_map. by rewrite popPush_alive.
    + eapply Forall_impl; [exact IH |].
      intros [? ? ? v] Hv [? ?]%andb_true_iff. by apply Hv.
    + apply forallb_forall. intros [? ? ? v] Hv.
      rewrite forallb_forall in Hlow, Hcalls.
      by rewrite (Hlow _ Hv), (Hcalls _ Hv).
  - apply andb_true_iff in Hcalls as [Hfn Hcalls].
    rewrite simulate_app.
    rewrite (simulate_sequence _
               (λ e, lowered e && callsPrimitiveFunctions primitives e)).
    + simpl. rewrite (catalog_not_FAIL _ Hfn), Hfn.
      by rewrite popPush_alive.
    + eapply Forall_impl; [exact IH |]. intros e He [? ?]%andb_true_iff.
      by apply He.
    + apply forallb_forall. intros e He.
      rewrite forallb_forall in Hlow, Hcalls.
      by rewrite Hlow, Hcalls.
Qed.

(** ** Patterns *)

Lemma simulate_concat_same codes s :
  Forall (λ code, sim code s = Some s) codes → sim (concat codes) s = Some s.
Proof.
  induction 1 as [| code codes Hc _ IH]; simpl; [done |].
  rewrite simulate_app, Hc. simpl. apply IH.
Qed.

Lemma simulate_patternCheck p target d m :
  m !! target = None →
  sim (lowerPatternCheck i18n symtable p target) (mkSimState (Some (S d)) m)
  = Some (simState (negb (isWildcard p)) (S d) (<[target := S d]> m)).
Proof.
  intros Htarget.
  destruct p as [sp ep | sp ep cn ps | sp ep ps | sp ep]; simpl;
    by rewrite flowTo_fresh.
Qed.

Lemma simulate_patternBind p d m :
  sim (lowerPatternBind symtable p) (mkSimState (Some (S d)) m)
  = Some (mkSimState (Some (S d)) m).
Proof.
  destruct p as [sp ep | sp ep cn ps | sp ep ps | sp ep]; simpl; try done.
  - apply simulate_concat_same, Forall_forall. intros code Hin.
    by apply elem_of_lookup_zip_with in Hin as (i & x & y & -> & _).
  - apply simulate_concat_same, Forall_forall. intros code Hin.
    by apply elem_of_lookup_imap in Hin as (i & x & -> & _).
Qed.

Lemma simulate_patternUnbind p d m :
  sim (lowerPatternUnbind p) (mkSimState (Some d) m)
  = Some (mkSimState (Some d) m).
Proof.
  destruct p as [sp ep | sp ep cn ps | sp ep ps | sp ep]; simpl; try done;
    apply simulate_concat_same, Forall_forall; intros code Hin;
    by apply list_elem_of_fmap in Hin as (x & -> & _).
Qed.

(** ** Statements *)

Local Abbreviation simulatesAt := (simulatesAt i18n symtable primitives).

Lemma simulatesAt_alive s :
  (∀ nl nv d m,
     unrecordedFrom m nl →
     ∃ m',
       sim (lowerStatement i18n symtable s nl nv) (mkSimState (Some d) m)
       = Some (simState (completes s) d m')
       ∧ agreeOutside m m' nl (nl + labelCount s)) →
  simulatesAt s.
Proof.
  intros Halive [] nl nv d m Hm; simpl.
  - by apply Halive.
  - exists m. split; [by apply simulate_dead_statement |].
    apply agreeOutside_refl.
Qed.

Lemma simulate_block ss :
  Forall simulatesAt ss →
  ∀ i alive nl nv d m,
    unrecordedFrom m nl →
    ∃ m',
      sim (lowerEach (λ _ s', lowerStatement i18n symtable s')
             labelCount variableCount i ss nl nv) (simState alive d m)
      = Some (simState (alive && forallb completes ss) d m')
      ∧ agreeOutside m m' nl (nl + sum_list (map labelCount ss)).
Proof.
  induction 1 as [| s ss Hs _ IH]; intros i alive nl nv d m Hm; simpl.
  - exists m. rewrite andb_true_r. split; [done | apply agreeOutside_refl].
  - destruct (Hs alive nl nv d m Hm) as (m1 & Hsim1 & Hagree1).
    assert (unrecordedFrom m1 (nl + labelCount s)) as Hm1.
    { eapply unrecordedFrom_agree; [exact Hm | exact Hagree1 | lia | lia]. }
    destruct (IH (S i) (alive && completes s) (nl + labelCount s)
                (nv + variableCount s) d m1 Hm1) as (m2 & Hsim2 & Hagree2).
    exists m2. rewrite simulate_app, Hsim1. simpl. rewrite Hsim2.
    rewrite andb_assoc. split; [done |].
    eapply agreeOutside_trans.
    + eapply agreeOutside_mono; [exact Hagree1 | lia | lia].
    + eapply agreeOutside_mono; [exact Hagree2 | lia | lia].
Qed.

Ltac split_bool :=
  repeat match goal with
         | H : _ && _ = true |- _ => apply andb_true_iff in H as [? ?]
         end.

Lemma simulate_simple_statements :
  (∀ sp ep x e,
     plain (StmtAssignVariable sp ep x e) = true →
     callsPrimitives primitives (StmtAssignVariable sp ep x e) = true →
     simulatesAt (StmtAssignVariable sp ep x e))
  ∧ (∀ sp ep xs e,
       plain (StmtAssignTuple sp ep xs e) = true →
       callsPrimitives primitives (StmtAssignTuple sp ep xs e) = true →
       simulatesAt (StmtAssignTuple sp ep xs e))
  ∧ (∀ sp ep p es,
       plain (StmtProcedureCall sp ep p es) = true →
       callsPrimitives primitives (StmtProcedureCall sp ep p es) = true →
       simulatesAt (StmtProcedureCall sp ep p es)).
Proof.
  split_and!.
  - intros sp ep x e Hplain Hcalls. apply simulatesAt_alive.
    intros nl nv d m Hm. exists m. simpl in *.
    rewrite simulate_app, simulate_expression by done.
    rewrite Nat.add_0_r. split; [done | apply agreeOutside_refl].
  - intros sp ep xs e Hplain Hcalls. apply simulatesAt_alive.
    intros nl nv d m Hm. exists m. simpl in *.
    rewrite simulate_app, simulate_expression by done. simpl.
    rewrite simulate_app, simulate_concat_same.
    + rewrite Nat.add_0_r. split; [done | apply agreeOutside_refl].
    + apply Forall_forall. intros code Hin.
      by apply elem_of_lookup_imap in Hin as (i & x & -> & _).
  - intros sp ep p es Hplain Hcalls. apply simulatesAt_alive.
    intros nl nv d m Hm. exists m. simpl in *. split_bool.
    rewrite simulate_app.
    rewrite (simulate_sequence _
               (λ e, lowered e && callsPrimitiveFunctions primitives e)).
    + simpl. rewrite catalog_procedure by done.
      rewrite Nat.add_0_r. split; [| apply agreeOutside_refl].
      case_bool_decide; simpl; by rewrite popPush_alive.
    + apply Forall_forall. intros e _ [? ?]%andb_true_iff.
      by apply simulate_expression.
    + apply forallb_forall. intros e He.
      rewrite forallb_forall in Hplain.
      match goal with
      | H : forallb (callsPrimitiveFunctions _) _ = true |- _ =>
          rewrite forallb_forall in H; by rewrite Hplain, H
      end.
Qed.

Lemma flowTo_dead l m :
  flowTo l (mkSimState None m) = Some (mkSimState None m).
Proof. done. Qed.

Ltac solve_lookup :=
  repeat first
    [ rewrite lookup_insert_eq
    | rewrite lookup_insert_ne by (apply freshLabelName_ne; lia)
    | match goal with
      | H : agreeOutside _ ?m' _ _ |- context [?m' !! freshLabelName ?k] =>
          rewrite (agree_lookup _ m' _ _ k H) by lia
      end ];
  first [ reflexivity
        | eassumption
        | match goal with
          | H : unrecordedFrom ?m _ |- ?m !! _ = None => apply H; lia
          end ].

Ltac solve_agree :=
  let l := fresh "l" in
  let Hl := fresh "Hl" in
  intros l Hl; cbn [labelCount] in Hl;
  repeat first
    [ rewrite lookup_insert_ne
        by (let H := fresh in
            intros H; eapply Hl; [| symmetry; exact H]; lia)
    | match goal with
      | H : agreeOutside _ ?m' _ _ |- context [?m' !! l] =>
          rewrite (H l) by (intros ? ?; apply Hl; lia)
      end ];
  reflexivity.

Ltac solve_unrecorded :=
  let k := fresh "k" in
  let Hk := fresh "Hk" in
  intros k Hk; solve_lookup.

Lemma simulate_cons i code s :
  sim (i :: code) s = simulateInstruction primitives (opcode i) s ≫= sim code.
Proof. done. Qed.

Lemma simulate_nil s : sim [] s = Some s.
Proof. done. Qed.

(** Runs the simulator over the code in the goal as far as the next lowered
    statement. *)
Ltac sim_run :=
  repeat first
    [ rewrite simulate_app
    | rewrite simulate_nil
    | rewrite simulate_expression by done
    | rewrite simulate_patternBind
    | rewrite simulate_patternUnbind
    | rewrite simulate_dead_noControl
        by first [ apply noControl_lowerExpression
                 | apply noControl_lowerPatternBind
                 | apply noControl_lowerPatternUnbind ]
    | rewrite simulate_dead_statement by solve_unrecorded
    | rewrite flowTo_dead
    | rewrite flowTo_fresh by solve_lookup
    | rewrite flowTo_recorded by solve_lookup
    | erewrite atLabel_revive by solve_lookup
    | rewrite atLabel_fresh by solve_lookup
    | rewrite atLabel_recorded by solve_lookup
    | rewrite atLabel_dead by solve_lookup
    | rewrite (proj1 catalog_operators)
    | rewrite (proj1 (proj2 catalog_operators))
    | rewrite (proj1 (proj2 (proj2 catalog_operators)))
    | rewrite (proj1 (proj2 (proj2 (proj2 catalog_operators))))
    | rewrite (proj1 (proj2 (proj2 (proj2 (proj2 catalog_operators)))))
    | rewrite (proj2 (proj2 (proj2 (proj2 (proj2 catalog_operators)))))
    | progress unfold unreachable, simState
    | progress cbn [positioned map mbind option_bind fmap option_fmap
                    option_map unreachable opcode Nat.add simState
                    recorded depth popPush popped]
    | rewrite simulate_cons; cbn [opcode];
      simpl (simulateInstruction _ _ _) ].

(** Runs the simulator over the next lowered statement, reachable, by the
    induction hypothesis [IH]. *)
Ltac sim_statement IH m3 Hagree :=
  match goal with
  | |- context [sim (lowerStatement _ _ _ ?nl' ?nv')
                  (mkSimState (Some ?d') ?m')] =>
      let Hsim := fresh "Hsim" in
      destruct (IH true nl' nv' d' m') as (m3 & Hsim & Hagree);
      [ solve_unrecorded
      | unfold simState in Hsim; cbn [andb] in Hsim; rewrite Hsim;
        clear Hsim ]
  end.

Lemma simulate_while sp ep cond b :
  simulatesAt b →
  plain (StmtWhile sp ep cond b) = true →
  callsPrimitives primitives (StmtWhile sp ep cond b) = true →
  simulatesAt (StmtWhile sp ep cond b).
Proof.
  intros IH Hplain Hcalls. apply simulatesAt_alive.
  intros nl nv d m Hm. simpl in Hplain, Hcalls. split_bool.
  cbn [lowerStatement]. sim_run. sim_statement IH m3 Hagree.
  exists m3. split; [| solve_agree].
  cbn [completes]. destruct (completes b); by sim_run.
Qed.

Lemma simulate_if sp ep cond t :
  simulatesAt t →
  plain (StmtIf sp ep cond t None) = true →
  callsPrimitives primitives (StmtIf sp ep cond t None) = true →
  simulatesAt (StmtIf sp ep cond t None).
Proof.
  intros IH Hplain Hcalls. apply simulatesAt_alive.
  intros nl nv d m Hm. simpl in Hplain, Hcalls. split_bool.
  cbn [lowerStatement]. sim_run. sim_statement IH m3 Hagree.
  exists m3. split; [| solve_agree].
  cbn [completes]. destruct (completes t); by sim_run.
Qed.

Lemma simulate_if_else sp ep cond t e :
  simulatesAt t → simulatesAt e →
  plain (StmtIf sp ep cond t (Some e)) = true →
  callsPrimitives primitives (StmtIf sp ep cond t (Some e)) = true →
  simulatesAt (StmtIf sp ep cond t (Some e)).
Proof.
  intros IHt IHe Hplain Hcalls. apply simulatesAt_alive.
  intros nl nv d m Hm. simpl in Hplain, Hcalls. split_bool.
  cbn [lowerStatement]. sim_run. sim_statement IHt m3 Hagree.
  cbn [completes].
  destruct (completes t); sim_run; sim_statement IHe m4 Hagree';
    destruct (completes e); sim_run;
    (eexists; split; [reflexivity | solve_agree]).
Qed.

Lemma simulate_repeat sp ep times b :
  simulatesAt b →
  plain (StmtRepeat sp ep times b) = true →
  callsPrimitives primitives (StmtRepeat sp ep times b) = true →
  simulatesAt (StmtRepeat sp ep times b).
Proof.
  intros IH Hplain Hcalls. apply simulatesAt_alive.
  intros nl nv d m Hm. simpl in Hplain, Hcalls. split_bool.
  cbn [lowerStatement]. unfold repeatHeader, repeatFooter.
  sim_run. sim_statement IH m3 Hagree.
  exists m3. split; [| solve_agree].
  cbn [completes]. destruct (completes b); by sim_run.
Qed.

Lemma simulate_foreach sp ep index range b :
  simulatesAt b →
  plain (StmtForeach sp ep index range b) = true →
  callsPrimitives primitives (StmtForeach sp ep index range b) = true →
  simulatesAt (StmtForeach sp ep index range b).
Proof.
  intros IH Hplain Hcalls. apply simulatesAt_alive.
  intros nl nv d m Hm. simpl in Hplain, Hcalls. split_bool.
  cbn [lowerStatement]. unfold foreachTemplate.
  sim_run. sim_statement IH m3 Hagree.
  exists m3. split; [| solve_agree].
  cbn [completes]. destruct (completes b); by sim_run.
Qed.

(** *** Switch *)

Lemma imap_offset {A B} (f : nat → A → B) n0 x xs :
  imap (λ j, f (n0 + j)) (x :: xs) = f n0 x :: imap (λ j, f (S n0 + j)) xs.
Proof.
  simpl. rewrite Nat.add_0_r. f_equal. apply imap_ext.
  intros j y _. simpl. f_equal. lia.
Qed.

(** The checks of a switch, entered with the subject on the stack: the label
    of every branch whose check is reached is recorded at the depth of the
    subject, and no other. *)
Lemma simulate_switchChecks d bs :
  ∀ n0 alive m,
    unrecordedFrom m n0 →
    ∃ m',
      sim (concat (imap (λ j b,
                           lowerPatternCheck i18n symtable
                             (SwitchBranch_pattern b)
                             (freshLabelName (n0 + j))) bs))
        (simState alive (S d) m)
      = Some (simState
                (alive && forallb (λ b, negb (isWildcard
                                                (SwitchBranch_pattern b))) bs)
                (S d) m')
      ∧ agreeOutside m m' n0 (n0 + length bs)
      ∧ ∀ j (f : bool), enteredFlags alive bs !! j = Some f →
               m' !! freshLabelName (n0 + j)
               = if f then Some (S d) else None.
Proof.
  induction bs as [| b bs IH]; intros n0 alive m Hm.
  { exists m. simpl. rewrite andb_true_r.
    split_and!; [done | apply agreeOutside_refl | by intros j f Hj]. }
  rewrite (imap_offset (λ k b', lowerPatternCheck i18n symtable
                                  (SwitchBranch_pattern b')
                                  (freshLabelName k))).
  cbn [concat enteredFlags forallb length]. rewrite simulate_app.
  destruct alive.
  - unfold simState at 1. rewrite simulate_patternCheck by (apply Hm; lia).
    cbn [mbind option_bind andb].
    destruct (IH (S n0) (negb (isWildcard (SwitchBranch_pattern b)))
                (<[freshLabelName n0 := S d]> m))
      as (m' & Hsim & Hagree & Hflags); [solve_unrecorded |].
    exists m'. split_and!; [done | solve_agree |].
    intros [| j] f Hj; simplify_eq/=.
    + rewrite Nat.add_0_r. solve_lookup.
    + rewrite <- Nat.add_succ_comm. by apply Hflags.
  - unfold simState at 1.
    rewrite simulate_dead
      by (intros l Hl; rewrite labels_lowerPatternCheck in Hl;
          by apply elem_of_nil in Hl).
    cbn [mbind option_bind andb].
    destruct (IH (S n0) false m) as (m' & Hsim & Hagree & Hflags);
      [solve_unrecorded |].
    exists m'. split_and!; [done | solve_agree |].
    intros [| j] f Hj; simplify_eq/=.
    + rewrite Nat.add_0_r. solve_lookup.
    + rewrite <- Nat.add_succ_comm. by apply Hflags.
Qed.

(** One branch of a switch, behind the failure sequence: it is entered by its
    label only, at the depth of the subject, and left by the jump to the end
    of the switch, at the depth the switch was entered. *)
Lemma simulate_switchBranch label kend d b (f e : bool) nl nv m :
  simulatesAt (SwitchBranch_body b) →
  kend < nl →
  unrecordedFrom m nl →
  m !! label = (if f then Some (S d) else None) →
  m !! freshLabelName kend = (if e then Some d else None) →
  ∃ m',
    sim (switchBranchCode symtable label (freshLabelName kend) b
           (lowerStatement i18n symtable (SwitchBranch_body b) nl nv))
      (mkSimState None m)
    = Some (mkSimState None m')
    ∧ m' !! freshLabelName kend
      = (if e || f && completes (SwitchBranch_body b) then Some d else None)
    ∧ ∀ l, (∀ k, nl ≤ k < nl + labelCount (SwitchBranch_body b) →
                 l ≠ freshLabelName k) →
           l ≠ freshLabelName kend → m' !! l = m !! l.
Proof.
  intros IH Hend Hm Hlabel He. unfold switchBranchCode.
  destruct f; cbn [andb] in *.
  - sim_run. sim_statement IH m3 Hagree.
    destruct (completes (SwitchBranch_body b)), e; sim_run;
      (eexists; split_and!; [reflexivity | solve_lookup |]);
      intros l Hl Hne; rewrite ?lookup_insert_ne by done; by apply Hagree.
  - sim_run. exists m. rewrite orb_false_r. by split_and!.
Qed.

Lemma lowerEach_cons {A} (lower : nat → A → nat → nat → Code)
  (lc vc : A → nat) i x xs nl nv :
  lowerEach lower lc vc i (x :: xs) nl nv
  = lower i x nl nv ++ lowerEach lower lc vc (S i) xs (nl + lc x) (nv + vc x).
Proof. done. Qed.

(** The branches of a switch, one after the other: [flags] tells the
    branches whose label the checks recorded, [e] whether an earlier branch
    has reached the end label. *)
Lemma simulate_switchBranches base kend d bs :
  Forall (λ b, simulatesAt (SwitchBranch_body b)) bs →
  ∀ i (flags : list bool) nl nv m (e : bool),
    length flags = length bs →
    base + i + length bs ≤ kend → kend < nl →
    unrecordedFrom m nl →
    (∀ j (f : bool), flags !! j = Some f →
       m !! freshLabelName (base + i + j) = if f then Some (S d) else None) →
    m !! freshLabelName kend = (if e then Some d else None) →
    ∃ m',
      sim (lowerEach
             (λ i b nl' nv',
                switchBranchCode symtable (freshLabelName (base + i))
                  (freshLabelName kend) b
                  (lowerStatement i18n symtable (SwitchBranch_body b)
                     nl' nv'))
             (λ b, labelCount (SwitchBranch_body b))
             (λ b, variableCount (SwitchBranch_body b)) i bs nl nv)
        (mkSimState None m)
      = Some (mkSimState None m')
      ∧ m' !! freshLabelName kend
        = (if e || existsb (λ fb, fb.1 && completes (SwitchBranch_body fb.2))
                     (zip flags bs)
           then Some d else None)
      ∧ ∀ l, (∀ k, nl ≤ k < nl + sum_list
                                   (map (λ b, labelCount (SwitchBranch_body b))
                                      bs) →
                   l ≠ freshLabelName k) →
             l ≠ freshLabelName kend → m' !! l = m !! l.
Proof.
  induction 1 as [| b bs Hb _ IH];
    intros i flags nl nv m e Hlen Hend Hnl Hm Hflags He.
  { exists m. destruct flags; [| done]. simpl. rewrite orb_false_r.
    by split_and!. }
  destruct flags as [| f fs]; [done |]. simpl in Hlen, Hend.
  rewrite lowerEach_cons, simulate_app.
  destruct (simulate_switchBranch (freshLabelName (base + i)) kend d b f e
              nl nv m Hb Hnl Hm) as (m1 & -> & Hend1 & Hsame1); [| done |].
  { specialize (Hflags 0 f eq_refl). by rewrite Nat.add_0_r in Hflags. }
  cbn [mbind option_bind].
  assert (∀ k, k < kend ∨ nl + labelCount (SwitchBranch_body b) ≤ k →
               m1 !! freshLabelName k = m !! freshLabelName k) as Hkeep.
  { intros k Hk. apply Hsame1.
    - intros k' Hk'. apply freshLabelName_ne. lia.
    - apply freshLabelName_ne. lia. }
  destruct (IH (S i) fs (nl + labelCount (SwitchBranch_body b))
              (nv + variableCount (SwitchBranch_body b)) m1
              (e || f && completes (SwitchBranch_body b)))
    as (m2 & -> & Hend2 & Hsame2).
  - lia.
  - lia.
  - lia.
  - intros k Hk. rewrite Hkeep by lia. apply Hm. lia.
  - intros j f' Hj. pose proof (lookup_lt_Some _ _ _ Hj).
    rewrite Hkeep by lia.
    replace (base + S i + j) with (base + i + S j) by lia. by apply Hflags.
  - done.
  - exists m2. split_and!; [done | |].
    + rewrite Hend2. cbn [zip_with existsb fst snd]. by rewrite orb_assoc.
    + intros l Hl Hne. simpl in Hl. rewrite Hsame2, Hsame1; [done | | done | | done].
      * intros k Hk. apply Hl. lia.
      * intros k Hk. apply Hl. lia.
Qed.

Lemma length_enteredFlags alive bs :
  length (enteredFlags alive bs) = length bs.
Proof.
  revert alive. induction bs as [| b bs IH]; intros alive; simpl;
    [done | by rewrite IH].
Qed.

(** A switch is left through a branch that is entered and whose body
    completes. *)
Lemma entered_completes sp ep subject bs alive :
  existsb (λ fb, fb.1 && completes (SwitchBranch_body fb.2))
    (zip (enteredFlags alive bs) bs)
  = alive && completes (StmtSwitch sp ep subject bs).
Proof.
  revert alive. induction bs as [| b bs IH]; intros alive.
  { simpl. by rewrite andb_false_r. }
  cbn [enteredFlags zip_with existsb fst snd]. rewrite IH.
  change (completes (StmtSwitch sp ep subject (b :: bs)))
    with (completes (SwitchBranch_body b)
          || negb (isWildcard (SwitchBranch_pattern b))
             && completes (StmtSwitch sp ep subject bs)).
  by destruct alive, (completes (SwitchBranch_body b)),
    (isWildcard (SwitchBranch_pattern b)),
    (completes (StmtSwitch sp ep subject bs)).
Qed.

Lemma simulate_switch sp ep subject bs :
  Forall (λ b, simulatesAt (SwitchBranch_body b)) bs →
  plain (StmtSwitch sp ep subject bs) = true →
  callsPrimitives primitives (StmtSwitch sp ep subject bs) = true →
  simulatesAt (StmtSwitch sp ep subject bs).
Proof.
  intros IH Hplain Hcalls. apply simulatesAt_alive.
  intros nl nv d m Hm. simpl in Hplain, Hcalls. split_bool.
  cbn [lowerStatement]. unfold switchFailure. sim_run.
  destruct (simulate_switchChecks d bs nl true m Hm)
    as (m1 & Hsim1 & Hagree1 & Hflags1).
  unfold simState in Hsim1. cbn [andb] in Hsim1. rewrite Hsim1. clear Hsim1.
  assert (sim (positioned sp ep
                 [IPushString (i18n "errmsg:switch-does-not-match");
                  IPrimitiveCall "_FAIL" 1])
            (mkSimState
               (if forallb (λ b, negb (isWildcard (SwitchBranch_pattern b)))
                     bs
                then Some (S d) else None) m1)
          = Some (mkSimState None m1)) as Hfail.
  { by destruct (forallb (λ b, negb (isWildcard (SwitchBranch_pattern b)))
                  bs). }
  cbn [positioned map] in Hfail.
  cbn [mbind option_bind]. rewrite !simulate_app, Hfail. clear Hfail.
  cbn [mbind option_bind].
  destruct (simulate_switchBranches nl (nl + length bs) d bs IH 0
              (enteredFlags true bs) (nl + length bs + 1) nv m1 false)
    as (m2 & Hsim2 & Hend2 & Hsame2).
  - apply length_enteredFlags.
  - lia.
  - lia.
  - solve_unrecorded.
  - intros j f Hj. rewrite Nat.add_0_r. by apply Hflags1.
  - solve_lookup.
  - rewrite simulate_app, Hsim2. clear Hsim2. cbn [mbind option_bind].
    rewrite orb_false_l, (entered_completes sp ep subject), andb_true_l
      in Hend2.
    exists m2. split.
    + destruct (completes (StmtSwitch sp ep subject bs)); by sim_run.
    + intros l Hl. cbn [labelCount] in Hl. rewrite Hsame2.
      * apply Hagree1. intros k Hk. apply Hl. lia.
      * intros k Hk. apply Hl. lia.
      * apply Hl. lia.
Qed.

Lemma Forall_forallb_2 {A} (P : A → Prop) (p q : A → bool) xs :
  Forall (λ x, p x = true → q x = true → P x) xs →
  forallb p xs = true → forallb q xs = true → Forall P xs.
Proof.
  induction 1 as [| x xs Hx _ IH]; intros Hp Hq; [constructor |].
  simpl in Hp, Hq. split_bool. constructor; auto.
Qed.

(** The lowering of a statement with no [Return], over lowered expressions
    and primitives of the catalog, is simulated without failure and keeps
    the depth it is entered at. *)
Lemma simulate_statement s :
  plain s = true → callsPrimitives primitives s = true → simulatesAt s.
Proof.
  induction s as [sp ep ss IH | sp ep e | sp ep cond thn els IHt IHe
                 | sp ep t b IH | sp ep i r b IH | sp ep cond b IH
                 | sp ep subj bs IH | sp ep x e | sp ep xs e | sp ep p es]
    using Statement_nested_ind; intros Hplain Hcalls.
  - intros alive nl nv d m Hm.
    apply (simulate_block ss); [| done].
    by apply (Forall_forallb_2 _ plain (callsPrimitives primitives)).
  - done.
  - pose proof Hplain as Hplain'. pose proof Hcalls as Hcalls'.
    simpl in Hplain', Hcalls'. split_bool.
    destruct els as [e |].
    + apply simulate_if_else; auto.
    + apply simulate_if; auto.
  - pose proof Hplain as Hplain'. pose proof Hcalls as Hcalls'.
    simpl in Hplain', Hcalls'. split_bool. apply simulate_repeat; auto.
  - pose proof Hplain as Hplain'. pose proof Hcalls as Hcalls'.
    simpl in Hplain', Hcalls'. split_bool. apply simulate_foreach; auto.
  - pose proof Hplain as Hplain'. pose proof Hcalls as Hcalls'.
    simpl in Hplain', Hcalls'. split_bool. apply simulate_while; auto.
  - pose proof Hplain as Hplain'. pose proof Hcalls as Hcalls'.
    simpl in Hplain', Hcalls'. split_bool.
    apply simulate_switch; [| done | done].
    by apply (Forall_forallb_2 _ (λ b, plain (SwitchBranch_body b))
                (λ b, callsPrimitives primitives (SwitchBranch_body b))).
  - by apply simulate_simple_statements.
  - by apply simulate_simple_statements.
  - by apply simulate_simple_statements.
Qed.

End Simulation.

Lemma samplePrimitives_catalog : catalogAsUsed samplePrimitives.
Proof.
  split_and!; [by repeat constructor | done |].
  intros name Hname. apply bool_decide_eq_true_1 in Hname.
  rewrite !elem_of_cons in Hname.
  destruct Hname as [-> | [-> | [-> | Hname]]]; [done | done | done |].
  by apply elem_of_nil in Hname.
Qed.



(** The condition on [Return] cannot be dropped: the block [{ return (1) }]
    is a statement and not a [Return] statement, and the sequence a fresh
    compiler emits for it, entered at depth 0, ends at depth 1. *)
Lemma block_with_return_counterexample :
  let c := Compiler_new samplePrimitives sampleSymtable in
  ∃ c',
    _compileStatement sampleI18n sampleReturnBlock c = inr (tt, c')
    ∧ depthAfter samplePrimitives (_code c') 0 = Some (Some 1)
    ∧ depthAfter samplePrimitives (_code c') 0 ≠ Some (Some 0).
Proof.
  intros c.
  exists (advance c [mkInstruction (IPushInteger 1) pos0 pos0] 0 0).
  split_and!; [by vm_compute | by vm_compute |].
  vm_compute. discriminate.
Qed.

(** * Further properties of the compiler *)

(** ** The instructions of the emitted code *)

Lemma holdsOnly_app φ a b : holdsOnly φ (a ++ b) ↔ holdsOnly φ a ∧ holdsOnly φ b.
Proof. apply Forall_app. Qed.

Lemma holdsOnly_concat φ codes :
  Forall (holdsOnly φ) codes → holdsOnly φ (concat codes).
Proof. apply Forall_concat. Qed.

Lemma holdsOnly_positioned φ sp ep ops :
  forallb φ ops = true → holdsOnly φ (positioned sp ep ops).
Proof.
  induction ops as [| op ops IH]; simpl; [constructor |].
  intros [Hop Hops]%andb_true_iff. constructor; [done | by apply IH].
Qed.

Lemma holdsOnly_lowerEach {A} φ (lower : nat → A → nat → nat → Code)
  (lc vc : A → nat) xs :
  Forall (λ x, ∀ i nl nv, holdsOnly φ (lower i x nl nv)) xs →
  ∀ i nl nv, holdsOnly φ (lowerEach lower lc vc i xs nl nv).
Proof.
  induction 1 as [| x xs Hx _ IH]; intros i nl nv; simpl; [constructor |].
  apply holdsOnly_app. split; [apply Hx | apply IH].
Qed.

Ltac only_step :=
  repeat first
    [ apply holdsOnly_app; split
    | apply holdsOnly_positioned; reflexivity
    | apply holdsOnly_concat ].

Lemma lowered_lowerExpression symtable e :
  holdsOnly loweredOpcode (lowerExpression symtable e).
Proof.
  induction e as [sp ep x | sp ep n | sp ep s | sp ep es IH | sp ep e1 e2 e3
                 | sp ep es IH | sp ep cn fbs IH | sp ep cn e0 fbs
                 | sp ep fn es IH] using Expression_nested_ind;
    cbn [lowerExpression]; only_step; try (by constructor).
  - by apply Forall_fmap.
  - by apply Forall_fmap.
  - apply Forall_fmap. eapply Forall_impl; [exact IH |]. by intros [].
  - by apply Forall_fmap.
Qed.

Lemma lowered_lowerPatternCheck i18n symtable p target :
  holdsOnly loweredOpcode (lowerPatternCheck i18n symtable p target).
Proof. destruct p; simpl; by repeat constructor. Qed.

Lemma lowered_lowerPatternBind symtable p :
  holdsOnly loweredOpcode (lowerPatternBind symtable p).
Proof.
  destruct p as [sp ep | sp ep cn ps | sp ep ps | sp ep]; simpl;
    try constructor.
  - apply holdsOnly_concat, Forall_forall. intros code Hin.
    apply elem_of_lookup_zip_with in Hin as (i & x & y & -> & _).
    by repeat constructor.
  - apply holdsOnly_concat, Forall_forall. intros code Hin.
    apply elem_of_lookup_imap in Hin as (i & x & -> & _).
    by repeat constructor.
Qed.

Lemma lowered_lowerPatternUnbind p :
  holdsOnly loweredOpcode (lowerPatternUnbind p).
Proof.
  destruct p as [sp ep | sp ep cn ps | sp ep ps | sp ep]; simpl;
    try constructor;
    apply holdsOnly_concat, Forall_fmap, Forall_forall;
    intros; by repeat constructor.
Qed.

Lemma lowered_lowerStatement i18n symtable s :
  ∀ nl nv, holdsOnly loweredOpcode (lowerStatement i18n symtable s nl nv).
Proof.
  induction s as [sp ep ss IH | sp ep e | sp ep cond thn els IHt IHe
                 | sp ep t b IH | sp ep i r b IH | sp ep cond b IH
                 | sp ep subj bs IH | sp ep x e | sp ep xs e | sp ep p es]
    using Statement_nested_ind; intros nl nv.
  - cbn [lowerStatement]. apply holdsOnly_lowerEach.
    eapply Forall_impl; [exact IH |]. by intros s' Hs' _ nl' nv'.
  - apply lowered_lowerExpression.
  - destruct els as [els |]; cbn [lowerStatement]; only_step;
      try apply lowered_lowerExpression; try done.
    by apply IHe.
  - cbn [lowerStatement]. unfold repeatHeader, repeatFooter. only_step;
      try apply lowered_lowerExpression; try done.
  - cbn [lowerStatement]. unfold foreachTemplate. only_step;
      try apply lowered_lowerExpression; try done.
  - cbn [lowerStatement]. only_step;
      try apply lowered_lowerExpression; try done.
  - cbn [lowerStatement]. unfold switchFailure. only_step;
      try apply lowered_lowerExpression.
    + apply Forall_forall. intros code Hin.
      apply elem_of_lookup_imap in Hin as (k & b & -> & _).
      apply lowered_lowerPatternCheck.
    + apply holdsOnly_lowerEach.
      eapply Forall_impl; [exact IH |]. intros b Hb k nl' nv'.
      unfold switchBranchCode. only_step;
        try apply lowered_lowerPatternBind;
        try apply lowered_lowerPatternUnbind. apply Hb.
  - cbn [lowerStatement]. only_step; try apply lowered_lowerExpression.
  - cbn [lowerStatement]. only_step; try apply lowered_lowerExpression.
    apply Forall_forall. intros code Hin.
    apply elem_of_lookup_imap in Hin as (k & y & -> & _).
    by repeat constructor.
  - cbn [lowerStatement]. only_step.
    apply Forall_fmap, Forall_forall. intros e _.
    apply lowered_lowerExpression.
Qed.

Lemma Forall_forallb_1 {A} (P : A → Prop) (p : A → bool) xs :
  Forall (λ x, p x = true → P x) xs → forallb p xs = true → Forall P xs.
Proof.
  induction 1 as [| x xs Hx _ IH]; intros Hp; [constructor |].
  simpl in Hp. apply andb_true_iff in Hp as [? ?]. constructor; auto.
Qed.

Ltac known_step :=
  repeat first
    [ apply holdsOnly_app; split
    | apply holdsOnly_positioned; vm_compute; reflexivity
    | apply holdsOnly_concat ].

Lemma known_lowerExpression primitives symtable e :
  callsPrimitiveFunctions primitives e = true →
  holdsOnly (knownCall primitives) (lowerExpression symtable e).
Proof.
  induction e as [sp ep x | sp ep n | sp ep s | sp ep es IH | sp ep e1 e2 e3
                 | sp ep es IH | sp ep cn fbs IH | sp ep cn e0 fbs
                 | sp ep fn es IH] using Expression_nested_ind;
    intros Hcalls; cbn [lowerExpression]; simpl in Hcalls;
    known_step; try (by constructor).
  - apply Forall_fmap. by eapply Forall_forallb_1.
  - apply Forall_fmap. by eapply Forall_forallb_1.
  - apply Forall_fmap.
    apply (Forall_forallb_1 _
             (λ fb, match fb with
                    | FieldValueNode _ _ _ value =>
                        callsPrimitiveFunctions primitives value
                    end)); [| done].
    eapply Forall_impl; [exact IH |]. by intros [].
  - apply andb_true_iff in Hcalls as [_ Hcalls].
    apply Forall_fmap. by eapply Forall_forallb_1.
  - apply andb_true_iff in Hcalls as [Hf _].
    repeat constructor. simpl. rewrite Hf. by rewrite orb_true_r.
Qed.

Lemma known_lowerPatternCheck primitives i18n symtable p target :
  holdsOnly (knownCall primitives) (lowerPatternCheck i18n symtable p target).
Proof. destruct p; simpl; by repeat constructor. Qed.

Lemma known_lowerPatternBind primitives symtable p :
  holdsOnly (knownCall primitives) (lowerPatternBind symtable p).
Proof.
  destruct p as [sp ep | sp ep cn ps | sp ep ps | sp ep]; simpl;
    try constructor.
  - apply holdsOnly_concat, Forall_forall. intros code Hin.
    apply elem_of_lookup_zip_with in Hin as (i & x & y & -> & _).
    by repeat constructor.
  - apply holdsOnly_concat, Forall_forall. intros code Hin.
    apply elem_of_lookup_imap in Hin as (i & x & -> & _).
    by repeat constructor.
Qed.

Lemma known_lowerPatternUnbind primitives p :
  holdsOnly (knownCall primitives) (lowerPatternUnbind p).
Proof.
  destruct p as [sp ep | sp ep cn ps | sp ep ps | sp ep]; simpl;
    try constructor;
    apply holdsOnly_concat, Forall_fmap, Forall_forall;
    intros; by repeat constructor.
Qed.

Lemma known_lowerStatement primitives i18n symtable s :
  callsPrimitives primitives s = true →
  ∀ nl nv,
    holdsOnly (knownCall primitives) (lowerStatement i18n symtable s nl nv).
Proof.
  induction s as [sp ep ss IH | sp ep e | sp ep cond thn els IHt IHe
                 | sp ep t b IH | sp ep i r b IH | sp ep cond b IH
                 | sp ep subj bs IH | sp ep x e | sp ep xs e | sp ep p es]
    using Statement_nested_ind; intros Hcalls nl nv; simpl in Hcalls;
    repeat match goal with
           | H : _ && _ = true |- _ => apply andb_true_iff in H as [? ?]
           end.
  - cbn [lowerStatement]. apply holdsOnly_lowerEach.
    apply (Forall_forallb_1 _ (callsPrimitives primitives)); [| done].
    eapply Forall_impl; [exact IH |]. intros s' Hs' Hc _ nl' nv'. by apply Hs'.
  - by apply known_lowerExpression.
  - destruct els as [els |]; cbn [lowerStatement]; known_step;
      try (by apply known_lowerExpression); try (by apply IHt).
    by apply (IHe els).
  - cbn [lowerStatement]. unfold repeatHeader, repeatFooter. known_step;
      try (by apply known_lowerExpression); try (by apply IH).
  - cbn [lowerStatement]. unfold foreachTemplate. known_step;
      try (by apply known_lowerExpression); try (by apply IH).
  - cbn [lowerStatement]. known_step;
      try (by apply known_lowerExpression); try (by apply IH).
  - cbn [lowerStatement]. unfold switchFailure. known_step;
      try (by apply known_lowerExpression).
    + apply Forall_forall. intros code Hin.
      apply elem_of_lookup_imap in Hin as (k & b & -> & _).
      apply known_lowerPatternCheck.
    + apply holdsOnly_lowerEach.
      apply (Forall_forallb_1 _
               (λ b, callsPrimitives primitives (SwitchBranch_body b)));
        [| done].
      eapply Forall_impl; [exact IH |]. intros b Hb Hc k nl' nv'.
      unfold switchBranchCode. known_step;
        try apply known_lowerPatternBind;
        try apply known_lowerPatternUnbind. by apply Hb.
  - cbn [lowerStatement]. known_step; by apply known_lowerExpression.
  - cbn [lowerStatement]. known_step; try (by apply known_lowerExpression).
    apply Forall_forall. intros code Hin.
    apply elem_of_lookup_imap in Hin as (k & y & -> & _).
    by repeat constructor.
  - cbn [lowerStatement]. known_step.
    + apply Forall_fmap.
      apply (Forall_forallb_1 _ (callsPrimitiveFunctions primitives));
        [| done].
      apply Forall_forall. intros e _ He. by apply known_lowerExpression.
    + repeat constructor. simpl.
      match goal with H : isProcedure _ _ = true |- _ => rewrite H end.
      by rewrite orb_true_r.
Qed.

(** [_compileMain] with the counters it leaves: on a list of definitions
    that is not empty, the labels and the synthetic variables of the program
    bodies, and every call of the bodies a call of a primitive. *)
Lemma compileMain_counts i18n sp ep defs c c' :
  _compileMain i18n (MainNode sp ep defs) c = inr (tt, c') →
  if bool_decide (length defs = 0)
  then c' = advance c (positioned sp ep [IReturn]) 0 0
  else c' = advance c
              (lowerEach (λ _, lowerDefinition i18n (_symtable c))
                 Def_labelCount Def_variableCount 0 defs
                 (_nextLabel c) (_nextVariable c))
              (sum_list (map Def_labelCount defs))
              (sum_list (map Def_variableCount defs))
       ∧ forallb (Def_callsPrimitives (_primitives c)) defs = true.
Proof.
  simpl. case_bool_decide as Hlen; intros Hrun.
  - by rewrite produce_advance in Hrun; injection Hrun as <-.
  - apply bind_inr in Hrun as ([] & c1 & H1 & Hrun).
    rewrite (forOf_forIndexed _ 0) in H1.
    apply (forIndexed_lowerEach _
             (λ symtable _, lowerDefinition i18n symtable)
             Def_labelCount Def_variableCount Def_callsPrimitives) in H1.
    + destruct H1 as [-> Hcalls].
      rewrite forOf_nothing in Hrun by (by intros [] ?).
      by injection Hrun as <-.
    + intros k d Hk c1' c2 Hd.
      destruct d as [dsp dep body | | | | ]; simpl in *;
        try (unfold _compileInteractiveProgram, ret in Hd;
             injection Hd as <-; by rewrite advance_0).
      unfold _compileProgram in Hd.
      apply bind_inr in Hd as ([] & c3 & H3 & Hd).
      apply compileStatement_lower in H3 as [-> Hcalls].
      rewrite produce_advance in Hd. injection Hd as <-.
      rewrite advance_advance. split; [| done].
      by apply advance_eq; [| lia | lia].
Qed.

(** X2 — The code of a statement is closed.  A call of [_compileStatement]
    that returns has only appended to the code, has left the symbol table
    and the catalog as they were, and has not decreased the label counter;
    the [Label]s it has appended are the labels it has allocated, each placed
    once, and every jump it has appended goes to one of them: the code of a
    statement never jumps out of itself. *)
Theorem statement_labels_closed i18n s c c' :
  _compileStatement i18n s c = inr (tt, c') →
  ∃ out,
    _code c' = _code c ++ out
    ∧ _symtable c' = _symtable c
    ∧ _primitives c' = _primitives c
    ∧ _nextLabel c ≤ _nextLabel c'
    ∧ labels out ≡ₚ freshLabels (_nextLabel c) (_nextLabel c' - _nextLabel c)
    ∧ ∀ target, target ∈ jumpTargets out → target ∈ labels out.
Proof.
  intros Hrun. apply compileStatement_lower in Hrun as [-> _].
  eexists. split_and!; try reflexivity.
  - simpl. lia.
  - rewrite labels_lowerStatement. simpl.
    by replace (_nextLabel c + labelCount s - _nextLabel c)
      with (labelCount s) by lia.
  - intros target Htarget. rewrite labels_lowerStatement.
    apply jumpTargets_lowerStatement in Htarget as (k & -> & Hk).
    apply elem_of_freshLabels. eauto.
Qed.

Lemma statement_labels_closed_witness :
  let c := Compiler_new samplePrimitives sampleSymtable in
  let c' := advance c (lowerStatement sampleI18n sampleSymtable sampleBody 0 0)
              (labelCount sampleBody) (variableCount sampleBody) in
  ∃ out,
    _code c' = _code c ++ out
    ∧ _symtable c' = _symtable c
    ∧ _primitives c' = _primitives c
    ∧ _nextLabel c ≤ _nextLabel c'
    ∧ labels out ≡ₚ freshLabels (_nextLabel c) (_nextLabel c' - _nextLabel c)
    ∧ ∀ target, target ∈ jumpTargets out → target ∈ labels out.
Proof.
  intros c c'. apply (statement_labels_closed sampleI18n sampleBody).
  vm_compute. reflexivity.
Defined.

(** X3 — What the code of a statement never holds.  A call of
    [_compileStatement] that returns has appended no [Call], no [Return], no
    [UpdateStructure], no [Add], no [SaveState] and no [RestoreState]; and
    every [PrimitiveCall] it has appended names a procedure or a function of
    the catalog, or one of the seven primitives the lowerings call by
    name.  In particular a [return] statement emits no [Return]
    instruction. *)
Theorem statement_emits_lowered_instructions i18n s c c' :
  _compileStatement i18n s c = inr (tt, c') →
  ∃ out,
    _code c' = _code c ++ out
    ∧ holdsOnly loweredOpcode out
    ∧ holdsOnly (knownCall (_primitives c)) out.
Proof.
  intros Hrun. apply compileStatement_lower in Hrun as [-> Hcalls].
  eexists. split_and!; [reflexivity | |].
  - apply lowered_lowerStatement.
  - by apply known_lowerStatement.
Qed.

Lemma statement_emits_lowered_instructions_witness :
  let c := Compiler_new samplePrimitives sampleSymtable in
  let c' := advance c (lowerStatement sampleI18n sampleSymtable sampleBody 0 0)
              (labelCount sampleBody) (variableCount sampleBody) in
  ∃ out,
    _code c' = _code c ++ out
    ∧ holdsOnly loweredOpcode out
    ∧ holdsOnly (knownCall (_primitives c)) out.
Proof.
  intros c c'.
  apply (statement_emits_lowered_instructions sampleI18n sampleBody).
  vm_compute. reflexivity.
Defined.

(** ** The top level *)

Lemma countIf_app {A} (p : A → bool) xs ys :
  countIf p (xs ++ ys) = countIf p xs + countIf p ys.
Proof. unfold countIf. by rewrite List.filter_app, length_app. Qed.

Lemma countIf_isReturn_lowered code :
  holdsOnly loweredOpcode code → countIf isReturn code = 0.
Proof.
  induction 1 as [| i code Hi _ IH]; [done |].
  unfold countIf in *. simpl. unfold isReturn at 1.
  by destruct (opcode i).
Qed.

Lemma countIf_lowerDefinitions i18n symtable defs :
  ∀ i nl nv,
    countIf isReturn
      (lowerEach (λ _, lowerDefinition i18n symtable)
         Def_labelCount Def_variableCount i defs nl nv)
    = countIf isDefProgram defs.
Proof.
  induction defs as [| d defs IH]; intros i nl nv; [done |].
  rewrite lowerEach_cons, countIf_app, IH.
  change (d :: defs) with ([d] ++ defs). rewrite (countIf_app _ [d]).
  f_equal. destruct d as [dsp dep body | | | | ]; try done.
  simpl. rewrite countIf_app, countIf_isReturn_lowered; [done |].
  apply lowered_lowerStatement.
Qed.

(** X4 — One [Return] for each program.  The code a fresh compiler returns
    holds as many [Return] instructions as the AST holds [Program]
    definitions (one, for the AST with no definition at all): none comes from
    a statement, an interactive program, a procedure, a function or a
    type. *)
Theorem one_return_per_program i18n primitives symtable sp ep defs code :
  compileFresh i18n primitives symtable (MainNode sp ep defs) = inr code →
  countIf isReturn code
  = if bool_decide (length defs = 0) then 1 else countIf isDefProgram defs.
Proof.
  intros Hrun. apply compileFresh_lower in Hrun as ->. simpl.
  case_bool_decide; [done |]. apply countIf_lowerDefinitions.
Qed.

Lemma one_return_per_program_witness :
  countIf isReturn (lowerMain sampleI18n sampleSymtable sampleProgram) = 1.
Proof.
  assert (compileFresh sampleI18n samplePrimitives sampleSymtable
            (MainNode pos0 pos0
               [DefProgram pos0 pos0
                  (StmtBlock pos0 pos0
                     [StmtWhile pos0 pos0 (ExprVariable pos0 pos0 "b")
                        (StmtIf pos0 pos0 (ExprVariable pos0 pos0 "b")
                           sampleSwitch (Some sampleRepeat));
                      sampleForeach])])
          = inr (lowerMain sampleI18n sampleSymtable sampleProgram)) as Hrun.
  { vm_compute. reflexivity. }
  exact (one_return_per_program _ _ _ _ _ _ _ Hrun).
Defined.

(** X5 — An interactive program is compiled to nothing.  For every AST
    whose list of definitions is not empty and holds no [Program], whatever
    else it holds (an [InteractiveProgram] included), a fresh compiler does
    not throw and returns the empty code. *)
Theorem no_program_definition_no_code i18n primitives symtable sp ep defs :
  defs ≠ [] →
  Forall (λ d, isDefProgram d = false) defs →
  compileFresh i18n primitives symtable (MainNode sp ep defs) = inr [].
Proof.
  intros Hne Hdefs. unfold compileFresh, compile, _compileMain.
  case_bool_decide as Hlen; [by destruct defs |].
  unfold bind.
  rewrite forOf_nothing_Forall.
  - rewrite forOf_nothing_Forall; [done |].
    apply Forall_forall. by intros [] _ c.
  - eapply Forall_impl; [exact Hdefs |].
    by intros [] Hd c.
Qed.

Lemma no_program_definition_no_code_witness :
  compileFresh sampleI18n samplePrimitives sampleSymtable sampleInteractive
  = inr [].
Proof.
  apply (no_program_definition_no_code sampleI18n samplePrimitives
           sampleSymtable pos0 pos0).
  - discriminate.
  - repeat constructor.
Defined.

Lemma labels_lowerDefinitions i18n symtable defs :
  ∀ i nl nv,
    labels (lowerEach (λ _, lowerDefinition i18n symtable)
              Def_labelCount Def_variableCount i defs nl nv)
    ≡ₚ freshLabels nl (sum_list (map Def_labelCount defs)).
Proof.
  intros i nl nv. rewrite (labels_lowerEach _ _ _ (λ _, [])).
  - by rewrite concat_fmap_nil.
  - apply Forall_forall. intros d _ _ nl' nv'.
    destruct d as [dsp dep body | | | | ]; simpl; try done.
    by rewrite labels_app, labels_lowerStatement, app_nil_r.
Qed.

Lemma jumpTargets_lowerDefinitions i18n symtable defs :
  ∀ i nl nv,
    labelsWithin
      (jumpTargets (lowerEach (λ _, lowerDefinition i18n symtable)
                      Def_labelCount Def_variableCount i defs nl nv))
      nl (nl + sum_list (map Def_labelCount defs)).
Proof.
  intros i nl nv. apply (jumpTargets_lowerEach _ _ _ nl nl defs); [| lia].
  apply Forall_forall. intros d _ _ nl' nv' Hnl.
  destruct d as [dsp dep body | | | | ]; simpl; try apply labelsWithin_nil.
  rewrite jumpTargets_app. simpl. rewrite app_nil_r.
  eapply labelsWithin_mono; [apply jumpTargets_lowerStatement | lia | lia].
Qed.

(** X6 — [compile] keeps the code well labelled, also on a compiler that
    has compiled before.  [compile] does not reset the code nor the
    counters: the code it returns is the code of the compiler object, the
    code the object held before followed by what the call appends.  When the
    labels of the code held before are the labels allocated so far and its
    jumps go to them (as on a fresh compiler), the same holds after the call,
    and no label of the returned code occurs twice. *)
Theorem compile_keeps_labels i18n ast c code c' :
  wellLabelled c →
  compile i18n ast c = inr (code, c') →
  code = _code c'
  ∧ (∃ out, code = _code c ++ out)
  ∧ NoDup (labels code)
  ∧ wellLabelled c'.
Proof.
  intros [Hlabels Htargets] Hrun. unfold compile in Hrun.
  apply bind_inr in Hrun as ([] & c1 & Hmain & Hrun).
  unfold gets in Hrun. injection Hrun as <- <-.
  destruct ast as [sp ep defs]. apply compileMain_counts in Hmain.
  case_bool_decide as Hlen.
  - subst c1.
    assert (wellLabelled (advance c (positioned sp ep [IReturn]) 0 0)) as Hw;
      [| split_and!; [done | by eexists | | done];
         destruct Hw as [-> _]; apply NoDup_freshLabels ].
    split.
    + rewrite code_advance, labels_app, nextLabel_advance. simpl.
      by rewrite app_nil_r, Nat.add_0_r.
    + rewrite code_advance, labels_app, jumpTargets_app. simpl.
      by rewrite !app_nil_r.
  - destruct Hmain as [-> _].
    match goal with
    | |- _ ∧ _ ∧ _ ∧ wellLabelled ?c2 =>
        assert (wellLabelled c2) as Hw;
        [| split_and!; [done | by eexists | | done];
           destruct Hw as [-> _]; apply NoDup_freshLabels ]
    end.
    split.
    + rewrite code_advance, labels_app, nextLabel_advance.
      by rewrite labels_lowerDefinitions, Hlabels, freshLabels_app.
    + rewrite code_advance, labels_app, jumpTargets_app.
      intros target [Hold | Hnew]%elem_of_app; apply elem_of_app.
      * left. by apply Htargets.
      * right. rewrite labels_lowerDefinitions.
        apply jumpTargets_lowerDefinitions in Hnew as (k & -> & Hk).
        apply elem_of_freshLabels. eauto.
Qed.

Lemma compile_keeps_labels_witness :
  let c := Compiler_new samplePrimitives sampleSymtable in
  let code := lowerMain sampleI18n sampleSymtable sampleProgram in
  let c' := advance c code 12 3 in
  code = _code c'
  ∧ (∃ out, code = _code c ++ out)
  ∧ NoDup (labels code)
  ∧ wellLabelled c'.
Proof.
  intros c code c'. apply (compile_keeps_labels sampleI18n sampleProgram c).
  - split; [done |]. intros target Htarget. by apply elem_of_nil in Htarget.
  - vm_compute. reflexivity.
Defined.

(** ** Calls and constructors *)

Lemma forOf_primitives (es : list Expression) c c1 :
  forOf _compileExpression es c = inr (tt, c1) →
  _primitives c1 = _primitives c ∧ _symtable c1 = _symtable c.
Proof.
  intros Hargs.
  apply (forOf_expressions _ es) in Hargs as [-> _]; [done |].
  apply Forall_forall. intros; by apply compileExpression_lower.
Qed.

(** X7 — The dispatch of a function call.  For a function name other than
    [&&] and [||]: the arguments are compiled first, left to right, and an
    exception of theirs is the exception of the call; once they are
    compiled, a primitive function of the catalog is lowered to
    [PrimitiveCall] with the number of arguments, whatever the symbol table
    holds, and any other name ends in the [TypeError] of calling
    [this._symtable.isFunction], a method the symbol table does not have:
    none of the three [Error]s behind that call is reached, and the call
    never returns without the [PrimitiveCall]. *)
Theorem functionCall_dispatch sp ep functionName args c :
  functionName ≠ "&&" → functionName ≠ "||" →
  (∀ e, forOf _compileExpression args c = inl e →
        _compileExpression (ExprFunctionCall sp ep functionName args) c
        = inl e)
  ∧ (∀ c1, forOf _compileExpression args c = inr (tt, c1) →
       _compileExpression (ExprFunctionCall sp ep functionName args) c
       = if isFunction (_primitives c) functionName
         then inr (tt, advance c1
                         (positioned sp ep
                            [IPrimitiveCall functionName (length args)])
                         0 0)
         else inl (TypeError "this._symtable.isFunction is not a function")).
Proof.
  intros Hand Hor. simpl. unfold _compileExprFunctionCall.
  rewrite !bool_decide_eq_false_2 by done. simpl. split.
  - intros e Hargs. unfold bind. by rewrite Hargs.
  - intros c1 Hargs. unfold bind. rewrite Hargs. unfold gets.
    destruct (forOf_primitives _ _ _ Hargs) as [-> _].
    destruct (isFunction (_primitives c) functionName); [| done].
    unfold _compileExprFunctionCallPrimitive. by rewrite produce_advance.
Qed.

Lemma functionCall_dispatch_witness :
  let c := Compiler_new samplePrimitives sampleSymtable in
  let args := [ExprVariable pos0 pos0 "x"; ExprConstantNumber pos0 pos0 1] in
  let c1 :=
    advance c
      (positioned pos0 pos0 [IPushVariable "x"; IPushInteger 1]) 0 0 in
  _compileExpression (ExprFunctionCall pos0 pos0 "+" args) c
  = inr (tt, advance c1 (positioned pos0 pos0 [IPrimitiveCall "+" 2]) 0 0)
  ∧ _compileExpression (ExprFunctionCall pos0 pos0 "f" args) c
    = inl (TypeError "this._symtable.isFunction is not a function")
  ∧ _compileExpression
      (ExprFunctionCall pos0 pos0 "+"
         [ExprFunctionCall pos0 pos0 "f" []; ExprVariable pos0 pos0 "x"]) c
    = inl (TypeError "this._symtable.isFunction is not a function").
Proof.
  intros c args c1. split_and!.
  - apply (proj2 (functionCall_dispatch pos0 pos0 "+" args c
                    ltac:(discriminate) ltac:(discriminate)) c1).
    reflexivity.
  - apply (proj2 (functionCall_dispatch pos0 pos0 "f" args c
                    ltac:(discriminate) ltac:(discriminate)) c1).
    reflexivity.
  - apply (proj1 (functionCall_dispatch pos0 pos0 "+" _ c
                    ltac:(discriminate) ltac:(discriminate))).
    reflexivity.
Defined.

(** X8 — A constructor the symbol table does not declare.  For a
    constructor name that the table does not hold and that is not a property
    of [Object.prototype], compiling a structure expression of the
    constructor, once its field values are compiled, and compiling the check
    of a structure pattern of the constructor, both throw the error
    "Undefined constructor." of the symbol table. *)
Theorem undefined_constructor_raises (i18n : string → string) sp ep
    constructorName c :
  _constructorType (_symtable c) !! constructorName = None →
  inherited constructorName = false →
  (∀ fieldBindings c1,
     forOf _compileExpression (FieldValue_value <$> fieldBindings) c
     = inr (tt, c1) →
     _compileExpression (ExprStructure sp ep constructorName fieldBindings) c
     = inl (Error "Undefined constructor."))
  ∧ (∀ parameters targetLabel,
       _compilePatternCheck i18n
         (PatternStructure sp ep constructorName parameters) targetLabel c
       = inl (Error "Undefined constructor.")).
Proof.
  intros Hcn Hown. split.
  - intros fbs c1 Hvalues. simpl. unfold _compileExprStructure.
    assert (∀ acc c,
              forOf _compileExpression (FieldValue_value <$> fbs) c
              = inr (tt, c1) →
              forOfPush
                (λ fieldBinding,
                   match fieldBinding with
                   | FieldValueNode _ _ fieldName value =>
                       do _ <- _compileExpression value; ret fieldName
                   end) fbs acc c
              = inr (acc ++ map FieldValue_fieldName fbs, c1)) as Hpush.
    { clear. induction fbs as [| [fsp fep f v] fbs IH]; intros acc c Hrun.
      - simpl in *. unfold ret in *. injection Hrun as <-.
        by rewrite app_nil_r.
      - simpl in *. apply bind_inr in Hrun as ([] & c2 & Hv & Hrun).
        unfold bind at 1. unfold bind at 1. rewrite Hv. unfold ret at 1.
        rewrite (IH _ _ Hrun). by rewrite <- app_assoc. }
    unfold bind at 1. rewrite (Hpush [] c Hvalues).
    rewrite bind_gets.
    destruct (forOf_primitives _ _ _ Hvalues) as [_ Hst].
    unfold bind, lift, constructorType. by rewrite Hst, Hcn, Hown.
  - intros ps target. unfold _compilePatternCheck.
    unfold _compilePatternCheckStructure. rewrite bind_gets.
    unfold bind, lift, constructorType. by rewrite Hcn, Hown.
Qed.

Lemma undefined_constructor_raises_witness :
  let c := Compiler_new samplePrimitives sampleSymtable in
  _compileExpression
    (ExprStructure pos0 pos0 "Nada"
       [FieldValueNode pos0 pos0 "x" (ExprConstantNumber pos0 pos0 1)]) c
  = inl (Error "Undefined constructor.")
  ∧ _compilePatternCheck sampleI18n
      (PatternStructure pos0 pos0 "Nada" ["a"]) "L" c
    = inl (Error "Undefined constructor.").
Proof.
  intros c.
  destruct (undefined_constructor_raises sampleI18n pos0 pos0 "Nada" c)
    as [Hexpression Hpattern]; [vm_compute; reflexivity | reflexivity |].
  split; [| apply Hpattern].
  apply (Hexpression _
           (advance c (positioned pos0 pos0 [IPushInteger 1]) 0 0)).
  reflexivity.
Defined.

Lemma bindStructure_outcome sp ep parameters fieldNames :
  ∀ i c,
    i ≤ length parameters →
    forIndexed
      (λ i fieldName,
         match parameters !! i with
         | Some parameter =>
             _produceList sp ep
               [IReadStructureField fieldName; ISetVariable parameter]
         | None =>
             throw (TypeError
               "Cannot read properties of undefined (reading 'value')")
         end) i fieldNames c
    = if decide (i + length fieldNames ≤ length parameters)
      then inr (tt, advance c
                      (concat (zip_with
                                 (λ fieldName parameter,
                                    positioned sp ep
                                      [IReadStructureField fieldName;
                                       ISetVariable parameter])
                                 fieldNames (drop i parameters))) 0 0)
      else inl (TypeError
                  "Cannot read properties of undefined (reading 'value')").
Proof.
  induction fieldNames as [| fieldName fieldNames IH]; intros i c Hi.
  - simpl. rewrite decide_True by lia. by rewrite advance_0.
  - cbn [forIndexed length]. unfold bind at 1.
    destruct (parameters !! i) as [parameter |] eqn:Hp.
    + rewrite produceList_advance.
      pose proof (lookup_lt_Some _ _ _ Hp).
      rewrite IH by lia. rewrite (drop_S _ _ _ Hp).
      destruct (decide (S i + length fieldNames ≤ length parameters));
        [rewrite decide_True by lia | by rewrite decide_False by lia].
      cbn [zip_with concat]. by rewrite advance_advance.
    + apply lookup_ge_None in Hp. by rewrite decide_False by lia.
Qed.

(** X9 — The parameters of a structure pattern against the fields of its
    constructor.  With no parameter the bind sequence is empty.  With at
    least one parameter and fewer parameters than fields, compiling the bind
    sequence throws the [TypeError] of reading [value] on [undefined].  With
    at least as many parameters as fields, the bind sequence reads each field
    into the parameter of the same index and leaves the parameters beyond
    the fields unbound; the unbind sequence unsets every parameter. *)
Theorem patternBind_structure_arity sp ep constructorName parameters
    fieldNames c :
  _constructorFields (_symtable c) !! constructorName = Some fieldNames →
  let pattern := PatternStructure sp ep constructorName parameters in
  (parameters = [] → _compilePatternBind pattern c = inr (tt, c))
  ∧ (0 < length parameters < length fieldNames →
     _compilePatternBind pattern c
     = inl (TypeError "Cannot read properties of undefined (reading 'value')"))
  ∧ (0 < length parameters → length fieldNames ≤ length parameters →
     _compilePatternBind pattern c
     = inr (tt, advance c
                  (concat (zip_with
                             (λ fieldName parameter,
                                positioned sp ep
                                  [IReadStructureField fieldName;
                                   ISetVariable parameter])
                             fieldNames parameters)) 0 0))
  ∧ _compilePatternUnbind pattern c
    = inr (tt, advance c
                 (concat (map (λ parameter,
                                 positioned sp ep [IUnsetVariable parameter])
                            parameters)) 0 0).
Proof.
  intros Hfields pattern. split_and!; [| | | apply compilePatternUnbind_lower];
    unfold pattern, _compilePatternBind;
    unfold _compilePatternBindStructure.
  - by intros ->.
  - intros Hlen. rewrite bool_decide_eq_false_2 by lia.
    rewrite bind_gets. unfold bind, lift, constructorFields.
    rewrite Hfields. cbn [Pattern_startPos Pattern_endPos].
    rewrite bindStructure_outcome by lia. by rewrite decide_False by lia.
  - intros Hpos Hlen. rewrite bool_decide_eq_false_2 by lia.
    rewrite bind_gets. unfold bind, lift, constructorFields.
    rewrite Hfields. cbn [Pattern_startPos Pattern_endPos].
    rewrite bindStructure_outcome by lia. by rewrite decide_True by lia.
Qed.

Lemma patternBind_structure_arity_witness :
  let c := Compiler_new samplePrimitives sampleSymtable in
  _compilePatternBind (PatternStructure pos0 pos0 "Coord" ["a"]) c
  = inl (TypeError "Cannot read properties of undefined (reading 'value')")
  ∧ _compilePatternBind (PatternStructure pos0 pos0 "Coord" ["a"; "b"; "c"]) c
    = inr (tt, advance c
                 (positioned pos0 pos0
                    [IReadStructureField "x"; ISetVariable "a";
                     IReadStructureField "y"; ISetVariable "b"]) 0 0)
  ∧ _compilePatternUnbind (PatternStructure pos0 pos0 "Coord" ["a"; "b"; "c"])
      c
    = inr (tt, advance c
                 (positioned pos0 pos0
                    [IUnsetVariable "a"; IUnsetVariable "b";
                     IUnsetVariable "c"]) 0 0).
Proof.
  intros c.
  assert (_constructorFields (_symtable c) !! "Coord" = Some ["x"; "y"])
    as Hfields by (vm_compute; reflexivity).
  split_and!.
  - apply (patternBind_structure_arity pos0 pos0 "Coord" ["a"] _ c Hfields).
    simpl. lia.
  - apply (patternBind_structure_arity pos0 pos0 "Coord" ["a"; "b"; "c"] _ c
             Hfields); simpl; lia.
  - apply (patternBind_structure_arity pos0 pos0 "Coord" ["a"; "b"; "c"] _ c
             Hfields).
Defined.

Lemma procedureCall_not_primitive_witness :
  _compileStatement sampleI18n
    (StmtProcedureCall pos0 pos0 "Avanzar" [ExprVariable pos0 pos0 "x"])
    (Compiler_new samplePrimitives sampleSymtable)
  = inl (ReferenceError "functionName is not defined").
Proof.
  eapply (procedureCall_not_primitive sampleI18n pos0 pos0 "Avanzar"
            [ExprVariable pos0 pos0 "x"]);
    vm_compute; reflexivity.
Defined.

(** * The symbol table *)

Lemma ownValue_own {A} name (dictionary : gmap string A) st :
  inherited name = false →
  ownValue name dictionary st = Returned (dictionary !! name) st.
Proof. intros H. unfold ownValue. by rewrite H. Qed.

Lemma leaves_bind {A B} P (m : ST A) (k : A → ST B) st :
  leaves P (m st) →
  (∀ a st', m st = Returned a st' → P st' → leaves P (k a st')) →
  leaves P (st_bind m k st).
Proof.
  intros Hm Hk. unfold st_bind. destruct (m st) as [a st' | e st' |]; auto.
Qed.

Lemma leaves_ownValue {A B} P name (dictionary : gmap string A)
    (k : option A → ST B) st :
  P st →
  (inherited name = false → leaves P (k (dictionary !! name) st)) →
  leaves P (st_bind (ownValue name dictionary) k st).
Proof.
  intros Hst Hk. unfold st_bind, ownValue.
  destruct (inherited name); [done | by apply Hk].
Qed.

Lemma st_bind_returned {A B} (m : ST A) (k : A → ST B) st b st' :
  st_bind m k st = Returned b st' →
  ∃ a st1, m st = Returned a st1 ∧ k a st1 = Returned b st'.
Proof.
  unfold st_bind. destruct (m st) as [a st1 | |]; [eauto | done | done].
Qed.

Lemma ownValue_returned {A} name (dictionary : gmap string A) st r st' :
  ownValue name dictionary st = Returned r st' →
  inherited name = false ∧ r = dictionary !! name ∧ st' = st.
Proof.
  unfold ownValue. destruct (inherited name); [done |]. by intros [= <- <-].
Qed.

(** ** Procedures and the program *)

(** X11 — The first definition of a procedure wins.  In a table where the
    name is free (and is not a property of [Object.prototype]),
    [defProcedure] returns and stores the definition under its name, and
    [procedureDefinition] then returns it; a second [defProcedure] of the
    same name throws the syntax error "procedure-already-defined", at the
    position of the second definition and with the positions of both, and
    leaves the table as it was; the lookups of the other names are as
    before. *)
Theorem defProcedure_first_wins st d1 d2 name :
  Def_name d1 = Some name → Def_name d2 = Some name →
  inherited name = false →
  _procedures st !! name = None →
  let st1 := with_procedures (<[name := d1]> (_procedures st)) st in
  defProcedure d1 st = Returned tt st1
  ∧ procedureDefinition name st1 = Returned d1 st1
  ∧ defProcedure d2 st1
    = Thrown
        (GbsSyntaxError (Def_startPos d2) "errmsg:procedure-already-defined"
           [ArgName name; ArgPosition (Def_startPos d1);
            ArgPosition (Def_startPos d2)]) st1
  ∧ ∀ other, other ≠ name → inherited other = false →
      procedureDefinition other st1
      = match procedureDefinition other st with
        | Returned d _ => Returned d st1
        | Thrown e _ => Thrown e st1
        | Outside _ => Outside st1
        end.
Proof.
  intros Hd1 Hd2 Hown Hfresh st1. split_and!.
  - unfold defProcedure, st_bind, st_gets. rewrite Hd1, ownValue_own by done.
    by rewrite Hfresh.
  - unfold procedureDefinition, lookupOrThrow, st_bind, st_gets.
    rewrite ownValue_own by done. simpl. by rewrite lookup_insert_eq.
  - unfold defProcedure, st_bind, st_gets. rewrite Hd2, ownValue_own by done.
    simpl. by rewrite lookup_insert_eq.
  - intros other Hother Hown'.
    unfold procedureDefinition, lookupOrThrow, st_bind, st_gets.
    rewrite !ownValue_own by done. simpl.
    rewrite lookup_insert_ne by done.
    by destruct (_procedures st !! other).
Qed.

Lemma defProcedure_first_wins_witness :
  let st1 := with_procedures {[ "Avanzar" := sampleProcedure ]}
               SymbolTable_new in
  defProcedure sampleProcedure SymbolTable_new = Returned tt st1
  ∧ procedureDefinition "Avanzar" st1 = Returned sampleProcedure st1
  ∧ defProcedure sampleProcedureAgain st1
    = Thrown
        (GbsSyntaxError (mkPosition 7 1) "errmsg:procedure-already-defined"
           [ArgName "Avanzar"; ArgPosition pos0;
            ArgPosition (mkPosition 7 1)]) st1
  ∧ ∀ other, other ≠ "Avanzar" → inherited other = false →
      procedureDefinition other st1
      = match procedureDefinition other SymbolTable_new with
        | Returned d _ => Returned d st1
        | Thrown e _ => Thrown e st1
        | Outside _ => Outside st1
        end.
Proof.
  intros st1.
  apply (defProcedure_first_wins SymbolTable_new sampleProcedure
           sampleProcedureAgain "Avanzar"); reflexivity.
Defined.

(** X12 — One program.  [defProgram] and [defInteractiveProgram] fill the
    same slot: once either has stored a definition, both throw the syntax
    error "program-already-defined" on any further definition, with the
    position of the stored definition and of the rejected one, and the
    stored definition stays. *)
Theorem defProgram_once st d1 d2 :
  _program st = None →
  let st1 := with_program (Some d1) st in
  let rejected :=
    Thrown
      (GbsSyntaxError (Def_startPos d2) "errmsg:program-already-defined"
         [ArgPosition (Def_startPos d1); ArgPosition (Def_startPos d2)]) st1 in
  defProgram d1 st = Returned tt st1
  ∧ defInteractiveProgram d1 st = Returned tt st1
  ∧ _program st1 = Some d1
  ∧ defProgram d2 st1 = rejected
  ∧ defInteractiveProgram d2 st1 = rejected.
Proof.
  intros Hnone st1 rejected.
  unfold defInteractiveProgram, defProgram, st_bind, st_gets.
  rewrite Hnone. by split_and!.
Qed.

Lemma defProgram_once_witness :
  let d1 := DefProgram pos0 pos0 emptyBlock in
  let d2 := DefInteractiveProgram (mkPosition 7 1) (mkPosition 9 1) [] in
  let st1 := with_program (Some d1) SymbolTable_new in
  let rejected :=
    Thrown
      (GbsSyntaxError (mkPosition 7 1) "errmsg:program-already-defined"
         [ArgPosition pos0; ArgPosition (mkPosition 7 1)]) st1 in
  defProgram d1 SymbolTable_new = Returned tt st1
  ∧ defInteractiveProgram d1 SymbolTable_new = Returned tt st1
  ∧ _program st1 = Some d1
  ∧ defProgram d2 st1 = rejected
  ∧ defInteractiveProgram d2 st1 = rejected.
Proof.
  intros d1 d2 st1 rejected.
  apply (defProgram_once SymbolTable_new d1 d2). reflexivity.
Defined.

(** ** Functions and fields *)

Lemma with_fields_same st : with_fields (_fields st) st = st.
Proof. by destruct st. Qed.

Lemma declareField_apart startPos typeName constructorName fieldName index st :
  namespacesApart st →
  leaves namespacesApart
    (_declareField startPos typeName constructorName fieldName index st).
Proof.
  intros Hst. unfold _declareField.
  apply leaves_bind; [done |]. intros functions st0 [= <- <-] _.
  apply leaves_ownValue; [done |]. intros Hown.
  destruct (_functions st !! fieldName) as [f |] eqn:Hf; [done |].
  apply leaves_bind; [done |]. intros fields st0 [= <- <-] _.
  apply leaves_ownValue; [done |]. intros _.
  assert (∀ fields', namespacesApart (with_fields fields' st) →
          leaves namespacesApart
            (st_modify
               (λ st, with_fields
                        (alter (λ descriptors,
                                  descriptors
                                  ++ [mkFieldDescriptor typeName
                                        constructorName index])
                           fieldName (_fields st)) st)
               (with_fields fields' st))) as Hpush.
  { intros fields' Hapart name. simpl.
    destruct (decide (name = fieldName)) as [-> | Hne]; [by left |].
    rewrite lookup_alter_ne by done. apply (Hapart name). }
  destruct (_fields st !! fieldName) as [ds |] eqn:Hds.
  - apply leaves_bind; [done |]. intros [] st0 [= <-] _.
    specialize (Hpush (_fields st)). rewrite with_fields_same in Hpush.
    by apply Hpush.
  - apply leaves_bind.
    + intros name. simpl. destruct (Hst name) as [? | ?]; [by left |].
      destruct (decide (name = fieldName)) as [-> | Hne]; [by left |].
      right. by rewrite lookup_insert_ne.
    + intros [] st0 [= <-] _. apply Hpush. intros name. simpl.
      destruct (decide (name = fieldName)) as [-> | Hne]; [by left |].
      rewrite lookup_insert_ne by done. apply (Hst name).
Qed.

Lemma apart_same_names st st' :
  _functions st' = _functions st → _fields st' = _fields st →
  namespacesApart st → namespacesApart st'.
Proof. intros Hf Hd Hst name. rewrite Hf, Hd. apply Hst. Qed.

Lemma declareFieldNames_apart fieldNamePos declaration typeName names :
  ∀ constructorFields fieldNames index st,
    namespacesApart st →
    leaves namespacesApart
      (declareFieldNames fieldNamePos declaration typeName names
         constructorFields fieldNames index st).
Proof.
  induction names as [| fieldName names IH];
    intros seen fieldNames index st Hst; [done |].
  cbn [declareFieldNames]. apply leaves_ownValue; [done |]. intros _.
  destruct (seen !! fieldName); [done |].
  apply leaves_bind; [by apply declareField_apart |].
  intros [] st' _ Hst'. by apply IH.
Qed.

Lemma declareConstructor_apart fieldNamePos typeName declaration st :
  namespacesApart st →
  leaves namespacesApart
    (_declareConstructor fieldNamePos typeName declaration st).
Proof.
  intros Hst. unfold _declareConstructor.
  apply leaves_bind; [done |]. intros constructors st0 [= <- <-] _.
  apply leaves_ownValue; [done |]. intros _.
  destruct (_constructors st !! cd_constructorName declaration); [done |].
  apply leaves_bind; [by apply (apart_same_names st) |].
  intros [] st1 [= <-] Hst1.
  apply leaves_bind; [by apply (apart_same_names st) |].
  intros [] st2 [= <-] Hst2.
  apply leaves_bind; [by apply declareFieldNames_apart |].
  intros fieldNames st3 _ Hst3. by apply (apart_same_names st3).
Qed.

Lemma declareConstructors_apart fieldNamePos typeName declarations :
  ∀ constructorNames st,
    namespacesApart st →
    leaves namespacesApart
      (declareConstructors fieldNamePos typeName declarations
         constructorNames st).
Proof.
  induction declarations as [| declaration declarations IH];
    intros constructorNames st Hst; [done |].
  cbn [declareConstructors].
  apply leaves_bind; [by apply declareConstructor_apart |].
  intros [] st' _ Hst'. by apply IH.
Qed.

(** X13 — No name is both a function and a field.  When this holds of a
    table, it holds of the table each of the five definition methods leaves,
    whether the method returns, throws, or ends on a name that is a property
    of [Object.prototype]: [defFunction] stores nothing under the name of a
    field, and the declaration of a field stores nothing under the name of
    a function. *)
Theorem namespaces_kept_apart fieldNamePos definition st :
  namespacesApart st →
  leaves namespacesApart (defProgram definition st)
  ∧ leaves namespacesApart (defInteractiveProgram definition st)
  ∧ leaves namespacesApart (defProcedure definition st)
  ∧ leaves namespacesApart (defFunction definition st)
  ∧ leaves namespacesApart (defType fieldNamePos definition st).
Proof.
  intros Hst.
  assert (leaves namespacesApart (defProgram definition st)) as Hprogram.
  { unfold defProgram. apply leaves_bind; [done |].
    intros program st0 [= <- <-] _. by destruct (_program st). }
  split_and!; try done.
  - unfold defProcedure. destruct (Def_name definition) as [name |]; [| done].
    apply leaves_bind; [done |]. intros procedures st0 [= <- <-] _.
    apply leaves_ownValue; [done |]. intros _.
    by destruct (_procedures st !! name).
  - unfold defFunction. destruct (Def_name definition) as [name |]; [| done].
    apply leaves_bind; [done |]. intros functions st0 [= <- <-] _.
    apply leaves_ownValue; [done |]. intros _.
    destruct (_functions st !! name) eqn:Hfunction; [done |].
    apply leaves_bind; [done |]. intros fields st0 [= <- <-] _.
    apply leaves_ownValue; [done |]. intros _.
    destruct (_fields st !! name) as [descriptors |] eqn:Hfield.
    + apply leaves_bind; [| by intros ? ? ? ?].
      unfold positionOfField. destruct descriptors as [| fd ?]; [done |].
      apply leaves_bind; [done |]. intros constructors st0 [= <- <-] _.
      apply leaves_ownValue; [done |]. intros _.
      by destruct (_constructors st !! fd_constructorName fd).
    + intros other. simpl.
      destruct (decide (other = name)) as [-> | Hne]; [by right |].
      rewrite lookup_insert_ne by done. apply Hst.
  - unfold defType.
    destruct definition as [| | | | sp ep typeName declarations]; try done.
    apply leaves_bind; [done |]. intros types st0 [= <- <-] _.
    apply leaves_ownValue; [done |]. intros _.
    destruct (_types st !! typeName); [done |].
    apply leaves_bind; [by apply (apart_same_names st) |].
    intros [] st1 [= <-] Hst1.
    apply leaves_bind; [by apply declareConstructors_apart |].
    intros names st2 _ Hst2. by apply (apart_same_names st2).
Qed.

Lemma namespaces_kept_apart_witness :
  let st := sampleFunctionTable in
  (∃ e st',
     defFunction sampleFieldFunction st = Thrown e st'
     ∧ namespacesApart st')
  ∧ (∃ e st',
       defType sampleFieldNamePos sampleClashType st = Thrown e st'
       ∧ _fields st' !! "x"
         = Some [mkFieldDescriptor "Coord" "Coord" 0;
                 mkFieldDescriptor "Vector" "Vector" 0]
       ∧ namespacesApart st')
  ∧ (∃ st',
       defType sampleFieldNamePos samplePrototypeType st = Outside st'
       ∧ is_Some (_fields st' !! "largo")
       ∧ namespacesApart st').
Proof.
  intros st.
  assert (namespacesApart st) as Hst.
  { intros name. destruct (decide (name = "norma")) as [-> | Hne].
    - by right.
    - left. simpl. by rewrite lookup_singleton_ne. }
  split_and!.
  - destruct (namespaces_kept_apart sampleFieldNamePos sampleFieldFunction
                st Hst) as (_ & _ & _ & Hleaves & _).
    eexists _, _. split; [vm_compute; reflexivity | exact Hleaves].
  - destruct (namespaces_kept_apart sampleFieldNamePos sampleClashType
                st Hst) as (_ & _ & _ & _ & Hleaves).
    eexists _, _. split_and!;
      [vm_compute; reflexivity | vm_compute; reflexivity | exact Hleaves].
  - destruct (namespaces_kept_apart sampleFieldNamePos samplePrototypeType
                st Hst) as (_ & _ & _ & _ & Hleaves).
    eexists. split_and!;
      [vm_compute; reflexivity | vm_compute; by eexists | exact Hleaves].
Defined.

(** ** Types *)

Lemma declareField_returned startPos typeName constructorName fieldName index
    st st' :
  _declareField startPos typeName constructorName fieldName index st
  = Returned tt st' →
  inherited fieldName = false
  ∧ _functions st !! fieldName = None
  ∧ st' = with_fields
            (registerField typeName constructorName index fieldName
               (_fields st)) st.
Proof.
  unfold _declareField. intros Hrun.
  apply st_bind_returned in Hrun as (functions & st0 & [= <- <-] & Hrun).
  apply st_bind_returned in Hrun as (clash & st0 & Hown & Hrun).
  apply ownValue_returned in Hown as (Hown & -> & ->).
  destruct (_functions st !! fieldName); [done |].
  apply st_bind_returned in Hrun as (fields & st0 & [= <- <-] & Hrun).
  apply st_bind_returned in Hrun as (present & st0 & Hown' & Hrun).
  apply ownValue_returned in Hown' as (_ & -> & ->).
  split_and!; [done | done |]. unfold registerField.
  destruct (_fields st !! fieldName) as [ds |] eqn:Hds.
  - apply st_bind_returned in Hrun as ([] & st0 & [= <-] & [= <-]).
    unfold with_fields. simpl. f_equal.
    apply map_eq. intros name.
    destruct (decide (name = fieldName)) as [-> | Hne].
    + by rewrite lookup_alter_eq, lookup_insert_eq, Hds.
    + by rewrite lookup_alter_ne, lookup_insert_ne.
  - apply st_bind_returned in Hrun as ([] & st0 & [= <-] & [= <-]).
    unfold with_fields. simpl. f_equal.
    apply map_eq. intros name.
    destruct (decide (name = fieldName)) as [-> | Hne].
    + by rewrite lookup_alter_eq, !lookup_insert_eq.
    + by rewrite lookup_alter_ne, !lookup_insert_ne.
Qed.

Lemma declareFieldNames_returned fieldNamePos declaration typeName names :
  ∀ seen acc index st result st',
    declareFieldNames fieldNamePos declaration typeName names seen acc index
      st = Returned result st' →
    result = acc ++ names
    ∧ ownNames names
    ∧ NoDup names
    ∧ (∀ f, f ∈ names → seen !! f = None ∧ _functions st !! f = None)
    ∧ st' = with_fields
              (registerFields typeName (cd_constructorName declaration)
                 names index (_fields st)) st.
Proof.
  induction names as [| fieldName names IH];
    intros seen acc index st result st' Hrun.
  { injection Hrun as <- <-. rewrite app_nil_r.
    split_and!; [done | constructor | constructor | | by destruct st].
    intros f Hf. by apply elem_of_nil in Hf. }
  cbn [declareFieldNames] in Hrun.
  apply st_bind_returned in Hrun as (repeated & st0 & Hown & Hrun).
  apply ownValue_returned in Hown as (Hown & -> & ->).
  destruct (seen !! fieldName) eqn:Hseen; [done |].
  apply st_bind_returned in Hrun as ([] & st1 & Hfield & Hrun).
  apply declareField_returned in Hfield as (_ & Hfunction & ->).
  apply IH in Hrun as (-> & Hnames & Hnodup & Hfresh & ->).
  split_and!.
  - by rewrite <- app_assoc.
  - by constructor.
  - constructor; [| done]. intros Hin.
    destruct (Hfresh _ Hin) as [Hin' _]. by rewrite lookup_insert_eq in Hin'.
  - intros f [-> | Hf]%elem_of_cons; [done |].
    destruct (Hfresh _ Hf) as [Hs Hfn]. split; [| done].
    destruct (decide (f = fieldName)) as [-> | Hne].
    + by rewrite lookup_insert_eq in Hs.
    + by rewrite lookup_insert_ne in Hs.
  - done.
Qed.

Lemma declareConstructor_returned fieldNamePos typeName declaration st st' :
  _declareConstructor fieldNamePos typeName declaration st = Returned tt st' →
  inherited (cd_constructorName declaration) = false
  ∧ _constructors st !! cd_constructorName declaration = None
  ∧ ownNames (cd_fieldNames declaration)
  ∧ NoDup (cd_fieldNames declaration)
  ∧ (∀ f, f ∈ cd_fieldNames declaration → _functions st !! f = None)
  ∧ st' = registerConstructor typeName declaration st.
Proof.
  unfold _declareConstructor. intros Hrun.
  apply st_bind_returned in Hrun as (constructors & st0 & [= <- <-] & Hrun).
  apply st_bind_returned in Hrun as (previous & st0 & Hown & Hrun).
  apply ownValue_returned in Hown as (Hown & -> & ->).
  destruct (_constructors st !! cd_constructorName declaration) eqn:Hfresh;
    [done |].
  apply st_bind_returned in Hrun as ([] & st1 & [= <-] & Hrun).
  apply st_bind_returned in Hrun as ([] & st2 & [= <-] & Hrun).
  apply st_bind_returned in Hrun as (fieldNames & st3 & Hfields & [= <-]).
  apply declareFieldNames_returned in Hfields
    as (-> & Hnames & Hnodup & Hfree & ->).
  split_and!; try done.
  intros f Hf. by destruct (Hfree f Hf).
Qed.

Lemma declareConstructors_returned fieldNamePos typeName declarations :
  ∀ acc st result st',
    declareConstructors fieldNamePos typeName declarations acc st
    = Returned result st' →
    result = acc ++ (cd_constructorName <$> declarations)
    ∧ ownNames (cd_constructorName <$> declarations)
    ∧ NoDup (cd_constructorName <$> declarations)
    ∧ Forall (λ declaration,
                _constructors st !! cd_constructorName declaration = None
                ∧ ownNames (cd_fieldNames declaration)
                ∧ NoDup (cd_fieldNames declaration)
                ∧ ∀ f, f ∈ cd_fieldNames declaration →
                       _functions st !! f = None) declarations
    ∧ st' = foldl (λ st declaration,
                     registerConstructor typeName declaration st)
              st declarations.
Proof.
  induction declarations as [| declaration declarations IH];
    intros acc st result st' Hrun.
  { injection Hrun as <- <-. rewrite app_nil_r.
    by split_and!; try constructor. }
  cbn [declareConstructors] in Hrun.
  apply st_bind_returned in Hrun as ([] & st1 & Hone & Hrun).
  apply declareConstructor_returned in Hone
    as (Hown & Hfresh & Hnames & Hnodup & Hfree & ->).
  apply IH in Hrun as (-> & Howns & Hnodups & Hall & ->).
  split_and!.
  - by rewrite <- app_assoc.
  - by constructor.
  - rewrite fmap_cons. constructor; [| done]. intros Hin.
    apply list_elem_of_fmap in Hin as (other & Heq & Hin).
    rewrite Forall_forall in Hall. destruct (Hall _ Hin) as [Hnone _].
    simpl in Hnone. by rewrite <- Heq, lookup_insert_eq in Hnone.
  - constructor; [done |].
    eapply Forall_impl; [exact Hall |].
    intros other (Hnone & ? & ? & Hfn). simpl in Hnone, Hfn.
    split_and!; try done.
    destruct (decide (cd_constructorName other
                      = cd_constructorName declaration)) as [Heq | Hne].
    + by rewrite Heq, lookup_insert_eq in Hnone.
    + by rewrite lookup_insert_ne in Hnone.
  - done.
Qed.

Lemma registerField_grows typeName constructorName index fieldName fields f ds :
  fields !! f = Some ds →
  ∃ extra,
    registerField typeName constructorName index fieldName fields !! f
    = Some (ds ++ extra).
Proof.
  intros Hf. unfold registerField.
  destruct (decide (f = fieldName)) as [-> | Hne].
  - rewrite lookup_insert_eq, Hf. by eexists.
  - rewrite lookup_insert_ne by done. exists []. by rewrite app_nil_r.
Qed.

Lemma registerFields_grows typeName constructorName names :
  ∀ index fields f ds,
    fields !! f = Some ds →
    ∃ extra,
      registerFields typeName constructorName names index fields !! f
      = Some (ds ++ extra).
Proof.
  induction names as [| fieldName names IH]; intros index fields f ds Hf.
  { exists []. by rewrite app_nil_r. }
  cbn [registerFields].
  destruct (registerField_grows typeName constructorName index fieldName
              fields f ds Hf) as (extra1 & H1).
  destruct (IH (S index) _ f _ H1) as (extra2 & H2).
  exists (extra1 ++ extra2). by rewrite H2, app_assoc.
Qed.

Lemma registerFields_holds typeName constructorName names :
  ∀ index fields i f,
    names !! i = Some f →
    ∃ ds,
      registerFields typeName constructorName names index fields !! f
      = Some ds
      ∧ mkFieldDescriptor typeName constructorName (index + i) ∈ ds.
Proof.
  induction names as [| fieldName names IH]; intros index fields i f Hi;
    [done |].
  cbn [registerFields]. destruct i as [| i].
  - injection Hi as ->.
    destruct (registerFields_grows typeName constructorName names (S index)
                (registerField typeName constructorName index f fields) f
                (default [] (fields !! f)
                 ++ [mkFieldDescriptor typeName constructorName index]))
      as (extra & Hextra).
    { unfold registerField. by rewrite lookup_insert_eq. }
    eexists. split; [exact Hextra |].
    rewrite Nat.add_0_r. apply elem_of_app. left. apply elem_of_app. right.
    constructor.
  - destruct (IH (S index) (registerField typeName constructorName index
                              fieldName fields) i f Hi) as (ds & Hds & Hin).
    exists ds. split; [done |].
    by replace (index + S i) with (S index + i) by lia.
Qed.

Lemma registerConstructors_other typeName declarations :
  ∀ st name,
    name ∉ cd_constructorName <$> declarations →
    let st' := foldl (λ st declaration,
                        registerConstructor typeName declaration st)
                 st declarations in
    _constructors st' !! name = _constructors st !! name
    ∧ _constructorType st' !! name = _constructorType st !! name
    ∧ _constructorFields st' !! name = _constructorFields st !! name.
Proof.
  induction declarations as [| declaration declarations IH];
    intros st name Hname; [done |].
  rewrite fmap_cons, not_elem_of_cons in Hname. destruct Hname as [Hne Hname].
  cbn [foldl]. destruct (IH (registerConstructor typeName declaration st)
                           name Hname) as (-> & -> & ->).
  simpl. by rewrite !lookup_insert_ne.
Qed.

Lemma registerConstructors_frame typeName declarations :
  ∀ st,
    let st' := foldl (λ st declaration,
                        registerConstructor typeName declaration st)
                 st declarations in
    _program st' = _program st ∧ _procedures st' = _procedures st
    ∧ _functions st' = _functions st ∧ _types st' = _types st
    ∧ _typeConstructors st' = _typeConstructors st
    ∧ ∀ f ds, _fields st !! f = Some ds →
              ∃ extra, _fields st' !! f = Some (ds ++ extra).
Proof.
  induction declarations as [| declaration declarations IH]; intros st.
  { split_and!; try done. intros f ds Hf. exists []. by rewrite app_nil_r. }
  cbn [foldl].
  destruct (IH (registerConstructor typeName declaration st))
    as (-> & -> & -> & -> & -> & Hfields).
  split_and!; try done. intros f ds Hf. simpl in Hfields.
  destruct (registerFields_grows typeName (cd_constructorName declaration)
              (cd_fieldNames declaration) 0 (_fields st) f ds Hf)
    as (extra1 & H1).
  destruct (Hfields f _ H1) as (extra2 & H2).
  exists (extra1 ++ extra2). by rewrite H2, app_assoc.
Qed.

Lemma registerConstructors_holds typeName declarations :
  ∀ st declaration,
    NoDup (cd_constructorName <$> declarations) →
    declaration ∈ declarations →
    let st' := foldl (λ st declaration,
                        registerConstructor typeName declaration st)
                 st declarations in
    let name := cd_constructorName declaration in
    _constructors st' !! name = Some declaration
    ∧ _constructorType st' !! name = Some typeName
    ∧ _constructorFields st' !! name = Some (cd_fieldNames declaration)
    ∧ ∀ i f, cd_fieldNames declaration !! i = Some f →
             ∃ ds, _fields st' !! f = Some ds
                   ∧ mkFieldDescriptor typeName name i ∈ ds.
Proof.
  induction declarations as [| first declarations IH];
    intros st declaration Hnodup Hin; [by apply elem_of_nil in Hin |].
  rewrite fmap_cons in Hnodup. apply NoDup_cons in Hnodup as [Hfirst Hnodup].
  cbn [foldl]. apply elem_of_cons in Hin as [-> | Hin].
  - destruct (registerConstructors_other typeName declarations
                (registerConstructor typeName first st)
                (cd_constructorName first) Hfirst) as (-> & -> & ->).
    simpl. rewrite !lookup_insert_eq. split_and!; try done.
    intros i f Hi.
    destruct (registerFields_holds typeName (cd_constructorName first)
                (cd_fieldNames first) 0 (_fields st) i f Hi)
      as (ds & Hds & Hmem).
    destruct (registerConstructors_frame typeName declarations
                (registerConstructor typeName first st))
      as (_ & _ & _ & _ & _ & Hgrow).
    destruct (Hgrow f ds Hds) as (extra & Hextra).
    exists (ds ++ extra). split; [done |]. apply elem_of_app. by left.
  - by apply IH.
Qed.

Lemma defType_returned fieldNamePos sp ep typeName declarations st st' :
  defType fieldNamePos (DefType sp ep typeName declarations) st
  = Returned tt st' →
  inherited typeName = false
  ∧ _types st !! typeName = None
  ∧ ownNames (cd_constructorName <$> declarations)
  ∧ NoDup (cd_constructorName <$> declarations)
  ∧ Forall (λ declaration,
              _constructors st !! cd_constructorName declaration = None
              ∧ ownNames (cd_fieldNames declaration)
              ∧ NoDup (cd_fieldNames declaration)
              ∧ ∀ f, f ∈ cd_fieldNames declaration →
                     _functions st !! f = None) declarations
  ∧ st' = with_typeConstructors
            (<[typeName := cd_constructorName <$> declarations]>
               (_typeConstructors st))
            (foldl (λ st declaration,
                      registerConstructor typeName declaration st)
               (with_types
                  (<[typeName := DefType sp ep typeName declarations]>
                     (_types st)) st)
               declarations).
Proof.
  unfold defType. intros Hrun.
  apply st_bind_returned in Hrun as (types & st0 & [= <- <-] & Hrun).
  apply st_bind_returned in Hrun as (previous & st0 & Hown & Hrun).
  apply ownValue_returned in Hown as (Hown & -> & ->).
  destruct (_types st !! typeName) eqn:Hfresh; [done |].
  apply st_bind_returned in Hrun as ([] & st1 & [= <-] & Hrun).
  apply st_bind_returned in Hrun as (names & st2 & Hloop & [= <-]).
  apply declareConstructors_returned in Hloop
    as (-> & Howns & Hnodup & Hall & ->).
  split_and!; try done.
  destruct (registerConstructors_frame typeName declarations
              (with_types
                 (<[typeName := DefType sp ep typeName declarations]>
                    (_types st)) st)) as (_ & _ & _ & _ & -> & _).
  done.
Qed.

(** X14 — What a type definition registers.  When [defType] returns, the
    table answers: the definition for the type name; the constructor names,
    in the order of the declarations, for the constructors of the type; for
    each constructor its declaration, the type name, and its field names in
    order; and for the field of index [i] of a constructor a list of
    descriptors that holds the descriptor of the type, the constructor and
    [i].  The constructor names are pairwise distinct, and so are the field
    names of each constructor.  The program, the procedures and the
    functions are untouched, and the descriptors a field had before stay
    first, in order. *)
Theorem defType_registers fieldNamePos sp ep typeName declarations st st' :
  let definition := DefType sp ep typeName declarations in
  defType fieldNamePos definition st = Returned tt st' →
  typeDefinition typeName st' = Returned definition st'
  ∧ typeConstructors typeName st'
    = Returned (cd_constructorName <$> declarations) st'
  ∧ NoDup (cd_constructorName <$> declarations)
  ∧ (∀ declaration,
      declaration ∈ declarations →
      let name := cd_constructorName declaration in
      constructorDeclaration name st' = Returned declaration st'
      ∧ constructorType st' name = inr typeName
      ∧ constructorFields st' name = inr (cd_fieldNames declaration)
      ∧ NoDup (cd_fieldNames declaration)
      ∧ ∀ i f,
          cd_fieldNames declaration !! i = Some f →
          ∃ descriptors,
            fieldDescriptor f st' = Returned descriptors st'
            ∧ mkFieldDescriptor typeName name i ∈ descriptors)
  ∧ _program st' = _program st
  ∧ _procedures st' = _procedures st
  ∧ _functions st' = _functions st
  ∧ ∀ f descriptors,
      _fields st !! f = Some descriptors →
      ∃ extra, _fields st' !! f = Some (descriptors ++ extra).
Proof.
  intros definition Hrun.
  apply defType_returned in Hrun
    as (Hown & Hfresh & Howns & Hnodup & Hall & ->).
  subst definition.
  set (st0 := with_types
                (<[typeName := DefType sp ep typeName declarations]>
                   (_types st)) st).
  destruct (registerConstructors_frame typeName declarations st0)
    as (Hprogram & Hprocedures & Hfunctions & Htypes & _ & Hgrow).
  split_and!; [| | | | done | done | done | exact Hgrow].
  - unfold typeDefinition, lookupOrThrow, st_bind, st_gets.
    rewrite ownValue_own by done.
    cbn [with_typeConstructors _types]. rewrite Htypes. simpl.
    by rewrite lookup_insert_eq.
  - unfold typeConstructors, lookupOrThrow, st_bind, st_gets.
    rewrite ownValue_own by done. simpl. by rewrite lookup_insert_eq.
  - done.
  - intros declaration Hin. cbv zeta.
    destruct (registerConstructors_holds typeName declarations st0
                declaration Hnodup Hin) as (Hc & Ht & Hf & Hfields).
    rewrite Forall_forall in Hall.
    destruct (Hall _ Hin) as (_ & Hfieldowns & Hfieldnodup & _).
    unfold ownNames in Howns, Hfieldowns.
    rewrite Forall_forall in Howns, Hfieldowns.
    assert (inherited (cd_constructorName declaration) = false) as Hname.
    { apply Howns, list_elem_of_fmap. by exists declaration. }
    split_and!.
    + unfold constructorDeclaration, lookupOrThrow, st_bind, st_gets.
      rewrite ownValue_own by done.
      cbn [with_typeConstructors _constructors]. by rewrite Hc.
    + unfold constructorType.
      cbn [with_typeConstructors _constructorType]. by rewrite Ht.
    + unfold constructorFields.
      cbn [with_typeConstructors _constructorFields]. by rewrite Hf.
    + done.
    + intros i f Hi. destruct (Hfields i f Hi) as (ds & Hds & Hmem).
      exists ds. split; [| done].
      unfold fieldDescriptor, lookupOrThrow, st_bind, st_gets.
      rewrite ownValue_own by (by eapply Hfieldowns, list_elem_of_lookup_2).
      cbn [with_typeConstructors _fields]. by rewrite Hds.
Qed.

Lemma defType_registers_witness :
  let st' := sampleTypeTable in
  typeDefinition "Coord" st' = Returned sampleType st'
  ∧ typeConstructors "Coord" st' = Returned ["Coord"] st'
  ∧ NoDup ["Coord"]
  ∧ (∀ declaration,
      declaration ∈ [sampleCoord] →
      let name := cd_constructorName declaration in
      constructorDeclaration name st' = Returned declaration st'
      ∧ constructorType st' name = inr "Coord"
      ∧ constructorFields st' name = inr (cd_fieldNames declaration)
      ∧ NoDup (cd_fieldNames declaration)
      ∧ ∀ i f,
          cd_fieldNames declaration !! i = Some f →
          ∃ descriptors,
            fieldDescriptor f st' = Returned descriptors st'
            ∧ mkFieldDescriptor "Coord" name i ∈ descriptors)
  ∧ _program st' = _program SymbolTable_new
  ∧ _procedures st' = _procedures SymbolTable_new
  ∧ _functions st' = _functions SymbolTable_new
  ∧ ∀ f descriptors,
      _fields SymbolTable_new !! f = Some descriptors →
      ∃ extra, _fields st' !! f = Some (descriptors ++ extra).
Proof.
  intros st'.
  apply (defType_registers sampleFieldNamePos pos0 pos0 "Coord" [sampleCoord]
           SymbolTable_new st').
  vm_compute. reflexivity.
Defined.

Lemma declareField_accepts startPos typeName constructorName fieldName index
    st :
  inherited fieldName = false →
  _functions st !! fieldName = None →
  ∃ st',
    _declareField startPos typeName constructorName fieldName index st
    = Returned tt st'.
Proof.
  intros Hown Hfunction. unfold _declareField, st_bind, st_gets.
  rewrite ownValue_own by done. rewrite Hfunction.
  rewrite ownValue_own by done.
  destruct (_fields st !! fieldName); by eexists.
Qed.

Lemma declareFieldNames_accepts fieldNamePos declaration typeName names :
  ∀ seen acc index st,
    ownNames names → NoDup names →
    (∀ f, f ∈ names → seen !! f = None ∧ _functions st !! f = None) →
    ∃ st',
      declareFieldNames fieldNamePos declaration typeName names seen acc
        index st = Returned (acc ++ names) st'.
Proof.
  induction names as [| fieldName names IH];
    intros seen acc index st Howns Hnodup Hfree.
  { exists st. simpl. by rewrite app_nil_r. }
  apply Forall_cons in Howns as [Hown Howns].
  apply NoDup_cons in Hnodup as [Hnotin Hnodup].
  destruct (Hfree fieldName) as [Hseen Hfunction]; [by left |].
  destruct (declareField_accepts (fieldNamePos declaration index) typeName
              (cd_constructorName declaration) fieldName index st Hown
              Hfunction) as (st1 & Hfield).
  cbn [declareFieldNames]. unfold st_bind at 1.
  rewrite ownValue_own by done. rewrite Hseen. unfold st_bind at 1.
  rewrite Hfield.
  apply declareField_returned in Hfield as (_ & _ & ->).
  destruct (IH (<[fieldName := true]> seen) (acc ++ [fieldName]) (S index)
              (with_fields
                 (registerField typeName (cd_constructorName declaration)
                    index fieldName (_fields st)) st) Howns Hnodup)
    as (st2 & Hrest).
  - intros f Hf. destruct (Hfree f) as [Hs Hfn]; [by right |].
    split; [| done]. rewrite lookup_insert_ne; [done |].
    intros ->. done.
  - exists st2. by rewrite Hrest, <- app_assoc.
Qed.

Lemma declareConstructor_accepts fieldNamePos typeName declaration st :
  inherited (cd_constructorName declaration) = false →
  _constructors st !! cd_constructorName declaration = None →
  ownNames (cd_fieldNames declaration) →
  NoDup (cd_fieldNames declaration) →
  (∀ f, f ∈ cd_fieldNames declaration → _functions st !! f = None) →
  _declareConstructor fieldNamePos typeName declaration st
  = Returned tt (registerConstructor typeName declaration st).
Proof.
  intros Hown Hfresh Howns Hnodup Hfree.
  assert (∃ st', _declareConstructor fieldNamePos typeName declaration st
                 = Returned tt st') as (st' & Hrun).
  { unfold _declareConstructor, st_bind at 1 2, st_gets.
    rewrite ownValue_own by done. rewrite Hfresh.
    unfold st_bind at 1, st_modify at 1. unfold st_bind at 1, st_modify at 1.
    match goal with
    | |- context [st_bind (declareFieldNames _ _ _ _ _ _ _) _ ?st1] =>
        destruct (declareFieldNames_accepts fieldNamePos declaration typeName
                    (cd_fieldNames declaration) ∅ [] 0 st1 Howns Hnodup)
          as (st2 & Hfields)
    end.
    - intros f Hf. split; [done | by apply Hfree].
    - unfold st_bind. rewrite Hfields. by eexists. }
  rewrite Hrun. f_equal.
  by apply declareConstructor_returned in Hrun as (_ & _ & _ & _ & _ & ->).
Qed.

Lemma declareConstructors_accepts fieldNamePos typeName declarations :
  ∀ acc st,
    ownNames (cd_constructorName <$> declarations) →
    NoDup (cd_constructorName <$> declarations) →
    Forall (λ declaration,
              _constructors st !! cd_constructorName declaration = None
              ∧ ownNames (cd_fieldNames declaration)
              ∧ NoDup (cd_fieldNames declaration)
              ∧ ∀ f, f ∈ cd_fieldNames declaration →
                     _functions st !! f = None) declarations →
    ∃ st',
      declareConstructors fieldNamePos typeName declarations acc st
      = Returned (acc ++ (cd_constructorName <$> declarations)) st'.
Proof.
  induction declarations as [| declaration declarations IH];
    intros acc st Howns Hnodup Hall.
  { exists st. simpl. by rewrite app_nil_r. }
  rewrite fmap_cons in Howns, Hnodup.
  apply Forall_cons in Howns as [Hown Howns].
  apply NoDup_cons in Hnodup as [Hnotin Hnodup].
  apply Forall_cons in Hall as [(Hfresh & Hfowns & Hfnodup & Hffree) Hall].
  cbn [declareConstructors]. unfold st_bind at 1.
  rewrite declareConstructor_accepts by done.
  destruct (IH (acc ++ [cd_constructorName declaration])
              (registerConstructor typeName declaration st) Howns Hnodup)
    as (st' & Hrest).
  - rewrite Forall_forall in Hall |- *. intros other Hin.
    destruct (Hall other Hin) as (Hnone & ? & ? & ?).
    split_and!; try done. simpl. rewrite lookup_insert_ne; [done |].
    intros Heq. apply Hnotin, list_elem_of_fmap. by exists other.
  - exists st'. by rewrite Hrest, <- app_assoc.
Qed.

(** X15 — The type definitions that are accepted.  [defType] returns on a
    type definition exactly when: the type name is free; the constructor
    names are pairwise distinct and free; the field names of each
    constructor are pairwise distinct and none is the name of a function;
    and none of these names is a property of [Object.prototype].  A field
    name may be shared by two constructors. *)
Theorem defType_accepts_exactly fieldNamePos sp ep typeName declarations st :
  (∃ st',
     defType fieldNamePos (DefType sp ep typeName declarations) st
     = Returned tt st')
  ↔ inherited typeName = false
    ∧ _types st !! typeName = None
    ∧ ownNames (cd_constructorName <$> declarations)
    ∧ NoDup (cd_constructorName <$> declarations)
    ∧ Forall (λ declaration,
                _constructors st !! cd_constructorName declaration = None
                ∧ ownNames (cd_fieldNames declaration)
                ∧ NoDup (cd_fieldNames declaration)
                ∧ ∀ f, f ∈ cd_fieldNames declaration →
                       _functions st !! f = None) declarations.
Proof.
  split.
  - intros (st' & Hrun).
    by apply defType_returned in Hrun as (? & ? & ? & ? & ? & _).
  - intros (Hown & Hfresh & Howns & Hnodup & Hall).
    unfold defType, st_bind at 1 2, st_gets.
    rewrite ownValue_own by done. rewrite Hfresh.
    unfold st_bind at 1, st_modify at 1.
    match goal with
    | |- context [st_bind (declareConstructors _ _ _ _) _ ?st1] =>
        destruct (declareConstructors_accepts fieldNamePos typeName
                    declarations [] st1 Howns Hnodup Hall) as (st2 & Hloop)
    end.
    unfold st_bind. rewrite Hloop. by eexists.
Qed.

(** *** A definition that fails *)

Lemma preserves_bind {A B} P (m : ST A) (k : A → ST B) :
  preserves P m → (∀ a, preserves P (k a)) → preserves P (st_bind m k).
Proof.
  intros Hm Hk st Hst. apply leaves_bind; [by apply Hm |].
  intros a st' _ Hst'. by apply Hk.
Qed.

Lemma preserves_ret {A} P (a : A) : preserves P (st_ret a).
Proof. by intros st Hst. Qed.

Lemma preserves_throw {A} P e : preserves P (st_throw (A := A) e).
Proof. by intros st Hst. Qed.

Lemma preserves_gets {A} P (f : SymbolTable → A) : preserves P (st_gets f).
Proof. by intros st Hst. Qed.

Lemma preserves_ownValue {A} P name (dictionary : gmap string A) :
  preserves P (ownValue name dictionary).
Proof. intros st Hst. unfold ownValue. by destruct (inherited name). Qed.

Lemma preserves_modify P f :
  (∀ st, P st → P (f st)) → preserves P (st_modify f).
Proof. intros Hf st Hst. by apply Hf. Qed.

Ltac preserve_with known :=
  repeat first
    [ known
    | apply preserves_bind; [| intros ?]
    | apply preserves_gets
    | apply preserves_ownValue
    | apply preserves_throw
    | apply preserves_ret
    | apply preserves_modify; by intros ? ?
    | match goal with
      | |- preserves _ (match ?x with _ => _ end) => destruct x
      end ].

Lemma declareField_sameTypes types typeConstructors startPos typeName
    constructorName fieldName index :
  preserves (sameTypes types typeConstructors)
    (_declareField startPos typeName constructorName fieldName index).
Proof. unfold _declareField. preserve_with fail. Qed.

Lemma declareFieldNames_sameTypes types typeConstructors fieldNamePos
    declaration typeName names :
  ∀ seen acc index,
    preserves (sameTypes types typeConstructors)
      (declareFieldNames fieldNamePos declaration typeName names seen acc
         index).
Proof.
  induction names as [| fieldName names IH]; intros seen acc index;
    cbn [declareFieldNames];
    preserve_with ltac:(first [ apply IH | apply declareField_sameTypes ]).
Qed.

Lemma declareConstructor_sameTypes types typeConstructors fieldNamePos
    typeName declaration :
  preserves (sameTypes types typeConstructors)
    (_declareConstructor fieldNamePos typeName declaration).
Proof.
  unfold _declareConstructor.
  preserve_with ltac:(apply declareFieldNames_sameTypes).
Qed.

Lemma declareConstructors_sameTypes types typeConstructors fieldNamePos
    typeName declarations :
  ∀ acc,
    preserves (sameTypes types typeConstructors)
      (declareConstructors fieldNamePos typeName declarations acc).
Proof.
  induction declarations as [| declaration declarations IH]; intros acc;
    cbn [declareConstructors];
    preserve_with
      ltac:(first [ apply IH | apply declareConstructor_sameTypes ]).
Qed.



(** * Integer values *)

Section IntegerArithmetic.

Variable parseInteger : string → option Z.
Variable printInteger : Z → string.
Variable invalidInteger : string → Exception.
Variable divisionByZero : Exception.
Hypothesis numerals : numeralsRoundTrip parseInteger printInteger.


Lemma Integer_numeral numeral z :
  parseInteger numeral = Some z → Integer parseInteger invalidInteger numeral = inr z.
Proof. intros H. unfold Integer. by rewrite H. Qed.

Lemma Integer_printed z : Integer parseInteger invalidInteger (printInteger z) = inr z.
Proof. apply Integer_numeral, numerals. Qed.

Lemma Integer_zero : Integer parseInteger invalidInteger "0" = inr 0%Z.
Proof. apply Integer_numeral, numerals. Qed.

Lemma Integer_one : Integer parseInteger invalidInteger "1" = inr 1%Z.
Proof. apply Integer_numeral, numerals. Qed.

Lemma gt_zero this x :
  parseInteger (_number this) = Some x →
  ValueInteger_gt parseInteger invalidInteger this ValueInteger_zero = inr (x >? 0)%Z.
Proof.
  intros Hx. unfold ValueInteger_gt. rewrite (Integer_numeral _ x Hx). simpl.
  by rewrite Integer_zero.
Qed.

Lemma abs_numeral this x :
  parseInteger (_number this) = Some x →
  ∃ v, ValueInteger_abs parseInteger printInteger invalidInteger this = inr v ∧ parseInteger (_number v) = Some (Z.abs x).
Proof.
  intros Hx. unfold ValueInteger_abs. rewrite (gt_zero this x Hx). simpl.
  destruct (x >? 0)%Z eqn:Hpos.
  - exists this. split; [done |]. rewrite Hx. f_equal. lia.
  - unfold ValueInteger_negate. rewrite (Integer_numeral _ x Hx). simpl.
    eexists. split; [done |]. simpl.
    destruct numerals as [-> _]. f_equal. lia.
Qed.

Local Ltac floor_cases :=
  repeat first [rewrite Z.abs_eq by lia | rewrite Z.abs_neq by lia];
  Z.to_euclidean_division_equations; nia.

Lemma div_of_numerals this other x y :
  parseInteger (_number this) = Some x →
  parseInteger (_number other) = Some y →
  ValueInteger_div parseInteger printInteger invalidInteger divisionByZero
    this other
  = if bool_decide (y = 0%Z) then inl divisionByZero
    else inr (mkValueInteger (printInteger (x / y))).
Proof.
  intros Hx Hy. unfold ValueInteger_div.
  rewrite (gt_zero this x Hx), (gt_zero other y Hy). simpl.
  destruct (abs_numeral this x Hx) as (thisAbs & -> & HthisAbs).
  destruct (abs_numeral other y Hy) as (otherAbs & -> & HotherAbs).
  case_bool_decide as Hsame; simpl.
  - rewrite (Integer_numeral _ _ HthisAbs), (Integer_numeral _ _ HotherAbs).
    simpl. unfold Integer_divide.
    case_bool_decide as Hzero; case_bool_decide as Hy0; try lia; [done |].
    simpl. do 3 f_equal.
    rewrite Z.quot_div_nonneg by lia.
    destruct (Z.gtb_spec x 0), (Z.gtb_spec y 0); try done; floor_cases.
  - unfold ValueInteger_sub at 1.
    rewrite (Integer_numeral _ _ HotherAbs). simpl.
    rewrite Integer_one. simpl.
    unfold ValueInteger_add at 1.
    rewrite (Integer_numeral _ _ HthisAbs). simpl.
    rewrite Integer_printed. simpl. rewrite Integer_printed. simpl.
    unfold Integer_divide.
    case_bool_decide as Hzero; case_bool_decide as Hy0; try lia; [done |].
    simpl. do 3 f_equal.
    rewrite Z.quot_div_nonneg by lia.
    destruct (Z.gtb_spec x 0), (Z.gtb_spec y 0); try done; floor_cases.
Qed.

Lemma mod_of_numerals this other x y :
  parseInteger (_number this) = Some x →
  parseInteger (_number other) = Some y →
  ValueInteger_mod parseInteger printInteger invalidInteger divisionByZero
    this other
  = if bool_decide (y = 0%Z) then inl divisionByZero
    else inr (mkValueInteger (printInteger (x `mod` y))).
Proof.
  intros Hx Hy. unfold ValueInteger_mod.
  rewrite (div_of_numerals this other x y Hx Hy).
  case_bool_decide as Hy0; [done |]. simpl.
  unfold ValueInteger_mul, ValueInteger_sub. simpl.
  rewrite Integer_printed, (Integer_numeral _ _ Hy). simpl.
  rewrite (Integer_numeral _ _ Hx), Integer_printed. simpl.
  do 3 f_equal. rewrite (Z.div_mod x y) at 1 by done. lia.
Qed.

End IntegerArithmetic.

Lemma sampleNumerals : numeralsRoundTrip sampleParseInteger samplePrintInteger.
Proof.
  split; [| done]. intros z. unfold sampleParseInteger, samplePrintInteger.
  rewrite DecimalString.NilZero.isi.
  - simpl. f_equal. apply DecimalZ.of_to.
  - destruct z; simpl; try discriminate. intros [= H].
    by apply DecimalPos.Unsigned.to_uint_nonnil in H.
  - destruct z; simpl; try discriminate. intros [= H].
    by apply DecimalPos.Unsigned.to_uint_nonnil in H.
Qed.

(** X17 — The division of integer values is the floor division.  When the
    library reads back the numerals it prints, and the numerals of the
    operands are those of [x] and [y]: [div] throws the library's division
    by zero when [y] is zero, whatever the sign of [x]; otherwise it returns
    the value whose numeral is that of the quotient rounded towards minus
    infinity, [x / y], though the library's [divide] truncates towards
    zero. *)
Theorem ValueInteger_div_floor
    (parseInteger : string → option Z) (printInteger : Z → string)
    (invalidInteger : string → Exception) (divisionByZero : Exception)
    (this other : ValueInteger) (x y : Z) :
  numeralsRoundTrip parseInteger printInteger →
  parseInteger (_number this) = Some x →
  parseInteger (_number other) = Some y →
  ValueInteger_div parseInteger printInteger invalidInteger divisionByZero
    this other
  = if bool_decide (y = 0%Z) then inl divisionByZero
    else inr (mkValueInteger (printInteger (x / y)%Z)).
Proof. intros. by apply div_of_numerals. Qed.

Lemma ValueInteger_div_floor_witness :
  let div :=
    ValueInteger_div sampleParseInteger samplePrintInteger
      sampleInvalidInteger sampleDivisionByZero in
  div (mkValueInteger "-7") (mkValueInteger "2") = inr (mkValueInteger "-4")
  ∧ div (mkValueInteger "7") (mkValueInteger "-2") = inr (mkValueInteger "-4")
  ∧ div (mkValueInteger "-7") (mkValueInteger "-2") = inr (mkValueInteger "3")
  ∧ div (mkValueInteger "0") (mkValueInteger "0") = inl sampleDivisionByZero.
Proof.
  intros div. split_and!.
  - exact (ValueInteger_div_floor _ _ sampleInvalidInteger sampleDivisionByZero
             (mkValueInteger "-7") (mkValueInteger "2") (-7) 2
             sampleNumerals eq_refl eq_refl).
  - exact (ValueInteger_div_floor _ _ sampleInvalidInteger sampleDivisionByZero
             (mkValueInteger "7") (mkValueInteger "-2") 7 (-2)
             sampleNumerals eq_refl eq_refl).
  - exact (ValueInteger_div_floor _ _ sampleInvalidInteger sampleDivisionByZero
             (mkValueInteger "-7") (mkValueInteger "-2") (-7) (-2)
             sampleNumerals eq_refl eq_refl).
  - exact (ValueInteger_div_floor _ _ sampleInvalidInteger sampleDivisionByZero
             (mkValueInteger "0") (mkValueInteger "0") 0 0
             sampleNumerals eq_refl eq_refl).
Defined.

(** X18 — The remainder of integer values has the sign of the divisor.
    Under the same conditions [mod] throws the division by zero when [y] is
    zero, and otherwise returns the value whose numeral is that of
    [x mod y]: the [r] with [x = (x / y) * y + r] that lies between zero
    and the divisor, zero included and the divisor excluded. *)
Theorem ValueInteger_mod_remainder
    (parseInteger : string → option Z) (printInteger : Z → string)
    (invalidInteger : string → Exception) (divisionByZero : Exception)
    (this other : ValueInteger) (x y : Z) :
  numeralsRoundTrip parseInteger printInteger →
  parseInteger (_number this) = Some x →
  parseInteger (_number other) = Some y →
  ValueInteger_mod parseInteger printInteger invalidInteger divisionByZero
    this other
  = (if bool_decide (y = 0%Z) then inl divisionByZero
     else inr (mkValueInteger (printInteger (x `mod` y)%Z)))
  ∧ (y ≠ 0%Z →
     x = ((x / y) * y + x `mod` y)%Z
     ∧ ((0 ≤ x `mod` y < y)%Z ∨ (y < x `mod` y ≤ 0)%Z)).
Proof.
  intros Hnumerals Hx Hy. split; [by apply mod_of_numerals |].
  intros Hy0. split.
  - rewrite (Z.div_mod x y) at 1 by done. lia.
  - destruct (Z.lt_trichotomy y 0) as [Hneg | [-> | Hpos]]; [| done |].
    + right. pose proof (Z.mod_neg_bound x y Hneg). lia.
    + left. by apply Z.mod_pos_bound.
Qed.

Lemma ValueInteger_mod_remainder_witness :
  let mod' :=
    ValueInteger_mod sampleParseInteger samplePrintInteger
      sampleInvalidInteger sampleDivisionByZero in
  mod' (mkValueInteger "-7") (mkValueInteger "2") = inr (mkValueInteger "1")
  ∧ mod' (mkValueInteger "7") (mkValueInteger "-2")
    = inr (mkValueInteger "-1")
  ∧ mod' (mkValueInteger "7") (mkValueInteger "0") = inl sampleDivisionByZero.
Proof.
  intros mod'. split_and!.
  - exact (proj1 (ValueInteger_mod_remainder _ _ sampleInvalidInteger
                    sampleDivisionByZero (mkValueInteger "-7")
                    (mkValueInteger "2") (-7) 2
                    sampleNumerals eq_refl eq_refl)).
  - exact (proj1 (ValueInteger_mod_remainder _ _ sampleInvalidInteger
                    sampleDivisionByZero (mkValueInteger "7")
                    (mkValueInteger "-2") 7 (-2)
                    sampleNumerals eq_refl eq_refl)).
  - exact (proj1 (ValueInteger_mod_remainder _ _ sampleInvalidInteger
                    sampleDivisionByZero (mkValueInteger "7")
                    (mkValueInteger "0") 7 0
                    sampleNumerals eq_refl eq_refl)).
Defined.

(** X19 — [equal] compares the numerals, not the integers.  On two values
    whose numerals the library printed, as the results of the arithmetic
    are, [equal] holds exactly when the integers are equal.  But of two
    values with different numerals of one integer, each is [le] and [ge]
    the other, while [eq] is false and [ne] true. *)
Theorem ValueInteger_equal_compares_numerals
    (parseInteger : string → option Z) (printInteger : Z → string)
    (invalidInteger : string → Exception) (x y : Z) (n1 n2 : string) :
  numeralsRoundTrip parseInteger printInteger →
  ValueInteger_equal (mkValueInteger (printInteger x))
    (mkValueInteger (printInteger y))
  = bool_decide (x = y)
  ∧ (parseInteger n1 = Some x → parseInteger n2 = Some x → n1 ≠ n2 →
     let a := mkValueInteger n1 in
     let b := mkValueInteger n2 in
     ValueInteger_le parseInteger invalidInteger a b = inr true
     ∧ ValueInteger_ge parseInteger invalidInteger a b = inr true
     ∧ ValueInteger_eq a b = false
     ∧ ValueInteger_ne a b = true).
Proof.
  intros [Hprinted _]. split.
  - unfold ValueInteger_equal. simpl. apply bool_decide_ext. split.
    + intros H. apply (f_equal parseInteger) in H.
      rewrite !Hprinted in H. by injection H.
    + by intros ->.
  - intros H1 H2 Hne a b.
    unfold ValueInteger_le, ValueInteger_ge, ValueInteger_eq, ValueInteger_ne,
      ValueInteger_equal, Integer. simpl. rewrite H1, H2. simpl.
    rewrite Z.leb_refl, Z.geb_leb, Z.leb_refl.
    by rewrite bool_decide_false.
Qed.

Lemma ValueInteger_equal_compares_numerals_witness :
  let a := mkValueInteger "07" in
  let b := mkValueInteger "7" in
  ValueInteger_equal (mkValueInteger (samplePrintInteger 7))
    (mkValueInteger (samplePrintInteger 8)) = false
  ∧ ValueInteger_le sampleParseInteger sampleInvalidInteger a b = inr true
  ∧ ValueInteger_ge sampleParseInteger sampleInvalidInteger a b = inr true
  ∧ ValueInteger_eq a b = false
  ∧ ValueInteger_ne a b = true.
Proof.
  intros a b.
  destruct (ValueInteger_equal_compares_numerals _ _ sampleInvalidInteger
              7 8 "07" "7" sampleNumerals) as [Hprinted Hnumerals].
  split; [exact Hprinted |].
  apply Hnumerals; [reflexivity | reflexivity | discriminate].
Defined.

(** * String values *)

Lemma ValueString_pushed_cases chr :
  (ValueString_pushed chr = String chr ""
   ∧ chr ≠ backslash ∧ chr ≠ doubleQuote)
  ∨ (In (Ascii.N_of_ascii chr) [34; 92; 7; 8; 12; 10; 13; 9; 11]%N
     ∧ ∃ letter, ValueString_pushed chr = String backslash (String letter "")).
Proof.
  destruct chr as [[] [] [] [] [] [] [] []];
    first
      [ left; split; [reflexivity | split; discriminate]
      | right; split;
        [ cbn; repeat first [left; reflexivity | right]
        | eexists; reflexivity ] ].
Qed.

Lemma N_of_ascii_inj a b : Ascii.N_of_ascii a = Ascii.N_of_ascii b → a = b.
Proof.
  intros H. rewrite <- (Ascii.ascii_N_embedding a), <- (Ascii.ascii_N_embedding b).
  by rewrite H.
Qed.

Lemma ValueString_pushed_inj a b :
  In (Ascii.N_of_ascii a) [34; 92; 7; 8; 12; 10; 13; 9; 11]%N →
  In (Ascii.N_of_ascii b) [34; 92; 7; 8; 12; 10; 13; 9; 11]%N →
  ValueString_pushed a = ValueString_pushed b → a = b.
Proof.
  unfold ValueString_pushed. intros Ha Hb H. apply N_of_ascii_inj.
  cbn in Ha, Hb.
  repeat (destruct Ha as [Ha | Ha]; [| try done]);
  repeat (destruct Hb as [Hb | Hb]; [| try done]);
  rewrite <- Ha, <- Hb in *; first [reflexivity | discriminate H].
Qed.

Lemma ValueString_toString_from_inj s1 s2 t1 t2 :
  ValueString_toString_from s1 +:+ t1 = ValueString_toString_from s2 +:+ t2 →
  s1 = s2 ∧ t1 = t2.
Proof.
  revert s2. induction s1 as [| a s1 IH]; intros [| b s2] H;
    cbn [ValueString_toString_from] in H.
  - simpl in H. by injection H.
  - exfalso.
    destruct (ValueString_pushed_cases b) as [(Hb & _ & Hq) | (_ & x & Hb)];
      rewrite Hb in H; simpl in H; by injection H.
  - exfalso.
    destruct (ValueString_pushed_cases a) as [(Ha & _ & Hq) | (_ & x & Ha)];
      rewrite Ha in H; simpl in H; by injection H.
  - destruct (ValueString_pushed_cases a) as [(Ha & Hs & _) | (Hin1 & x & Ha)],
      (ValueString_pushed_cases b) as [(Hb & Hs' & _) | (Hin2 & y & Hb)].
    + rewrite Ha, Hb in H. simpl in H. injection H as -> H.
      destruct (IH _ H) as [-> ->]. done.
    + rewrite Ha, Hb in H. simpl in H. by injection H.
    + rewrite Ha, Hb in H. simpl in H. injection H as H _. by subst.
    + assert (a = b) as ->.
      { apply ValueString_pushed_inj; [done | done |].
        rewrite Ha, Hb in *. simpl in H. injection H as -> _. done. }
      rewrite Ha in H. simpl in H. injection H as H.
      destruct (IH _ H) as [-> ->]. done.
Qed.

(** X20 — What [toString] prints of a string value can be read back.  Two
    strings that print alike are equal; more, a printed string followed by
    any text determines both the string and the text, so that no printed
    string is the beginning of another one. *)
Theorem ValueString_toString_injective (s1 s2 t1 t2 : string) :
  (ValueString_toString s1 = ValueString_toString s2 ↔ s1 = s2)
  ∧ (ValueString_toString s1 +:+ t1 = ValueString_toString s2 +:+ t2 →
     s1 = s2 ∧ t1 = t2).
Proof.
  assert (ValueString_toString s1 +:+ t1 = ValueString_toString s2 +:+ t2 →
          s1 = s2 ∧ t1 = t2) as Hread.
  { unfold ValueString_toString. simpl. intros [= H].
    by apply ValueString_toString_from_inj. }
  split; [| done]. split; [| by intros ->].
  intros H. clear Hread.
  unfold ValueString_toString in H. injection H as H.
  apply (ValueString_toString_from_inj s1 s2 "" ""). by rewrite H.
Qed.

(** * Equality of values *)

Lemma Value_size_component values component :
  component ∈ values →
  Value_size component
  ≤ foldr (λ component n, Value_size component + n) 0 values.
Proof.
  induction 1 as [c l | c c' l _ IH]; simpl; lia.
Qed.

Lemma Value_size_field (fields : gmap string Value) name field :
  fields !! name = Some field →
  Value_size field ≤ map_fold (λ _ field n, Value_size field + n) 0 fields.
Proof.
  intros H. rewrite (map_fold_delete_L _ _ name field fields); [lia | | done].
  intros. lia.
Qed.

Lemma Value_nested_ind (P : Value → Prop) :
  (∀ integer, P (V_Integer integer)) →
  (∀ s, P (V_String s)) →
  (∀ components, Forall P components → P (V_Tuple components)) →
  (∀ elements, Forall P elements → P (V_List elements)) →
  (∀ typeName constructorName fields,
     map_Forall (λ _, P) fields → P (V_Structure typeName constructorName fields)) →
  ∀ value, P value.
Proof.
  intros HI HS HT HL HR value.
  remember (Value_size value) as n eqn:Hn. revert value Hn.
  induction n as [n IH] using lt_wf_ind. intros value ->.
  destruct value as [| | components | elements | typeName constructorName fields];
    [done | done | apply HT | apply HL | apply HR].
  - apply Forall_forall. intros c Hc. apply (IH (Value_size c)); [| done].
    pose proof (Value_size_component _ _ Hc). simpl. lia.
  - apply Forall_forall. intros c Hc. apply (IH (Value_size c)); [| done].
    pose proof (Value_size_component _ _ Hc). simpl. lia.
  - intros name field Hfield. apply (IH (Value_size field)); [| done].
    pose proof (Value_size_field _ _ _ Hfield). simpl. lia.
Qed.

Lemma equalComponents_true (equal : Value → Value → Exception + bool)
    components others i :
  equalComponents i (equal <$> components) others = inr true
  ↔ ∀ j c, components !! j = Some c →
           ∃ o, others !! (i + j) = Some o ∧ equal c o = inr true.
Proof.
  revert i. induction components as [| c components IH]; intros i;
    [| rewrite fmap_cons]; cbn [equalComponents].
  - split; [by intros _ j c [=] | done].
  - split.
    + intros H [| j] c' Hc'; simpl in Hc'.
      * injection Hc' as <-. rewrite Nat.add_0_r.
        destruct (others !! i) as [o |]; [| done]. exists o. split; [done |].
        destruct (equal c o) as [e | []]; done.
      * destruct (others !! i) as [o |]; [| done].
        destruct (equal c o) as [e | []]; [done | | done]. simpl in H.
        destruct (proj1 (IH _) H j c' Hc') as (o' & Ho' & Heq).
        exists o'. split; [| done]. by rewrite <- Nat.add_succ_comm.
    + intros H. destruct (H 0 c eq_refl) as (o & Ho & Heq).
      rewrite Nat.add_0_r in Ho. rewrite Ho, Heq. simpl.
      apply IH. intros j c' Hc'. destruct (H (S j) c' Hc') as (o' & Ho' & Heq').
      exists o'. split; [| done]. by rewrite Nat.add_succ_comm.
Qed.

Lemma equalComponents_Forall2 (equal : Value → Value → Exception + bool)
    components others :
  (if bool_decide (length components ≠ length others) then inr false
   else equalComponents 0 (equal <$> components) others) = inr true
  ↔ Forall2 (λ c o, equal c o = inr true) components others.
Proof.
  case_bool_decide as Hlength.
  - split; [done |]. intros H. by apply Forall2_length in H.
  - rewrite equalComponents_true. split.
    + intros H. apply Forall2_same_length_lookup_2; [done |].
      intros j c o Hc Ho. destruct (H j c Hc) as (o' & Ho' & Heq).
      simpl in Ho'. by simplify_eq.
    + intros H j c Hc.
      destruct (Forall2_lookup_l _ _ _ _ _ H Hc) as (o & Ho & Heq).
      by exists o.
Qed.

Lemma equalFields_true (equal : Value → Value → Exception + bool)
    fieldNames (fields others : gmap string Value) :
  equalFields fieldNames (equal <$> fields) others = inr true
  ↔ ∀ name, name ∈ fieldNames →
            ∃ v o, fields !! name = Some v ∧ others !! name = Some o
                   ∧ equal v o = inr true.
Proof.
  induction fieldNames as [| fieldName rest IH]; simpl.
  - split; [| done]. intros _ name Hin. by apply elem_of_nil in Hin.
  - rewrite lookup_fmap. split.
    + intros H name Hin.
      destruct (fields !! fieldName) as [v |] eqn:Hv; [| done]. simpl in H.
      destruct (others !! fieldName) as [o |] eqn:Ho.
      * destruct (equal v o) as [e | []] eqn:Heq; [done | | done].
        simpl in H. apply elem_of_cons in Hin as [-> | Hin].
        -- by exists v, o.
        -- by apply IH.
      * by destruct (inherited fieldName).
    + intros H.
      destruct (H fieldName) as (v & o & -> & -> & Heq); [by left |].
      simpl. rewrite Heq. simpl. apply IH. intros name Hin. apply H. by right.
Qed.

Lemma elem_of_sortedKeys {A} (dictionary : gmap string A) name :
  name ∈ sortedKeys dictionary ↔ is_Some (dictionary !! name).
Proof.
  unfold sortedKeys. rewrite merge_sort_Permutation.
  rewrite list_elem_of_fmap. split.
  - intros ([k v] & -> & Hin). apply elem_of_map_to_list in Hin. by exists v.
  - intros [v Hv]. exists (name, v). split; [done |].
    by apply elem_of_map_to_list.
Qed.

Lemma Value_equal_true_cases this other :
  Value_equal this other = inr true
  ↔ match this, other with
    | V_Integer a, V_Integer b => _number a = _number b
    | V_String a, V_String b => a = b
    | V_Tuple components, V_Tuple others
    | V_List components, V_List others =>
        Forall2 (λ c o, Value_equal c o = inr true) components others
    | V_Structure _ constructorName fields,
      V_Structure _ otherConstructorName others =>
        constructorName = otherConstructorName
        ∧ ∀ name v, fields !! name = Some v →
            ∃ o, others !! name = Some o ∧ Value_equal v o = inr true
    | _, _ => False
    end.
Proof.
  destruct this as [a | a | components | components | t c fields],
    other as [b | b | others | others | t' c' others];
    cbn [Value_equal]; try (split; [done | tauto]).
  - unfold ValueInteger_equal. case_bool_decide; split; naive_solver.
  - unfold ValueString_equal. case_bool_decide; split; naive_solver.
  - apply equalComponents_Forall2.
  - apply equalComponents_Forall2.
  - case_bool_decide as Hc.
    + split; [done |]. by intros [? _].
    + rewrite equalFields_true. split.
      * intros H. split; [done |]. intros name v Hv.
        destruct (H name) as (v' & o & Hv' & Ho & Heq).
        { apply elem_of_sortedKeys. by exists v. }
        exists o. by simplify_eq.
      * intros [_ H] name Hin. apply elem_of_sortedKeys in Hin as [v Hv].
        destruct (H name v Hv) as (o & Ho & Heq). by exists v, o.
Qed.

Lemma Value_equal_refl value : Value_equal value value = inr true.
Proof.
  induction value as [a | a | components IH | components IH | t c fields IH]
    using Value_nested_ind; apply Value_equal_true_cases; try done.
  - induction IH; by constructor.
  - induction IH; by constructor.
  - split; [done |]. intros name v Hv. exists v. split; [done |].
    by apply (IH name).
Qed.

Lemma Value_equal_trans a b c :
  Value_equal a b = inr true → Value_equal b c = inr true →
  Value_equal a c = inr true.
Proof.
  revert b c.
  induction a as [x | x | components IH | components IH | t k fields IH]
    using Value_nested_ind; intros b c Hab Hbc;
    apply Value_equal_true_cases in Hab; apply Value_equal_true_cases in Hbc;
    apply Value_equal_true_cases;
    destruct b as [y | y | ys | ys | t' k' fields'],
      c as [z | z | zs | zs | t'' k'' fields'']; try done;
    try congruence.
  - revert ys zs Hab Hbc. induction IH as [| x xs Hx _ IHxs];
      intros ys zs Hab Hbc.
    + apply Forall2_nil_inv_l in Hab as ->.
      by apply Forall2_nil_inv_l in Hbc as ->.
    + apply Forall2_cons_inv_l in Hab as (y & ys' & Hxy & Hab & ->).
      apply Forall2_cons_inv_l in Hbc as (z & zs' & Hyz & Hbc & ->).
      constructor; [by apply (Hx y z) | by apply (IHxs ys' zs')].
  - revert ys zs Hab Hbc. induction IH as [| x xs Hx _ IHxs];
      intros ys zs Hab Hbc.
    + apply Forall2_nil_inv_l in Hab as ->.
      by apply Forall2_nil_inv_l in Hbc as ->.
    + apply Forall2_cons_inv_l in Hab as (y & ys' & Hxy & Hab & ->).
      apply Forall2_cons_inv_l in Hbc as (z & zs' & Hyz & Hbc & ->).
      constructor; [by apply (Hx y z) | by apply (IHxs ys' zs')].
  - destruct Hab as [-> Hab], Hbc as [-> Hbc]. split; [done |].
    intros name v Hv. destruct (Hab name v Hv) as (o & Ho & Hvo).
    destruct (Hbc name o Ho) as (w & Hw & How). exists w. split; [done |].
    by apply (IH name v Hv o w).
Qed.

Lemma equalFields_missing (equal : Value → Value → Exception + bool)
    fieldNames (fields others : gmap string Value) :
  (∀ name, name ∈ fieldNames →
     is_Some (fields !! name) ∧ inherited name = false) →
  (∀ name v o, fields !! name = Some v → others !! name = Some o →
     equal v o = inr true) →
  (∃ name, name ∈ fieldNames ∧ others !! name = None) →
  equalFields fieldNames (equal <$> fields) others
  = inl (propertyOfUndefined "tag").
Proof.
  intros Hnames Hequal. induction fieldNames as [| fieldName rest IH].
  - intros (name & Hin & _). by apply elem_of_nil in Hin.
  - intros (name & Hin & Hnone). cbn [equalFields]. rewrite lookup_fmap.
    destruct (Hnames fieldName) as [[v Hv] Hown]; [by left |].
    rewrite Hv. simpl. destruct (others !! fieldName) as [o |] eqn:Ho.
    + rewrite (Hequal _ _ _ Hv Ho). simpl. apply IH.
      * intros name' Hin'. apply Hnames. by right.
      * exists name. split; [| done].
        apply elem_of_cons in Hin as [-> | Hin]; [congruence | done].
    + by rewrite Hown.
Qed.

(** X21 — [equal] is reflexive and transitive.  Every value equals itself,
    and when [a.equal(b)] and [b.equal(c)] are true, so is [a.equal(c)];
    no exception is thrown in either case. *)
Theorem Value_equal_preorder :
  (∀ value, Value_equal value value = inr true)
  ∧ (∀ a b c,
       Value_equal a b = inr true → Value_equal b c = inr true →
       Value_equal a c = inr true).
Proof. split; [apply Value_equal_refl | apply Value_equal_trans]. Qed.

Lemma Value_equal_preorder_witness :
  Value_equal samplePoint samplePoint = inr true
  ∧ Value_equal sampleOrigin sampleAbscissa = inr true
  ∧ Value_equal sampleAbscissa samplePoint = inr true
  ∧ Value_equal sampleOrigin samplePoint = inr true.
Proof.
  destruct Value_equal_preorder as [Hrefl Htrans].
  split_and!; [apply Hrefl | reflexivity | reflexivity |].
  apply (Htrans sampleOrigin sampleAbscissa samplePoint); reflexivity.
Defined.

(** X22 — When [equal] answers true.  [this.equal(other)] is true exactly
    when both values are of the same class and: two integers hold the same
    numeral; two strings are the same string; two tuples, or two lists, have
    as many components, equal one by one; two structures are built by the
    same constructor, and each field of [this] is a field of [other] with an
    equal value.  The type names of the structures are not compared, and
    neither are the fields that only [other] has. *)
Theorem Value_equal_true (this other : Value) :
  Value_equal this other = inr true
  ↔ match this, other with
    | V_Integer a, V_Integer b => _number a = _number b
    | V_String a, V_String b => a = b
    | V_Tuple components, V_Tuple others
    | V_List components, V_List others =>
        Forall2 (λ c o, Value_equal c o = inr true) components others
    | V_Structure _ constructorName fields,
      V_Structure _ otherConstructorName others =>
        constructorName = otherConstructorName
        ∧ ∀ name v, fields !! name = Some v →
            ∃ o, others !! name = Some o ∧ Value_equal v o = inr true
    | _, _ => False
    end.
Proof. apply Value_equal_true_cases. Qed.

(** X23 — [equal] is not symmetric on structures, and throws on a missing
    field.  Take two structures of the same constructor where every field
    of the second is a field of the first, with values that are equal, and
    the first has a field the second lacks; let no field name of the first
    be a property of [Object.prototype].  Then the second equals the first,
    but asking the first whether it equals the second throws the
    [TypeError] of reading [tag] of [undefined]. *)
Theorem ValueStructure_equal_missing_field
    (typeName otherTypeName constructorName : string)
    (fields others : gmap string Value) :
  (∀ name o, others !! name = Some o →
     ∃ v, fields !! name = Some v
          ∧ Value_equal o v = inr true ∧ Value_equal v o = inr true) →
  (∃ name, is_Some (fields !! name) ∧ others !! name = None) →
  (∀ name, is_Some (fields !! name) → inherited name = false) →
  Value_equal (V_Structure otherTypeName constructorName others)
    (V_Structure typeName constructorName fields) = inr true
  ∧ Value_equal (V_Structure typeName constructorName fields)
      (V_Structure otherTypeName constructorName others)
    = inl (propertyOfUndefined "tag").
Proof.
  intros Hothers (missing & Hfield & Hnone) Hown. split.
  - apply Value_equal_true_cases. split; [done |]. intros name o Ho.
    destruct (Hothers name o Ho) as (v & Hv & Hov & _). by exists v.
  - cbn [Value_equal]. rewrite bool_decide_false by (by intros []).
    apply equalFields_missing.
    + intros name Hin. apply elem_of_sortedKeys in Hin. split; [done |].
      by apply Hown.
    + intros name v o Hv Ho.
      destruct (Hothers name o Ho) as (v' & Hv' & _ & Hvo). by simplify_eq.
    + exists missing. split; [| done]. by apply elem_of_sortedKeys.
Qed.

Lemma ValueStructure_equal_missing_field_witness :
  Value_equal sampleOrigin sampleAbscissa = inr true
  ∧ Value_equal sampleAbscissa sampleOrigin
    = inl (propertyOfUndefined "tag").
Proof.
  apply ValueStructure_equal_missing_field.
  - intros name o Ho. by rewrite lookup_empty in Ho.
  - exists "x". split; [by eexists | reflexivity].
  - intros name [v Hv]. apply lookup_singleton_Some in Hv as [<- _].
    reflexivity.
Defined.

(** ** The descriptors of the fields *)

Lemma registered_same st st' :
  _fields st' = _fields st → _constructors st' = _constructors st →
  _constructorType st' = _constructorType st →
  descriptorsRegistered st → descriptorsRegistered st'.
Proof.
  intros Hf Hc Ht Hst fieldName descriptors. rewrite Hf. intros Hds.
  destruct (Hst _ _ Hds) as [Hne Hall]. split; [done |].
  eapply Forall_impl; [exact Hall |]. intros d (Hown & declaration & H).
  split; [done |]. exists declaration. by rewrite Hc, Ht.
Qed.

Lemma registered_new : descriptorsRegistered SymbolTable_new.
Proof. intros fieldName descriptors H. simpl in H. by rewrite lookup_empty in H. Qed.

Lemma registered_push st0 st typeName constructorName fieldName index
    declaration fields' :
  registeredWith st0 st →
  inherited constructorName = false →
  _constructors st0 !! constructorName = Some declaration →
  cd_constructorName declaration = constructorName →
  cd_fieldNames declaration !! index = Some fieldName →
  _constructorType st0 !! constructorName = Some typeName →
  (fields' = _fields st ∨ (_fields st !! fieldName = None
                           ∧ fields' = <[fieldName := []]> (_fields st))) →
  registeredWith st0
    (with_fields
       (alter (λ descriptors,
                 descriptors ++ [mkFieldDescriptor typeName constructorName
                                   index])
          fieldName fields') st).
Proof.
  intros (Hst & Hc & Ht) Hown Hdecl Hname Hfield Htype Hfields'.
  split; [| by destruct st].
  assert (descriptorRegistered st fieldName
            (mkFieldDescriptor typeName constructorName index)) as Hnew.
  { split; [done |]. exists declaration. simpl. by rewrite Hc, Ht. }
  assert (∀ f d, descriptorRegistered st f d →
            descriptorRegistered
              (with_fields
                 (alter (λ descriptors,
                           descriptors
                           ++ [mkFieldDescriptor typeName constructorName
                                 index])
                    fieldName fields') st) f d) as Hkeep.
  { intros f d H. by destruct st. }
  intros f ds Hds.
  replace (_fields (with_fields
             (alter (λ descriptors,
                       descriptors
                       ++ [mkFieldDescriptor typeName constructorName index])
                fieldName fields') st))
    with (alter (λ descriptors,
                   descriptors
                   ++ [mkFieldDescriptor typeName constructorName index])
            fieldName fields') in Hds by (by destruct st).
  destruct (decide (f = fieldName)) as [-> | Hne].
  - rewrite lookup_alter_eq in Hds.
    destruct (fields' !! fieldName) as [old |] eqn:Hold; [| done].
    injection Hds as <-. split; [by destruct old |].
    apply Forall_app. split; [| constructor; [by apply Hkeep | constructor]].
    destruct Hfields' as [-> | [Hnone ->]].
    + destruct (Hst _ _ Hold) as [_ Hall].
      eapply Forall_impl; [exact Hall |]. intros d Hd. by apply Hkeep.
    + rewrite lookup_insert_eq in Hold. by injection Hold as <-.
  - rewrite lookup_alter_ne in Hds by done.
    assert (_fields st !! f = Some ds) as Hds'.
    { destruct Hfields' as [-> | [Hnone ->]]; [done |].
      by rewrite lookup_insert_ne in Hds. }
    destruct (Hst _ _ Hds') as [Hnonempty Hall]. split; [done |].
    eapply Forall_impl; [exact Hall |]. intros d Hd. by apply Hkeep.
Qed.

Lemma declareField_registered startPos typeName constructorName fieldName
    index st0 st declaration :
  registeredWith st0 st →
  inherited constructorName = false →
  _constructors st0 !! constructorName = Some declaration →
  cd_constructorName declaration = constructorName →
  cd_fieldNames declaration !! index = Some fieldName →
  _constructorType st0 !! constructorName = Some typeName →
  leaves (registeredWith st0)
    (_declareField startPos typeName constructorName fieldName index st).
Proof.
  intros Hst Hown Hdecl Hname Hfield Htype. unfold _declareField.
  apply leaves_bind; [done |]. intros functions st1 [= <- <-] _.
  apply leaves_ownValue; [done |]. intros _.
  destruct (_functions st !! fieldName) as [f |]; [done |].
  apply leaves_bind; [done |]. intros fields st1 [= <- <-] _.
  apply leaves_ownValue; [done |]. intros _.
  destruct (_fields st !! fieldName) as [ds |] eqn:Hds.
  - unfold st_bind, st_ret, st_modify, leaves.
    rewrite <- (with_fields_same st) at 2.
    eapply registered_push; eauto.
  - unfold st_bind, st_ret, st_modify, leaves.
    pose proof (registered_push st0 st typeName constructorName fieldName
                  index declaration (<[fieldName := []]> (_fields st))
                  Hst Hown Hdecl Hname Hfield Htype) as Hpush.
    destruct st. simpl in *. apply Hpush. by right.
Qed.

Lemma declareFieldNames_registered fieldNamePos declaration typeName st0 :
  inherited (cd_constructorName declaration) = false →
  _constructors st0 !! cd_constructorName declaration = Some declaration →
  _constructorType st0 !! cd_constructorName declaration = Some typeName →
  ∀ names constructorFields fieldNames index st,
    drop index (cd_fieldNames declaration) = names →
    registeredWith st0 st →
    leaves (registeredWith st0)
      (declareFieldNames fieldNamePos declaration typeName names
         constructorFields fieldNames index st).
Proof.
  intros Hown Hdecl Htype.
  induction names as [| fieldName names IH];
    intros seen fieldNames index st Hdrop Hst; [done |].
  cbn [declareFieldNames]. apply leaves_ownValue; [done |]. intros _.
  destruct (seen !! fieldName); [done |].
  assert (cd_fieldNames declaration !! index = Some fieldName) as Hfield.
  { rewrite <- (Nat.add_0_r index), <- lookup_drop. by rewrite Hdrop. }
  apply leaves_bind; [by eapply declareField_registered |].
  intros [] st' _ Hst'. apply IH; [| done].
  rewrite (drop_S _ _ _ Hfield) in Hdrop. by injection Hdrop.
Qed.

Lemma declareConstructor_registered fieldNamePos typeName declaration st :
  descriptorsRegistered st →
  leaves descriptorsRegistered
    (_declareConstructor fieldNamePos typeName declaration st).
Proof.
  intros Hst. unfold _declareConstructor.
  apply leaves_bind; [done |]. intros constructors st0 [= <- <-] _.
  apply leaves_ownValue; [done |]. intros Hown.
  destruct (_constructors st !! cd_constructorName declaration) eqn:Hfree;
    [done |].
  set (st2 := with_constructorType
                (<[cd_constructorName declaration := typeName]>
                   (_constructorType st))
                (with_constructors
                   (<[cd_constructorName declaration := declaration]>
                      (_constructors st)) st)).
  assert (descriptorsRegistered st2) as Hst2.
  { intros f ds Hds. destruct (Hst f ds) as [Hne Hall]; [by destruct st |].
    split; [done |]. eapply Forall_impl; [exact Hall |].
    intros d (Hd & declaration' & Hdecl' & Hrest). split; [done |].
    exists declaration'.
    assert (fd_constructorName d ≠ cd_constructorName declaration) as Hother
      by congruence.
    destruct st. simpl in *. by rewrite !lookup_insert_ne. }
  assert (leaves (registeredWith st2)
            (declareFieldNames fieldNamePos declaration typeName
               (cd_fieldNames declaration) ∅ [] 0 st2)) as Hloop.
  { apply declareFieldNames_registered; try done.
    - destruct st. simpl. by rewrite lookup_insert_eq.
    - destruct st. simpl. by rewrite lookup_insert_eq. }
  unfold st_bind, st_modify.
  match goal with
  | |- context [declareFieldNames ?p ?d ?t ?ns ?seen ?acc ?i ?s] =>
      change s with st2;
      destruct (declareFieldNames p d t ns seen acc i st2)
        as [fieldNames st3 | e st3 | st3]
  end; simpl in Hloop |- *; [| by destruct Hloop | by destruct Hloop].
  destruct Hloop as [Hst3 _]. unfold st_modify, leaves.
  eapply registered_same; [| | | exact Hst3]; by destruct st3.
Qed.

Lemma declareConstructors_registered fieldNamePos typeName declarations :
  ∀ constructorNames st,
    descriptorsRegistered st →
    leaves descriptorsRegistered
      (declareConstructors fieldNamePos typeName declarations
         constructorNames st).
Proof.
  induction declarations as [| declaration declarations IH];
    intros constructorNames st Hst; [done |].
  cbn [declareConstructors].
  apply leaves_bind; [by apply declareConstructor_registered |].
  intros [] st' _ Hst'. by apply IH.
Qed.

Lemma sampleTypeTable_registered : descriptorsRegistered sampleTypeTable.
Proof.
  assert (∀ index name,
            cd_fieldNames sampleCoord !! index = Some name →
            descriptorRegistered sampleTypeTable name
              (mkFieldDescriptor "Coord" "Coord" index)) as Hcoord.
  { intros index name Hat. split; [reflexivity |]. by exists sampleCoord. }
  intros fieldName descriptors H. simpl in H.
  destruct (decide (fieldName = "x")) as [-> | Hx].
  { rewrite lookup_insert_eq in H. injection H as <-.
    split; [done |]. repeat constructor; by apply Hcoord. }
  rewrite lookup_insert_ne in H by done.
  apply lookup_singleton_Some in H as [<- <-].
  split; [done |]. repeat constructor; by apply Hcoord.
Qed.

(** X24 — The descriptors of the fields stay registered.  In a table where
    every field has at least one descriptor, and each descriptor names a
    constructor the table holds, of the type the descriptor names, whose
    declaration has the field at the index of the descriptor, the same is
    true of the table each of the five definition methods leaves, whether
    the method returns, throws, or ends on a name that is a property of
    [Object.prototype]. *)
Theorem descriptors_stay_registered fieldNamePos definition st :
  descriptorsRegistered st →
  leaves descriptorsRegistered (defProgram definition st)
  ∧ leaves descriptorsRegistered (defInteractiveProgram definition st)
  ∧ leaves descriptorsRegistered (defProcedure definition st)
  ∧ leaves descriptorsRegistered (defFunction definition st)
  ∧ leaves descriptorsRegistered (defType fieldNamePos definition st).
Proof.
  intros Hst.
  assert (leaves descriptorsRegistered (defProgram definition st)) as Hprogram.
  { unfold defProgram. apply leaves_bind; [done |].
    intros program st0 [= <- <-] _. destruct (_program st); [done |].
    by apply (registered_same st). }
  split_and!; try done.
  - unfold defProcedure. destruct (Def_name definition) as [name |]; [| done].
    apply leaves_bind; [done |]. intros procedures st0 [= <- <-] _.
    apply leaves_ownValue; [done |]. intros _.
    destruct (_procedures st !! name); [done |].
    by apply (registered_same st).
  - unfold defFunction. destruct (Def_name definition) as [name |]; [| done].
    apply leaves_bind; [done |]. intros functions st0 [= <- <-] _.
    apply leaves_ownValue; [done |]. intros _.
    destruct (_functions st !! name) eqn:Hfunction; [done |].
    apply leaves_bind; [done |]. intros fields st0 [= <- <-] _.
    apply leaves_ownValue; [done |]. intros _.
    destruct (_fields st !! name) as [descriptors |] eqn:Hfield.
    + apply leaves_bind; [| by intros ? ? ? ?].
      unfold positionOfField. destruct descriptors as [| fd ?]; [done |].
      apply leaves_bind; [done |]. intros constructors st0 [= <- <-] _.
      apply leaves_ownValue; [done |]. intros _.
      by destruct (_constructors st !! fd_constructorName fd).
    + by apply (registered_same st).
  - unfold defType.
    destruct definition as [| | | | sp ep typeName declarations]; try done.
    apply leaves_bind; [done |]. intros types st0 [= <- <-] _.
    apply leaves_ownValue; [done |]. intros _.
    destruct (_types st !! typeName); [done |].
    apply leaves_bind; [by apply (registered_same st) |].
    intros [] st1 [= <-] Hst1.
    apply leaves_bind; [by apply declareConstructors_registered |].
    intros names st2 _ Hst2. by apply (registered_same st2).
Qed.

Lemma descriptors_stay_registered_witness :
  (∃ e st',
     defType sampleFieldNamePos sampleTwice sampleTypeTable = Thrown e st'
     ∧ _fields st' !! "x"
       = Some [mkFieldDescriptor "Coord" "Coord" 0;
               mkFieldDescriptor "Forma" "Punto" 0]
     ∧ descriptorsRegistered st')
  ∧ (∃ st',
       defType sampleFieldNamePos samplePrototypeType sampleTypeTable
       = Outside st'
       ∧ _fields st' !! "largo" = Some [mkFieldDescriptor "Texto" "Texto" 0]
       ∧ descriptorsRegistered st').
Proof.
  split.
  - destruct (descriptors_stay_registered sampleFieldNamePos sampleTwice
                sampleTypeTable sampleTypeTable_registered)
      as (_ & _ & _ & _ & Hleaves).
    eexists _, _. split_and!;
      [vm_compute; reflexivity | vm_compute; reflexivity | exact Hleaves].
  - destruct (descriptors_stay_registered sampleFieldNamePos
                samplePrototypeType sampleTypeTable
                sampleTypeTable_registered) as (_ & _ & _ & _ & Hleaves).
    eexists. split_and!;
      [vm_compute; reflexivity | vm_compute; reflexivity | exact Hleaves].
Defined.

(** X25 — What [defFunction] does with a name.  In a table whose
    descriptors are registered, for a name that is not a property of
    [Object.prototype]: when the name is a function, [defFunction] throws
    the syntax error "function-already-defined", even if the name is a field
    as well; when it is a field only, [defFunction] throws
    "function-and-field-cannot-have-the-same-name" with the position of the
    constructor of the first descriptor of the field, which the table
    holds; otherwise it returns, and stores the definition.  A thrown
    exception leaves the table as it was, and none is a [TypeError]. *)
Theorem defFunction_outcomes st definition name :
  descriptorsRegistered st →
  Def_name definition = Some name →
  inherited name = false →
  match _functions st !! name, _fields st !! name with
  | Some previous, _ =>
      defFunction definition st
      = Thrown
          (GbsSyntaxError (Def_startPos definition)
             "errmsg:function-already-defined"
             [ArgName name; ArgPosition (Def_startPos previous);
              ArgPosition (Def_startPos definition)]) st
  | None, Some descriptors =>
      ∃ descriptor declaration,
        head descriptors = Some descriptor
        ∧ _constructors st !! fd_constructorName descriptor = Some declaration
        ∧ cd_fieldNames declaration !! fd_index descriptor = Some name
        ∧ defFunction definition st
          = Thrown
              (GbsSyntaxError (Def_startPos definition)
                 "errmsg:function-and-field-cannot-have-the-same-name"
                 [ArgName name; ArgPosition (Def_startPos definition);
                  ArgPosition (cd_startPos declaration)]) st
  | None, None =>
      defFunction definition st
      = Returned tt (with_functions (<[name := definition]> (_functions st)) st)
  end.
Proof.
  intros Hst Hname Hown.
  assert (defFunction definition st
          = match _functions st !! name with
            | Some previous =>
                Thrown
                  (GbsSyntaxError (Def_startPos definition)
                     "errmsg:function-already-defined"
                     [ArgName name; ArgPosition (Def_startPos previous);
                      ArgPosition (Def_startPos definition)]) st
            | None =>
                match _fields st !! name with
                | Some descriptors =>
                    st_bind (positionOfField descriptors)
                      (λ fieldPos,
                         st_throw
                           (GbsSyntaxError (Def_startPos definition)
                              "errmsg:function-and-field-cannot-have-the-same-name"
                              [ArgName name;
                               ArgPosition (Def_startPos definition);
                               ArgPosition fieldPos])) st
                | None =>
                    Returned tt
                      (with_functions (<[name := definition]> (_functions st))
                         st)
                end
            end) as ->.
  { unfold defFunction. rewrite Hname. unfold st_bind at 1, st_gets at 1.
    unfold st_bind at 1. rewrite ownValue_own by done.
    destruct (_functions st !! name) as [previous |]; [done |].
    unfold st_bind at 1, st_gets at 1.
    unfold st_bind at 1. rewrite ownValue_own by done.
    by destruct (_fields st !! name). }
  destruct (_functions st !! name) as [previous |]; [done |].
  destruct (_fields st !! name) as [descriptors |] eqn:Hfield; [| done].
  destruct (Hst _ _ Hfield) as [Hnonempty Hall].
  destruct descriptors as [| descriptor rest]; [done |].
  apply Forall_cons in Hall as [(Hd & declaration & Hdecl & _ & Hat & _) _].
  exists descriptor, declaration. split_and!; try done.
  unfold positionOfField, st_gets. unfold st_bind.
  rewrite ownValue_own by done. by rewrite Hdecl.
Qed.

Lemma defFunction_outcomes_witness :
  let definition :=
    DefFunction (mkPosition 5 1) (mkPosition 7 1) "x" [] emptyBlock in
  defFunction definition sampleTypeTable
  = Thrown
      (GbsSyntaxError (mkPosition 5 1)
         "errmsg:function-and-field-cannot-have-the-same-name"
         [ArgName "x"; ArgPosition (mkPosition 5 1);
          ArgPosition (mkPosition 2 3)]) sampleTypeTable.
Proof.
  intros definition.
  destruct (defFunction_outcomes sampleTypeTable definition "x"
              sampleTypeTable_registered eq_refl eq_refl)
    as (descriptor & declaration & Hhead & Hdecl & _ & Hrun).
  vm_compute in Hhead. injection Hhead as <-.
  vm_compute in Hdecl. injection Hdecl as <-. exact Hrun.
Defined.

(** * From the symbol table to the compiler *)

Lemma forOfPush_values fbs :
  ∀ acc c c1,
    forOf _compileExpression (FieldValue_value <$> fbs) c = inr (tt, c1) →
    forOfPush
      (λ fieldBinding,
         match fieldBinding with
         | FieldValueNode _ _ fieldName value =>
             do _ <- _compileExpression value; ret fieldName
         end) fbs acc c
    = inr (acc ++ map FieldValue_fieldName fbs, c1).
Proof.
  induction fbs as [| [fsp fep f v] fbs IH]; intros acc c c1 Hrun.
  - simpl in *. unfold ret in *. injection Hrun as <-. by rewrite app_nil_r.
  - simpl in *. apply bind_inr in Hrun as ([] & c2 & Hv & Hrun).
    unfold bind at 1. unfold bind at 1. rewrite Hv. unfold ret at 1.
    rewrite (IH _ _ _ Hrun). by rewrite <- app_assoc.
Qed.

(** X26 — A constructor that [defType] registered compiles.  In a compiler
    whose symbol table is the one a type definition left on returning, for
    each constructor of the definition: the check of a structure pattern
    tests the type of the definition, without cases, and jumps on the
    constructor; the bind sequence of a pattern with as many parameters as
    the constructor has fields reads the declared fields, in the order of
    the declaration, into the parameters; and a structure expression whose
    field values compile makes a structure of the type of the definition
    with the field names as they are written, which are not compared with
    the declared ones. *)
Theorem declared_constructor_compiles (i18n : string → string) fieldNamePos
    sp ep typeName declarations st declaration c :
  defType fieldNamePos (DefType sp ep typeName declarations) st
  = Returned tt (_symtable c) →
  declaration ∈ declarations →
  let name := cd_constructorName declaration in
  (∀ psp pep parameters targetLabel,
     _compilePatternCheck i18n (PatternStructure psp pep name parameters)
       targetLabel c
     = inr (tt, advance c
                  (positioned psp pep
                     [ITypeCheck (TypeStructure typeName ∅);
                      IJumpIfStructure name targetLabel]) 0 0))
  ∧ (∀ psp pep parameters,
       length parameters = length (cd_fieldNames declaration) →
       _compilePatternBind (PatternStructure psp pep name parameters) c
       = inr (tt, advance c
                    (concat (zip_with
                               (λ fieldName parameter,
                                  positioned psp pep
                                    [IReadStructureField fieldName;
                                     ISetVariable parameter])
                               (cd_fieldNames declaration) parameters)) 0 0))
  ∧ (∀ esp eep fieldBindings c1,
       forOf _compileExpression (FieldValue_value <$> fieldBindings) c
       = inr (tt, c1) →
       _compileExpression (ExprStructure esp eep name fieldBindings) c
       = inr (tt, advance c1
                    (positioned esp eep
                       [IMakeStructure typeName name
                          (map FieldValue_fieldName fieldBindings)]) 0 0)).
Proof.
  intros Hrun Hin name.
  apply defType_returned in Hrun as (_ & _ & _ & Hnodup & _ & Hst).
  set (st0 := with_types
                (<[typeName := DefType sp ep typeName declarations]>
                   (_types st)) st) in Hst.
  destruct (registerConstructors_holds typeName declarations st0
              declaration Hnodup Hin) as (_ & Ht & Hf & _).
  assert (_constructorType (_symtable c) !! name = Some typeName) as Htype.
  { rewrite Hst. cbn [with_typeConstructors _constructorType]. exact Ht. }
  assert (_constructorFields (_symtable c) !! name
          = Some (cd_fieldNames declaration)) as Hfields.
  { rewrite Hst. cbn [with_typeConstructors _constructorFields]. exact Hf. }
  clear Hst Ht Hf. split_and!.
  - intros psp pep parameters targetLabel. unfold _compilePatternCheck.
    unfold _compilePatternCheckStructure. rewrite bind_gets.
    unfold bind at 1. unfold lift, constructorType. rewrite Htype.
    cbn [Pattern_startPos Pattern_endPos].
    rewrite bind_produce, produce_advance. by rewrite advance_advance.
  - intros psp pep parameters Hlength.
    unfold _compilePatternBind, _compilePatternBindStructure.
    case_bool_decide as Hnone.
    + rewrite Hnone in Hlength. symmetry in Hlength.
      apply length_zero_iff_nil in Hlength as ->.
      apply length_zero_iff_nil in Hnone as ->.
      unfold ret. simpl. by rewrite advance_0.
    + rewrite bind_gets. unfold bind, lift, constructorFields.
      rewrite Hfields. cbn [Pattern_startPos Pattern_endPos].
      rewrite bindStructure_outcome by lia. by rewrite decide_True by lia.
  - intros esp eep fieldBindings c1 Hvalues. simpl.
    unfold _compileExprStructure.
    unfold bind at 1. rewrite (forOfPush_values _ [] c c1 Hvalues).
    rewrite bind_gets.
    destruct (forOf_primitives _ _ _ Hvalues) as [_ Hsame].
    unfold bind at 1. unfold lift, constructorType. rewrite Hsame, Htype.
    by rewrite produce_advance.
Qed.

Lemma declared_constructor_compiles_witness :
  let c := Compiler_new samplePrimitives sampleTypeTable in
  _compilePatternCheck id (PatternStructure pos0 pos0 "Coord" ["a"; "b"])
    "L" c
  = inr (tt, advance c
               (positioned pos0 pos0
                  [ITypeCheck (TypeStructure "Coord" ∅);
                   IJumpIfStructure "Coord" "L"]) 0 0)
  ∧ _compilePatternBind (PatternStructure pos0 pos0 "Coord" ["a"; "b"]) c
    = inr (tt, advance c
                 (positioned pos0 pos0
                    [IReadStructureField "x"; ISetVariable "a";
                     IReadStructureField "y"; ISetVariable "b"]) 0 0)
  ∧ _compileExpression (ExprStructure pos0 pos0 "Coord" []) c
    = inr (tt, advance c
                 (positioned pos0 pos0 [IMakeStructure "Coord" "Coord" []])
                 0 0).
Proof.
  intros c.
  assert (defType sampleFieldNamePos sampleType SymbolTable_new
          = Returned tt (_symtable c)) as Hrun by (vm_compute; reflexivity).
  assert (sampleCoord ∈ [sampleCoord]) as Hin by constructor.
  destruct (declared_constructor_compiles id sampleFieldNamePos pos0 pos0
              "Coord" [sampleCoord] SymbolTable_new sampleCoord c Hrun Hin)
    as (Hcheck & Hbind & Hmake).
  split_and!.
  - apply Hcheck.
  - apply (Hbind pos0 pos0 ["a"; "b"]). reflexivity.
  - apply (Hmake pos0 pos0 [] c). reflexivity.
Defined.

(** ** What [equal] throws *)

Lemma equalComponents_thrown (equal : Value → Value → Exception + bool)
    components others e :
  ∀ i, equalComponents i (equal <$> components) others = inl e →
       e = propertyOfUndefined "tag"
       ∨ ∃ c o, c ∈ components ∧ equal c o = inl e.
Proof.
  induction components as [| c components IH]; intros i;
    [| rewrite fmap_cons]; cbn [equalComponents]; [done |].
  destruct (others !! i) as [o |]; simpl; [| intros [= <-]; by left].
  destruct (equal c o) as [e' | []] eqn:Hco; simpl.
  - intros [= ->]. right. exists c, o. split; [by left | done].
  - intros H. destruct (IH _ H) as [-> | (c' & o' & Hin & Hthrown)];
      [by left |].
    right. exists c', o'. split; [by right | done].
  - done.
Qed.

Lemma equalFields_thrown (equal : Value → Value → Exception + bool)
    fieldNames (fields others : gmap string Value) e :
  (∀ name, name ∈ fieldNames → is_Some (fields !! name)) →
  equalFields fieldNames (equal <$> fields) others = inl e →
  e = propertyOfUndefined "tag"
  ∨ ∃ name v o, fields !! name = Some v ∧ equal v o = inl e.
Proof.
  induction fieldNames as [| fieldName rest IH]; intros Hkeys;
    cbn [equalFields]; [done |].
  rewrite lookup_fmap.
  destruct (Hkeys fieldName) as [v Hv]; [by left |]. rewrite Hv. simpl.
  destruct (others !! fieldName) as [o |]; simpl.
  - destruct (equal v o) as [e' | []] eqn:Hvo; simpl.
    + intros [= ->]. right. by exists fieldName, v, o.
    + apply IH. intros name Hin. apply Hkeys. by right.
    + done.
  - destruct (inherited fieldName); simpl; [done |]. intros [= <-]. by left.
Qed.

Lemma Value_equal_thrown this :
  ∀ other e, Value_equal this other = inl e → e = propertyOfUndefined "tag".
Proof.
  induction this as [a | a | components IH | components IH | t c fields IH]
    using Value_nested_ind;
    intros [b | b | others | others | t' c' others] e;
    cbn [Value_equal]; try done.
  - case_bool_decide as Hsame; [done |]. intros H.
    apply equalComponents_thrown in H as [-> | (x & o & Hin & H)]; [done |].
    rewrite Forall_forall in IH. by apply (IH x Hin o).
  - case_bool_decide as Hsame; [done |]. intros H.
    apply equalComponents_thrown in H as [-> | (x & o & Hin & H)]; [done |].
    rewrite Forall_forall in IH. by apply (IH x Hin o).
  - case_bool_decide as Hsame; [done |]. intros H.
    apply equalFields_thrown in H as [-> | (name & v & o & Hv & H)]; [done | |].
    + by apply (IH name v Hv o).
    + intros name Hin. by apply elem_of_sortedKeys.
Qed.

Lemma equalComponents_returns (equal : Value → Value → Exception + bool)
    components others :
  (∀ c o, c ∈ components → ∃ b, equal c o = inr b) →
  ∀ i, i + length components ≤ length others →
       ∃ b, equalComponents i (equal <$> components) others = inr b.
Proof.
  induction components as [| c components IH]; intros Hreturns i Hlength;
    [| rewrite fmap_cons]; cbn [equalComponents]; [by eexists |].
  simpl in Hlength.
  destruct (lookup_lt_is_Some_2 others i) as [o ->]; [lia |].
  destruct (Hreturns c o) as [[] ->]; [by left | | by eexists].
  simpl. apply IH; [| lia]. intros c' o' Hin. apply Hreturns. by right.
Qed.

Lemma Value_equal_fieldless this :
  fieldless this = true → ∀ other, ∃ b, Value_equal this other = inr b.
Proof.
  induction this as [a | a | components IH | components IH | t c fields IH]
    using Value_nested_ind;
    intros Hflat [b | b | others | others | t' c' others];
    cbn [Value_equal]; try by eexists.
  - case_bool_decide as Hlength; [by eexists |].
    apply equalComponents_returns; [| simpl; lia].
    intros x o Hin. cbn [fieldless] in Hflat.
    rewrite forallb_forall in Hflat. rewrite Forall_forall in IH.
    apply IH; [done |]. apply Hflat. by apply list_elem_of_In.
  - case_bool_decide as Hlength; [by eexists |].
    apply equalComponents_returns; [| simpl; lia].
    intros x o Hin. cbn [fieldless] in Hflat.
    rewrite forallb_forall in Hflat. rewrite Forall_forall in IH.
    apply IH; [done |]. apply Hflat. by apply list_elem_of_In.
  - case_bool_decide as Hsame; [by eexists |].
    cbn [fieldless] in Hflat. apply bool_decide_eq_true in Hflat as ->.
    assert (sortedKeys (∅ : gmap string Value) = []) as ->.
    { apply elem_of_nil_inv. intros name Hin.
      apply elem_of_sortedKeys in Hin as [v Hv]. by rewrite lookup_empty in Hv. }
    by eexists.
Qed.

(** X27 — What [equal] throws, and when it cannot.  The only exception
    [equal] throws is the [TypeError] of reading [tag] of [undefined].  On a
    value whose structures have no fields (integers, strings, the constants
    of enumerations, and the tuples and lists of these), [equal] returns
    whatever the other value is. *)
Theorem Value_equal_throws_only :
  (∀ this other e,
     Value_equal this other = inl e → e = propertyOfUndefined "tag")
  ∧ (∀ this other,
       fieldless this = true → ∃ b, Value_equal this other = inr b).
Proof.
  split.
  - intros this. apply Value_equal_thrown.
  - intros this other Hflat. by apply Value_equal_fieldless.
Qed.

Lemma Value_equal_throws_only_witness :
  Value_equal sampleAbscissa sampleOrigin = inl (propertyOfUndefined "tag")
  ∧ ∃ b, Value_equal (V_Tuple [sampleOrigin; V_List []]) samplePoint = inr b.
Proof.
  destruct Value_equal_throws_only as [Hthrown Hreturns]. split.
  - destruct (Value_equal sampleAbscissa sampleOrigin) as [e | b] eqn:Hrun.
    + f_equal. by apply (Hthrown sampleAbscissa sampleOrigin).
    + vm_compute in Hrun. discriminate Hrun.
  - apply Hreturns. reflexivity.
Defined.

Lemma Forall2_flip_elem {A : Type} (P Q : A → A → Prop) l k :
  Forall2 P l k →
  (∀ x y, x ∈ l → y ∈ k → P x y → Q y x) →
  Forall2 Q k l.
Proof.
  induction 1 as [| x y l k Hxy _ IH]; intros HPQ; constructor.
  - apply HPQ; [by left | by left | done].
  - apply IH. intros x' y' Hx' Hy'. apply HPQ; by right.
Qed.

Lemma Value_equal_sym_true this :
  ∀ other,
    fieldless this = true → fieldless other = true →
    Value_equal this other = inr true → Value_equal other this = inr true.
Proof.
  induction this as [a | a | components IH | components IH | t c fields IH]
    using Value_nested_ind;
    intros [b | b | others | others | t' c' others] Hthis Hother Hequal;
    apply Value_equal_true_cases in Hequal; apply Value_equal_true_cases;
    try done.
  - cbn [fieldless] in Hthis, Hother.
    rewrite forallb_forall in Hthis, Hother. rewrite Forall_forall in IH.
    eapply Forall2_flip_elem; [exact Hequal |]. simpl.
    intros x o Hx Ho Hxo. apply IH; [done | | | done].
    + apply Hthis. by apply list_elem_of_In.
    + apply Hother. by apply list_elem_of_In.
  - cbn [fieldless] in Hthis, Hother.
    rewrite forallb_forall in Hthis, Hother. rewrite Forall_forall in IH.
    eapply Forall2_flip_elem; [exact Hequal |]. simpl.
    intros x o Hx Ho Hxo. apply IH; [done | | | done].
    + apply Hthis. by apply list_elem_of_In.
    + apply Hother. by apply list_elem_of_In.
  - cbn [fieldless] in Hthis. apply bool_decide_eq_true in Hthis as ->.
    destruct Hequal as [-> _]. split; [done |].
    cbn [fieldless] in Hother. apply bool_decide_eq_true in Hother as ->.
    intros name v Hv. by rewrite lookup_empty in Hv.
Qed.

(** X28 — On values whose structures have no fields, [equal] is symmetric:
    [a.equal(b)] and [b.equal(a)] return the same boolean.  With reflexivity
    and transitivity, [equal] is an equivalence on these values. *)
Theorem Value_equal_symmetric (a b : Value) :
  fieldless a = true → fieldless b = true →
  Value_equal a b = Value_equal b a.
Proof.
  intros Ha Hb.
  destruct (Value_equal_fieldless a Ha b) as [ab Hab].
  destruct (Value_equal_fieldless b Hb a) as [ba Hba].
  rewrite Hab, Hba. f_equal. destruct ab, ba; try done.
  - apply (Value_equal_sym_true a b Ha Hb) in Hab. congruence.
  - apply (Value_equal_sym_true b a Hb Ha) in Hba. congruence.
Qed.

Lemma Value_equal_symmetric_witness :
  let a := V_Tuple [sampleOrigin; V_Integer (mkValueInteger "1")] in
  let b := V_Tuple [sampleOrigin; V_Integer (mkValueInteger "01")] in
  Value_equal a b = Value_equal b a.
Proof.
  intros a b. apply (Value_equal_symmetric a b); reflexivity.
Defined.
